(** * Piano-Shaima: playback and practice engine

    A shallow embedding of the engine that lives in [src/App.tsx] (the
    refs, the React state and the callbacks of the [App] component) and of
    the note-generation boundary [getSongNotes] (both versions of the
    service file), followed by the properties of the specification that
    were checked against them.

    Conventions of the embedding.
    - JavaScript numbers are exact rationals ([Qc]); rounding of doubles is
      not modelled.
    - A callback reads React state from the render that created it and
      writes through the setters; the writes become visible at the next
      render.  A callback is therefore a function of the render snapshot
      [r] and runs in the monad [Js] over the state being written.
    - Exceptions are explicit: a computation completes [Normal]ly or is
      [Thrown] out of, keeping the mutations done so far.
    - Objects are compared by value, so a setter called with a fresh object
      of unchanged content does not count as a change. *)

From Stdlib Require Import QArith Qcanon Ascii String.
From stdpp Require Import gmap strings list.

Open Scope string_scope.
Open Scope list_scope.
Open Scope Qc_scope.

(** ** Numbers *)

Definition qz (z : Z) : Qc := Q2Qc (inject_Z z).
Definition qfrac (n : Z) (d : positive) : Qc := Q2Qc (n # d).

Definition Qcltb (x y : Qc) : bool :=
  match Qccompare x y with Lt => true | _ => false end.

(** ** Data model ([src/types.ts]) *)

Inductive AppState :=
| IDLE | LOADING | LOADED | PLAYING | PAUSED | ERROR | LEARNING.

#[global] Instance AppState_eq_dec : EqDecision AppState.
Proof. solve_decision. Defined.

Record SongNote := MkSongNote {
  note : string;        (* "C4", "F#5" or "Rest" *)
  duration : Qc;        (* milliseconds *)
  startTime : Qc        (* milliseconds from the start of the song *)
}.

#[global] Instance SongNote_eq_dec : EqDecision SongNote.
Proof. solve_decision. Defined.

Definition isRest (n : SongNote) : bool := bool_decide (note n = "Rest").

(** ** Web Audio objects *)

Inductive GainEvent :=
| SetValueAtTime (v t : Qc)
| HoldValueAtTime (t : Qc)          (* setValueAtTime(gain.value, t) *)
| LinearRampToValueAtTime (v t : Qc).

Definition eventTime (e : GainEvent) : Qc :=
  match e with
  | SetValueAtTime _ t | HoldValueAtTime t | LinearRampToValueAtTime _ t => t
  end.

(** The pair [{ oscillator, gainNode }] of the source. [osc_stop] is the
    instant of the last accepted [stop] call. *)
Record AudioNodes := MkAudioNodes {
  osc_frequency : Qc;
  osc_start : Qc;
  osc_stop : option Qc;
  osc_onended : bool;
  gain_events : list GainEvent
}.

(** The audio context. [ctx_strictStop] tells whether [stop] on a source
    whose stop was already requested raises (the prefixed
    [webkitAudioContext] the source falls back to does; the current
    standard does not). *)
Record AudioContext := MkAudioContext {
  ctx_strictStop : bool;
  ctx_suspended : bool
}.

(** Clock samples taken by one callback run: [performance.now()] in
    milliseconds and [audioContext.currentTime] in seconds. *)
Record Clock := MkClock { perfNow : Qc; audioNow : Qc }.

(** ** Timers *)

Inductive TimerAction :=
| THighlight (n : SongNote)   (* scheduleSong: highlight callback of a note *)
| TEndOfSong                  (* scheduleSong: end-of-song callback *)
| TClearCorrect               (* onNoteDown: clear the correct pulse *)
| TClearIncorrect             (* onNoteDown: clear the incorrect pulse *)
| TCompletion.                (* onNoteDown: leave learning after completion *)

Record Timer := MkTimer {
  timer_id : nat;
  timer_delay : Qc;
  timer_action : TimerAction
}.

(** ** The state of the component *)

Definition HighlightedNoteInfo : Type := option string * option Qc.

Record State := MkState {
  (* React state *)
  appState : AppState;
  song : option (list SongNote);
  highlightedNoteInfo : HighlightedNoteInfo;
  activeNotes : gset string;
  errorInfo : option (string * string);
  playbackSpeed : Qc;
  learningNoteIndex : nat;
  correctPressNote : option string;
  incorrectPressNote : option string;
  completionMessage : option string;
  playbackProgress : Qc;
  (* refs *)
  audioContextRef : option AudioContext;
  manualNodesRef : list (string * AudioNodes);   (* a Map, in insertion order *)
  scheduledNodesRef : list AudioNodes;
  scheduledUiCallbacksRef : list nat;
  playbackStartTimeRef : Qc;
  playbackProgressRef : Qc;
  appStateRef : AppState;
  playbackSpeedRef : Qc;
  (* the browser *)
  windowAudioContext : option AudioContext;  (* what [new AudioContext()] gives *)
  timers : list Timer;                       (* pending timeouts *)
  nextTimerId : nat
}.

Definition setAppState (v : AppState) (s : State) : State :=
  MkState v (song s) (highlightedNoteInfo s) (activeNotes s) (errorInfo s) (playbackSpeed s)
    (learningNoteIndex s) (correctPressNote s) (incorrectPressNote s) (completionMessage s)
    (playbackProgress s) (audioContextRef s) (manualNodesRef s) (scheduledNodesRef s)
    (scheduledUiCallbacksRef s) (playbackStartTimeRef s) (playbackProgressRef s)
    (appStateRef s) (playbackSpeedRef s) (windowAudioContext s) (timers s) (nextTimerId s).
Definition setSong (v : option (list SongNote)) (s : State) : State :=
  MkState (appState s) v (highlightedNoteInfo s) (activeNotes s) (errorInfo s)
    (playbackSpeed s) (learningNoteIndex s) (correctPressNote s) (incorrectPressNote s)
    (completionMessage s) (playbackProgress s) (audioContextRef s) (manualNodesRef s)
    (scheduledNodesRef s) (scheduledUiCallbacksRef s) (playbackStartTimeRef s)
    (playbackProgressRef s) (appStateRef s) (playbackSpeedRef s) (windowAudioContext s)
    (timers s) (nextTimerId s).
Definition setHighlightedNoteInfo (v : HighlightedNoteInfo) (s : State) : State :=
  MkState (appState s) (song s) v (activeNotes s) (errorInfo s) (playbackSpeed s)
    (learningNoteIndex s) (correctPressNote s) (incorrectPressNote s) (completionMessage s)
    (playbackProgress s) (audioContextRef s) (manualNodesRef s) (scheduledNodesRef s)
    (scheduledUiCallbacksRef s) (playbackStartTimeRef s) (playbackProgressRef s)
    (appStateRef s) (playbackSpeedRef s) (windowAudioContext s) (timers s) (nextTimerId s).
Definition setActiveNotes (v : gset string) (s : State) : State :=
  MkState (appState s) (song s) (highlightedNoteInfo s) v (errorInfo s) (playbackSpeed s)
    (learningNoteIndex s) (correctPressNote s) (incorrectPressNote s) (completionMessage s)
    (playbackProgress s) (audioContextRef s) (manualNodesRef s) (scheduledNodesRef s)
    (scheduledUiCallbacksRef s) (playbackStartTimeRef s) (playbackProgressRef s)
    (appStateRef s) (playbackSpeedRef s) (windowAudioContext s) (timers s) (nextTimerId s).
Definition setErrorInfo (v : option (string * string)) (s : State) : State :=
  MkState (appState s) (song s) (highlightedNoteInfo s) (activeNotes s) v (playbackSpeed s)
    (learningNoteIndex s) (correctPressNote s) (incorrectPressNote s) (completionMessage s)
    (playbackProgress s) (audioContextRef s) (manualNodesRef s) (scheduledNodesRef s)
    (scheduledUiCallbacksRef s) (playbackStartTimeRef s) (playbackProgressRef s)
    (appStateRef s) (playbackSpeedRef s) (windowAudioContext s) (timers s) (nextTimerId s).
Definition setPlaybackSpeed (v : Qc) (s : State) : State :=
  MkState (appState s) (song s) (highlightedNoteInfo s) (activeNotes s) (errorInfo s) v
    (learningNoteIndex s) (correctPressNote s) (incorrectPressNote s) (completionMessage s)
    (playbackProgress s) (audioContextRef s) (manualNodesRef s) (scheduledNodesRef s)
    (scheduledUiCallbacksRef s) (playbackStartTimeRef s) (playbackProgressRef s)
    (appStateRef s) (playbackSpeedRef s) (windowAudioContext s) (timers s) (nextTimerId s).
Definition setLearningNoteIndex (v : nat) (s : State) : State :=
  MkState (appState s) (song s) (highlightedNoteInfo s) (activeNotes s) (errorInfo s)
    (playbackSpeed s) v (correctPressNote s) (incorrectPressNote s) (completionMessage s)
    (playbackProgress s) (audioContextRef s) (manualNodesRef s) (scheduledNodesRef s)
    (scheduledUiCallbacksRef s) (playbackStartTimeRef s) (playbackProgressRef s)
    (appStateRef s) (playbackSpeedRef s) (windowAudioContext s) (timers s) (nextTimerId s).
Definition setCorrectPressNote (v : option string) (s : State) : State :=
  MkState (appState s) (song s) (highlightedNoteInfo s) (activeNotes s) (errorInfo s)
    (playbackSpeed s) (learningNoteIndex s) v (incorrectPressNote s) (completionMessage s)
    (playbackProgress s) (audioContextRef s) (manualNodesRef s) (scheduledNodesRef s)
    (scheduledUiCallbacksRef s) (playbackStartTimeRef s) (playbackProgressRef s)
    (appStateRef s) (playbackSpeedRef s) (windowAudioContext s) (timers s) (nextTimerId s).
Definition setIncorrectPressNote (v : option string) (s : State) : State :=
  MkState (appState s) (song s) (highlightedNoteInfo s) (activeNotes s) (errorInfo s)
    (playbackSpeed s) (learningNoteIndex s) (correctPressNote s) v (completionMessage s)
    (playbackProgress s) (audioContextRef s) (manualNodesRef s) (scheduledNodesRef s)
    (scheduledUiCallbacksRef s) (playbackStartTimeRef s) (playbackProgressRef s)
    (appStateRef s) (playbackSpeedRef s) (windowAudioContext s) (timers s) (nextTimerId s).
Definition setCompletionMessage (v : option string) (s : State) : State :=
  MkState (appState s) (song s) (highlightedNoteInfo s) (activeNotes s) (errorInfo s)
    (playbackSpeed s) (learningNoteIndex s) (correctPressNote s) (incorrectPressNote s) v
    (playbackProgress s) (audioContextRef s) (manualNodesRef s) (scheduledNodesRef s)
    (scheduledUiCallbacksRef s) (playbackStartTimeRef s) (playbackProgressRef s)
    (appStateRef s) (playbackSpeedRef s) (windowAudioContext s) (timers s) (nextTimerId s).
Definition setPlaybackProgress (v : Qc) (s : State) : State :=
  MkState (appState s) (song s) (highlightedNoteInfo s) (activeNotes s) (errorInfo s)
    (playbackSpeed s) (learningNoteIndex s) (correctPressNote s) (incorrectPressNote s)
    (completionMessage s) v (audioContextRef s) (manualNodesRef s) (scheduledNodesRef s)
    (scheduledUiCallbacksRef s) (playbackStartTimeRef s) (playbackProgressRef s)
    (appStateRef s) (playbackSpeedRef s) (windowAudioContext s) (timers s) (nextTimerId s).
Definition setAudioContextRef (v : option AudioContext) (s : State) : State :=
  MkState (appState s) (song s) (highlightedNoteInfo s) (activeNotes s) (errorInfo s)
    (playbackSpeed s) (learningNoteIndex s) (correctPressNote s) (incorrectPressNote s)
    (completionMessage s) (playbackProgress s) v (manualNodesRef s) (scheduledNodesRef s)
    (scheduledUiCallbacksRef s) (playbackStartTimeRef s) (playbackProgressRef s)
    (appStateRef s) (playbackSpeedRef s) (windowAudioContext s) (timers s) (nextTimerId s).
Definition setManualNodesRef (v : list (string * AudioNodes)) (s : State) : State :=
  MkState (appState s) (song s) (highlightedNoteInfo s) (activeNotes s) (errorInfo s)
    (playbackSpeed s) (learningNoteIndex s) (correctPressNote s) (incorrectPressNote s)
    (completionMessage s) (playbackProgress s) (audioContextRef s) v (scheduledNodesRef s)
    (scheduledUiCallbacksRef s) (playbackStartTimeRef s) (playbackProgressRef s)
    (appStateRef s) (playbackSpeedRef s) (windowAudioContext s) (timers s) (nextTimerId s).
Definition setScheduledNodesRef (v : list AudioNodes) (s : State) : State :=
  MkState (appState s) (song s) (highlightedNoteInfo s) (activeNotes s) (errorInfo s)
    (playbackSpeed s) (learningNoteIndex s) (correctPressNote s) (incorrectPressNote s)
    (completionMessage s) (playbackProgress s) (audioContextRef s) (manualNodesRef s) v
    (scheduledUiCallbacksRef s) (playbackStartTimeRef s) (playbackProgressRef s)
    (appStateRef s) (playbackSpeedRef s) (windowAudioContext s) (timers s) (nextTimerId s).
Definition setScheduledUiCallbacksRef (v : list nat) (s : State) : State :=
  MkState (appState s) (song s) (highlightedNoteInfo s) (activeNotes s) (errorInfo s)
    (playbackSpeed s) (learningNoteIndex s) (correctPressNote s) (incorrectPressNote s)
    (completionMessage s) (playbackProgress s) (audioContextRef s) (manualNodesRef s)
    (scheduledNodesRef s) v (playbackStartTimeRef s) (playbackProgressRef s) (appStateRef s)
    (playbackSpeedRef s) (windowAudioContext s) (timers s) (nextTimerId s).
Definition setPlaybackStartTimeRef (v : Qc) (s : State) : State :=
  MkState (appState s) (song s) (highlightedNoteInfo s) (activeNotes s) (errorInfo s)
    (playbackSpeed s) (learningNoteIndex s) (correctPressNote s) (incorrectPressNote s)
    (completionMessage s) (playbackProgress s) (audioContextRef s) (manualNodesRef s)
    (scheduledNodesRef s) (scheduledUiCallbacksRef s) v (playbackProgressRef s) (appStateRef
    s) (playbackSpeedRef s) (windowAudioContext s) (timers s) (nextTimerId s).
Definition setPlaybackProgressRef (v : Qc) (s : State) : State :=
  MkState (appState s) (song s) (highlightedNoteInfo s) (activeNotes s) (errorInfo s)
    (playbackSpeed s) (learningNoteIndex s) (correctPressNote s) (incorrectPressNote s)
    (completionMessage s) (playbackProgress s) (audioContextRef s) (manualNodesRef s)
    (scheduledNodesRef s) (scheduledUiCallbacksRef s) (playbackStartTimeRef s) v
    (appStateRef s) (playbackSpeedRef s) (windowAudioContext s) (timers s) (nextTimerId s).
Definition setAppStateRef (v : AppState) (s : State) : State :=
  MkState (appState s) (song s) (highlightedNoteInfo s) (activeNotes s) (errorInfo s)
    (playbackSpeed s) (learningNoteIndex s) (correctPressNote s) (incorrectPressNote s)
    (completionMessage s) (playbackProgress s) (audioContextRef s) (manualNodesRef s)
    (scheduledNodesRef s) (scheduledUiCallbacksRef s) (playbackStartTimeRef s)
    (playbackProgressRef s) v (playbackSpeedRef s) (windowAudioContext s) (timers s)
    (nextTimerId s).
Definition setPlaybackSpeedRef (v : Qc) (s : State) : State :=
  MkState (appState s) (song s) (highlightedNoteInfo s) (activeNotes s) (errorInfo s)
    (playbackSpeed s) (learningNoteIndex s) (correctPressNote s) (incorrectPressNote s)
    (completionMessage s) (playbackProgress s) (audioContextRef s) (manualNodesRef s)
    (scheduledNodesRef s) (scheduledUiCallbacksRef s) (playbackStartTimeRef s)
    (playbackProgressRef s) (appStateRef s) v (windowAudioContext s) (timers s) (nextTimerId
    s).
Definition setTimers (v : list Timer) (s : State) : State :=
  MkState (appState s) (song s) (highlightedNoteInfo s) (activeNotes s) (errorInfo s)
    (playbackSpeed s) (learningNoteIndex s) (correctPressNote s) (incorrectPressNote s)
    (completionMessage s) (playbackProgress s) (audioContextRef s) (manualNodesRef s)
    (scheduledNodesRef s) (scheduledUiCallbacksRef s) (playbackStartTimeRef s)
    (playbackProgressRef s) (appStateRef s) (playbackSpeedRef s) (windowAudioContext s) v
    (nextTimerId s).
Definition setNextTimerId (v : nat) (s : State) : State :=
  MkState (appState s) (song s) (highlightedNoteInfo s) (activeNotes s) (errorInfo s)
    (playbackSpeed s) (learningNoteIndex s) (correctPressNote s) (incorrectPressNote s)
    (completionMessage s) (playbackProgress s) (audioContextRef s) (manualNodesRef s)
    (scheduledNodesRef s) (scheduledUiCallbacksRef s) (playbackStartTimeRef s)
    (playbackProgressRef s) (appStateRef s) (playbackSpeedRef s) (windowAudioContext s)
    (timers s) v.

(** The component at mount, in a browser whose audio constructor gives [w]. *)
Definition initialState (w : option AudioContext) : State :=
  {| appState := IDLE; song := None; highlightedNoteInfo := (None, None);
     activeNotes := ∅; errorInfo := None; playbackSpeed := 1;
     learningNoteIndex := 0; correctPressNote := None;
     incorrectPressNote := None; completionMessage := None;
     playbackProgress := 0;
     audioContextRef := None; manualNodesRef := []; scheduledNodesRef := [];
     scheduledUiCallbacksRef := []; playbackStartTimeRef := 0;
     playbackProgressRef := 0; appStateRef := IDLE; playbackSpeedRef := 1;
     windowAudioContext := w; timers := []; nextTimerId := 0 |}.

(** ** Computations that mutate the state and may throw *)

Inductive Completion (A : Type) : Type :=
| Normal (a : A) (s : State)
| Thrown (s : State).
Arguments Normal {A} a s.
Arguments Thrown {A} s.

Definition Js (A : Type) : Type := State -> Completion A.

Definition ret {A} (a : A) : Js A := fun s => Normal a s.
Definition bind {A B} (m : Js A) (k : A -> Js B) : Js B :=
  fun s => match m s with
           | Normal a s' => k a s'
           | Thrown s' => Thrown s'
           end.
Definition throw {A} : Js A := fun s => Thrown s.
Definition gets {A} (f : State -> A) : Js A := fun s => Normal (f s) s.
Definition modify (f : State -> State) : Js unit := fun s => Normal tt (f s).

(** [try { m } catch (e) { }] *)
Definition tryIgnore (m : Js unit) : Js unit :=
  fun s => match m s with
           | Normal a s' => Normal a s'
           | Thrown s' => Normal tt s'
           end.

Notation "'let*' x ':=' m 'in' k" := (bind m (fun x => k))
  (at level 10, x name, m at level 100, k at level 200, only parsing).
Notation "m ;;; k" := (bind m (fun _ => k))
  (at level 100, k at level 200, right associativity, only parsing).

Fixpoint forEach {A} (l : list A) (body : A -> Js unit) : Js unit :=
  match l with
  | [] => ret tt
  | x :: l' => body x ;;; forEach l' body
  end.

Definition finalState {A} (r : Completion A) : State :=
  match r with Normal _ s => s | Thrown s => s end.

Definition completed {A} (r : Completion A) : bool :=
  match r with Normal _ _ => true | Thrown _ => false end.

(** [window.setTimeout] and [clearTimeout] *)
Definition setTimeout (a : TimerAction) (delay : Qc) : Js nat :=
  fun s =>
    let id := nextTimerId s in
    Normal id (setNextTimerId (S id)
                 (setTimers (timers s ++ [MkTimer id delay a]) s)).

Definition clearTimeout (id : nat) : Js unit :=
  modify (fun s => setTimers (filter (fun t => timer_id t <> id) (timers s)) s).

(** ** Audio primitives *)

(** [gain.cancelScheduledValues(t)]: drop the events at or after [t]. *)
Definition cancelScheduledValues (t : Qc) (n : AudioNodes) : AudioNodes :=
  MkAudioNodes (osc_frequency n) (osc_start n) (osc_stop n) (osc_onended n)
    (filter (fun e => Qcltb (eventTime e) t = true) (gain_events n)).

Definition addGainEvent (e : GainEvent) (n : AudioNodes) : AudioNodes :=
  MkAudioNodes (osc_frequency n) (osc_start n) (osc_stop n) (osc_onended n)
    (gain_events n ++ [e]).

Definition setOnended (n : AudioNodes) : AudioNodes :=
  MkAudioNodes (osc_frequency n) (osc_start n) (osc_stop n) true (gain_events n).

(** [oscillator.stop(when)]: [None] is the [InvalidStateError] of a context
    that rejects a second stop request. *)
Definition oscillatorStop (ctx : AudioContext) (when : Qc) (n : AudioNodes)
  : option AudioNodes :=
  match osc_stop n with
  | Some _ =>
      if ctx_strictStop ctx then None
      else Some (MkAudioNodes (osc_frequency n) (osc_start n) (Some when)
                   (osc_onended n) (gain_events n))
  | None =>
      Some (MkAudioNodes (osc_frequency n) (osc_start n) (Some when)
              (osc_onended n) (gain_events n))
  end.

(** Note frequencies from C3 to B5, in hundredths of a hertz. *)
Definition noteFrequencies : list (string * Z) :=
  [ ("C3", 13081); ("C#3", 13859); ("D3", 14683); ("D#3", 15556);
    ("E3", 16481); ("F3", 17461); ("F#3", 18500); ("G3", 19600);
    ("G#3", 20765); ("A3", 22000); ("A#3", 23308); ("B3", 24694);
    ("C4", 26163); ("C#4", 27718); ("D4", 29366); ("D#4", 31113);
    ("E4", 32963); ("F4", 34923); ("F#4", 36999); ("G4", 39200);
    ("G#4", 41530); ("A4", 44000); ("A#4", 46616); ("B4", 49388);
    ("C5", 52325); ("C#5", 55437); ("D5", 58733); ("D#5", 62225);
    ("E5", 65925); ("F5", 69846); ("F#5", 73999); ("G5", 78399);
    ("G#5", 83061); ("A5", 88000); ("A#5", 93233); ("B5", 98777) ]%Z.

Fixpoint assoc {A} (k : string) (l : list (string * A)) : option A :=
  match l with
  | [] => None
  | (k', v) :: l' => if bool_decide (k' = k) then Some v else assoc k l'
  end.

(** [noteFrequencies[note] || 440] *)
Definition frequencyOf (n : string) : Qc :=
  match assoc n noteFrequencies with
  | Some f => qfrac f 100
  | None => qz 440
  end.

(** The fade-out both loops of [stopAllSounds] apply to a node: the node
    after the calls that went through, and whether [stop] was accepted. *)
Definition fadeAndStop (ctx : AudioContext) (now : Qc) (n : AudioNodes)
  : AudioNodes * bool :=
  let n1 := cancelScheduledValues now n in
  let n2 := addGainEvent (LinearRampToValueAtTime 0 (now + qfrac 5 100)) n1 in
  match oscillatorStop ctx (now + qfrac 5 100) n2 with
  | Some n3 => (n3, true)
  | None => (n2, false)
  end.

(** Replace the node stored under a key of the manual-node map. *)
Fixpoint mapReplace (k : string) (v : AudioNodes) (l : list (string * AudioNodes))
  : list (string * AudioNodes) :=
  match l with
  | [] => []
  | (k', v') :: l' =>
      if bool_decide (k' = k) then (k', v) :: l' else (k', v') :: mapReplace k v l'
  end.

Definition mapDelete (k : string) (l : list (string * AudioNodes))
  : list (string * AudioNodes) :=
  filter (fun e => fst e <> k) l.

(** ** The callbacks of [App]

    [c] is the clock sample of the run. *)

Section Run.
Variable c : Clock.

(** [initializeAudio] *)
Definition initializeAudio : Js bool :=
  fun s =>
    match audioContextRef s with
    | Some ctx =>
        Normal true
          (if ctx_suspended ctx
           then setAudioContextRef (Some (MkAudioContext (ctx_strictStop ctx) false)) s
           else s)
    | None =>
        match windowAudioContext s with
        | Some ctx =>
            Normal true
              (setAudioContextRef
                 (Some (if ctx_suspended ctx
                        then MkAudioContext (ctx_strictStop ctx) false
                        else ctx)) s)
        | None =>
            Normal false
              (setErrorInfo
                 (Some ("Audio Error",
                        "Web Audio API is not supported in this browser.")) s)
        end
    end.

(** Body of the loop of [stopAllSounds] over the scheduled nodes; the
    nodes are dropped from the ref right after the loop. *)
Definition stopScheduledNode (n : AudioNodes) : Js unit :=
  tryIgnore
    (let* ctx := gets audioContextRef in
     match ctx with
     | Some ctx => if snd (fadeAndStop ctx (audioNow c) n) then ret tt else throw
     | None => ret tt
     end).

(** Body of the loop of [stopAllSounds] over the manual nodes: no
    [try] here. The node is mutated in place. *)
Definition stopManualNode (e : string * AudioNodes) : Js unit :=
  let* ctx := gets audioContextRef in
  match ctx with
  | Some ctx =>
      let r := fadeAndStop ctx (audioNow c) (snd e) in
      modify (fun s => setManualNodesRef (mapReplace (fst e) (fst r) (manualNodesRef s)) s) ;;;
      if snd r then ret tt else throw
  | None => ret tt
  end.

(** [stopAllSounds] *)
Definition stopAllSounds : Js unit :=
  let* nodes := gets scheduledNodesRef in
  forEach nodes stopScheduledNode ;;;
  modify (setScheduledNodesRef []) ;;;
  let* ids := gets scheduledUiCallbacksRef in
  forEach ids clearTimeout ;;;
  modify (setScheduledUiCallbacksRef []) ;;;
  let* manual := gets manualNodesRef in
  forEach manual stopManualNode ;;;
  modify (setManualNodesRef []) ;;;
  modify (setActiveNotes ∅).

(** [playNote] *)
Definition playNote (n : string) : Js unit :=
  let* ok := initializeAudio in
  let* manual := gets manualNodesRef in
  if negb ok || bool_decide (n = "Rest") || bool_decide (is_Some (assoc n manual))
  then ret tt
  else
    let now := audioNow c in
    let node :=
      MkAudioNodes (frequencyOf n) now None false
        [SetValueAtTime 0 now;
         LinearRampToValueAtTime (qfrac 1 2) (now + qfrac 1 100)] in
    modify (fun s => setManualNodesRef (manualNodesRef s ++ [(n, node)]) s) ;;;
    modify (fun s => setActiveNotes (activeNotes s ∪ {[ n ]}) s).

(** [stopNote] *)
Definition stopNote (n : string) : Js unit :=
  let* ctx := gets audioContextRef in
  let* manual := gets manualNodesRef in
  match ctx, assoc n manual with
  | Some ctx, Some node =>
      let now := audioNow c in
      let n1 := cancelScheduledValues now node in
      let n2 := addGainEvent (HoldValueAtTime now) n1 in
      let n3 := addGainEvent (LinearRampToValueAtTime 0 (now + qfrac 1 10)) n2 in
      let n4 := setOnended n3 in
      match oscillatorStop ctx (now + qfrac 1 10) n4 with
      | Some n5 =>
          modify (fun s => setManualNodesRef (mapReplace n n5 (manualNodesRef s)) s) ;;;
          modify (fun s => setActiveNotes (activeNotes s ∖ {[ n ]}) s)
      | None =>
          modify (fun s => setManualNodesRef (mapReplace n n4 (manualNodesRef s)) s) ;;;
          throw
      end
  | _, _ => ret tt
  end.

(** The callbacks below close over the render [r]. *)
Variable r : State.

(** The tone source [scheduleSong] creates for a note that is not a rest. *)
Definition scheduledNode (n : SongNote) (startTimeSec durationSec : Qc) : AudioNodes :=
  let t0 := audioNow c + startTimeSec in
  MkAudioNodes (frequencyOf (note n)) t0 (Some (t0 + durationSec)) false
    [SetValueAtTime 0 t0;
     LinearRampToValueAtTime (qfrac 1 2) (t0 + qfrac 1 100);
     SetValueAtTime (qfrac 1 2) (t0 + durationSec - qfrac 5 100);
     LinearRampToValueAtTime 0 (t0 + durationSec)].

(** The [song.forEach] of [scheduleSong], with its two local arrays. *)
Fixpoint scheduleNotes (startOffsetMs : Qc) (l : list SongNote)
    (scheduledNodes : list AudioNodes) (uiTimeouts : list nat)
  : Js (list AudioNodes * list nat) :=
  match l with
  | [] => ret (scheduledNodes, uiTimeouts)
  | n :: l' =>
      if Qcltb (startTime n) startOffsetMs
      then scheduleNotes startOffsetMs l' scheduledNodes uiTimeouts
      else
        let startTimeSec := (startTime n - startOffsetMs) / (qz 1000 * playbackSpeed r) in
        let durationSec := duration n / (qz 1000 * playbackSpeed r) in
        let* uiTimeout := setTimeout (THighlight n) (startTimeSec * qz 1000) in
        scheduleNotes startOffsetMs l'
          (if isRest n then scheduledNodes
           else scheduledNodes ++ [scheduledNode n startTimeSec durationSec])
          (uiTimeouts ++ [uiTimeout])
  end.

(** [scheduleSong] *)
Definition scheduleSong (startOffsetMs : Qc) : Js unit :=
  match song r with
  | None => ret tt
  | Some sg =>
      let* ok := initializeAudio in
      if negb ok then ret tt
      else
        stopAllSounds ;;;
        let* plan := scheduleNotes startOffsetMs sg [] [] in
        modify (setScheduledNodesRef (fst plan)) ;;;
        modify (setScheduledUiCallbacksRef (snd plan)) ;;;
        match last sg with
        | Some lastNote =>
            let songDurationMs :=
              (startTime lastNote + duration lastNote - startOffsetMs) / playbackSpeed r in
            let* endTimeout := setTimeout TEndOfSong (songDurationMs + qz 100) in
            modify (fun s => setScheduledUiCallbacksRef
                               (scheduledUiCallbacksRef s ++ [endTimeout]) s)
        | None => modify (setAppState LOADED)
        end
  end.

(** The two [while] loops that step over rests: the first index at or
    after [i] that does not hold a rest. *)
Fixpoint skipRestsFrom (l : list SongNote) (i : nat) : nat :=
  match l with
  | [] => i
  | n :: l' => if isRest n then skipRestsFrom l' (S i) else i
  end.

Definition skipRests (sg : list SongNote) (i : nat) : nat :=
  skipRestsFrom (drop i sg) i.

(** [onNoteDown] *)
Definition onNoteDown (n : string) : Js unit :=
  initializeAudio ;;;
  match appState r, song r with
  | LEARNING, Some sg =>
      match sg !! learningNoteIndex r with
      | Some currentNoteToPlay =>
          if bool_decide (n = note currentNoteToPlay) then
            playNote n ;;;
            modify (setCorrectPressNote (Some n)) ;;;
            setTimeout TClearCorrect (qz 300) ;;;
            let nextIndex := skipRests sg (learningNoteIndex r + 1) in
            if bool_decide (length sg <= nextIndex)%nat then
              modify (setCompletionMessage
                        (Some "Congratulations! You've finished the song!")) ;;;
              setTimeout TCompletion (qz 2000) ;;;
              ret tt
            else modify (setLearningNoteIndex nextIndex)
          else
            modify (setIncorrectPressNote (Some n)) ;;;
            setTimeout TClearIncorrect (qz 300) ;;;
            ret tt
      | None =>
          modify (setIncorrectPressNote (Some n)) ;;;
          setTimeout TClearIncorrect (qz 300) ;;;
          ret tt
      end
  | _, _ => playNote n
  end.

(** [onNoteUp] *)
Definition onNoteUp (n : string) : Js unit := stopNote n.

(** [resetPlayback] *)
Definition resetPlayback : Js unit :=
  stopAllSounds ;;;
  modify (setHighlightedNoteInfo (None, None)) ;;;
  modify (setPlaybackProgressRef 0) ;;;
  modify (setPlaybackProgress 0) ;;;
  if bool_decide (appState r = PLAYING) || bool_decide (appState r = PAUSED)
  then modify (setAppState LOADED)
  else ret tt.

(** [handlePlayPause] *)
Definition handlePlayPause : Js unit :=
  if bool_decide (appState r = PLAYING) then
    modify (fun s =>
              setPlaybackProgressRef
                (playbackProgressRef s
                 + (perfNow c - playbackStartTimeRef s) * playbackSpeed r) s) ;;;
    stopAllSounds ;;;
    modify (setAppState PAUSED)
  else
    modify (setPlaybackStartTimeRef (perfNow c)) ;;;
    let* offset := gets (fun s => if bool_decide (appState r = PAUSED)
                                  then playbackProgressRef s else 0) in
    scheduleSong offset ;;;
    modify (setAppState PLAYING).

(** [handleToggleLearning] *)
Definition handleToggleLearning : Js unit :=
  if bool_decide (appState r = LEARNING) then
    modify (setAppState LOADED) ;;;
    modify (setLearningNoteIndex 0) ;;;
    modify (setHighlightedNoteInfo (None, None))
  else
    match song r with
    | Some sg =>
        let* ok := initializeAudio in
        if negb ok then ret tt
        else
          resetPlayback ;;;
          modify (setCompletionMessage None) ;;;
          modify (setLearningNoteIndex (skipRests sg 0)) ;;;
          modify (setAppState LEARNING)
    | None => ret tt
    end.

(** [handleLoad], up to the [await]. The fields that only feed the
    layout ([activeGenerator], [practiceSummary]) are left out. *)
Definition handleLoad : Js unit :=
  modify (setAppState LOADING) ;;;
  modify (setSong None) ;;;
  modify (setErrorInfo None) ;;;
  resetPlayback ;;;
  modify (setCompletionMessage None).

End Run.

(** ** Callbacks run by the browser *)

(** The timeout callbacks. *)
Definition runTimer (a : TimerAction) : Js unit :=
  match a with
  | THighlight n =>
      modify (setHighlightedNoteInfo (Some (note n), Some (startTime n)))
  | TEndOfSong =>
      modify (setAppState LOADED) ;;;
      modify (setHighlightedNoteInfo (None, None)) ;;;
      modify (setPlaybackProgressRef 0) ;;;
      modify (setPlaybackProgress 0)
  | TClearCorrect => modify (setCorrectPressNote None)
  | TClearIncorrect => modify (setIncorrectPressNote None)
  | TCompletion =>
      modify (setAppState LOADED) ;;;
      modify (setLearningNoteIndex 0) ;;;
      modify (setCompletionMessage None)
  end.

Fixpoint findTimer (id : nat) (l : list Timer) : option Timer :=
  match l with
  | [] => None
  | t :: l' => if bool_decide (timer_id t = id) then Some t else findTimer id l'
  end.

(** A pending timeout comes due: it leaves the pending set and its
    callback runs. A timeout that was cleared never fires. *)
Definition timerFires (id : nat) : Js unit :=
  let* pending := gets timers in
  match findTimer id pending with
  | Some t => clearTimeout id ;;; runTimer (timer_action t)
  | None => ret tt
  end.

(** The elapsed song time [animationLoop] derives from the refs. *)
Definition derivedElapsed (now : Qc) (s : State) : Qc :=
  playbackProgressRef s + (now - playbackStartTimeRef s) * playbackSpeedRef s.

(** [animationLoop], one frame *)
Definition animationLoop (c : Clock) : Js unit :=
  let* st := gets appStateRef in
  if bool_decide (st = PLAYING)
  then modify (fun s => setPlaybackProgress (derivedElapsed (perfNow c) s) s)
  else ret tt.

(** [oscillator.onended] as installed by [stopNote] *)
Definition oscillatorEnded (n : string) : Js unit :=
  modify (fun s => setManualNodesRef (mapDelete n (manualNodesRef s)) s).

(** What [await getSongNotes(...)] gives back to [handleLoad]. *)
Inductive GenOutcome :=
| Resolved (notes : option (list SongNote))
| Rejected.

Inductive LoadKind := KSong | KExercise.

Definition kindName (k : LoadKind) : string :=
  match k with KSong => "song" | KExercise => "exercise" end.

(** [handleLoad], after the [await] *)
Definition handleLoadSettled (k : LoadKind) (o : GenOutcome) : Js unit :=
  match o with
  | Resolved (Some notes) =>
      modify (setSong (Some notes)) ;;;
      modify (setAppState LOADED)
  | Resolved None =>
      modify (setErrorInfo
                (Some ("Generation Failed",
                       ("Could not generate the " ++ kindName k
                        ++ ". Please try a different prompt.")%string))) ;;;
      modify (setAppState ERROR)
  | Rejected =>
      modify (setErrorInfo
                (Some ("Configuration Error",
                       "The AI service is not set up correctly."))) ;;;
      modify (setAppState ERROR)
  end.

(** ** Effects *)

Section Effects.
Variable c : Clock.
Variable r : State.

(** The effect on [playbackSpeed, appState, scheduleSong]. Its two reads
    of [performance.now()] are one sample. *)
Definition speedChangeEffect : Js unit :=
  if bool_decide (appState r = PLAYING) then
    let* currentProgress :=
      gets (fun s => playbackProgressRef s
                     + (perfNow c - playbackStartTimeRef s) * playbackSpeed r) in
    modify (setPlaybackStartTimeRef (perfNow c)) ;;;
    modify (setPlaybackProgressRef currentProgress) ;;;
    scheduleSong c r currentProgress
  else ret tt.

(** The effect on [appState, learningNoteIndex, song, highlightedNoteInfo]. *)
Definition learningHighlightEffect : Js unit :=
  match appState r, song r with
  | LEARNING, Some sg =>
      match sg !! learningNoteIndex r with
      | Some currentNote =>
          modify (setHighlightedNoteInfo
                    (Some (note currentNote), Some (startTime currentNote)))
      | None => ret tt
      end
  | st, _ =>
      if bool_decide (st <> PLAYING) && bool_decide (st <> PAUSED)
         && bool_decide (st <> LEARNING)
      then
        if bool_decide (highlightedNoteInfo r <> (None, None))
        then modify (setHighlightedNoteInfo (None, None))
        else ret tt
      else ret tt
  end.
End Effects.

(** The dependency arrays. [scheduleSong] is rebuilt when [song] or
    [playbackSpeed] changes. *)
Definition speedDeps (s : State) : Qc * AppState * option (list SongNote) :=
  (playbackSpeed s, appState s, song s).

Definition highlightDeps (s : State)
  : AppState * nat * option (list SongNote) * (option string * option Qc) :=
  (appState s, learningNoteIndex s, song s, highlightedNoteInfo s).

(** The effects of one render [cur] that follows the render [prev], in
    the order of their declaration. An exception leaves the state where
    it was thrown. *)
Definition runEffects (c : Clock) (prev cur : State) : State :=
  let w := setAppStateRef (appState cur) cur in
  let w := setPlaybackSpeedRef (playbackSpeed cur) w in
  let w := if decide (speedDeps prev = speedDeps cur) then w
           else finalState (speedChangeEffect c cur w) in
  if decide (highlightDeps prev = highlightDeps cur) then w
  else finalState (learningHighlightEffect cur w).

(** Renders repeat while effects change a dependency. *)
Fixpoint commit (fuel : nat) (c : Clock) (prev cur : State) : State :=
  match fuel with
  | O => cur
  | S fuel' =>
      let next := runEffects c prev cur in
      if decide (speedDeps next = speedDeps cur /\ highlightDeps next = highlightDeps cur)
      then next
      else commit fuel' c cur next
  end.

Definition render (c : Clock) (prev cur : State) : State := commit 4 c prev cur.

(** ** Events *)

Inductive Event :=
| EvHandleLoad
| EvLoadSettled (k : LoadKind) (o : GenOutcome)
| EvPlayPause
| EvResetPlayback
| EvToggleLearning
| EvNoteDown (n : string)
| EvNoteUp (n : string)
| EvSetPlaybackSpeed (v : Qc)
| EvTimer (id : nat)
| EvOscillatorEnded (n : string)
| EvAnimationFrame
| EvDismissError.

(** The callback an event runs, on the render [s]. *)
Definition dispatch (c : Clock) (ev : Event) (s : State) : Completion unit :=
  match ev with
  | EvHandleLoad => handleLoad c s s
  | EvLoadSettled k o => handleLoadSettled k o s
  | EvPlayPause => handlePlayPause c s s
  | EvResetPlayback => resetPlayback c s s
  | EvToggleLearning => handleToggleLearning c s s
  | EvNoteDown n => onNoteDown c s n s
  | EvNoteUp n => onNoteUp c n s
  | EvSetPlaybackSpeed v => modify (setPlaybackSpeed v) s
  | EvTimer id => timerFires id s
  | EvOscillatorEnded n => oscillatorEnded n s
  | EvAnimationFrame => animationLoop c s
  | EvDismissError => modify (setErrorInfo None) s
  end.

(** An event at clock [c], then the render and its effects at [c']. *)
Definition transition (c c' : Clock) (ev : Event) (s : State) : State :=
  render c' s (finalState (dispatch c ev s)).

Fixpoint run (trace : list (Clock * Clock * Event)) (s : State) : State :=
  match trace with
  | [] => s
  | (c, c', ev) :: trace' => run trace' (transition c c' ev s)
  end.

(** ** The note-generation boundary ([getSongNotes], both versions) *)

#[local] Unset Elimination Schemes.
Inductive JSON :=
| JNull
| JBool (b : bool)
| JNumber (q : Qc)
| JString (s : string)
| JArray (l : list JSON)
| JObject (fields : list (string * JSON)).
#[local] Set Elimination Schemes.

(** What [generateContent] does: it resolves with a text, or something is
    thrown ([isError]: the thrown value is an [Error]). *)
Inductive GenResponse :=
| RespText (text : string)
| RespThrown (isError : bool) (message : string).

(** What [getSongNotes] does: it resolves with an array or [null], or
    rethrows. *)
Inductive ServiceResult :=
| Returned (notes : option (list JSON))
| Rethrown (message : string).

Fixpoint indexOfFrom (ch : ascii) (s : string) (i : nat) : option nat :=
  match s with
  | EmptyString => None
  | String a s' => if bool_decide (a = ch) then Some i else indexOfFrom ch s' (S i)
  end.

(** [s.indexOf(ch)], [None] for [-1] *)
Definition indexOf (ch : ascii) (s : string) : option nat := indexOfFrom ch s 0.

Fixpoint lastIndexOfFrom (ch : ascii) (s : string) (i : nat) (found : option nat)
  : option nat :=
  match s with
  | EmptyString => found
  | String a s' =>
      lastIndexOfFrom ch s' (S i) (if bool_decide (a = ch) then Some i else found)
  end.

(** [s.lastIndexOf(ch)], [None] for [-1] *)
Definition lastIndexOf (ch : ascii) (s : string) : option nat :=
  lastIndexOfFrom ch s 0 None.

(** [s.substring(a, b)]: both ends clamped to the length, swapped when
    out of order. *)
Definition jsSubstring (a b : nat) (s : string) : string :=
  let a' := Nat.min a (String.length s) in
  let b' := Nat.min b (String.length s) in
  String.substring (Nat.min a' b') (Nat.max a' b' - Nat.min a' b') s.

(** [k in v]: [None] is the [TypeError] on a value that is not an object. *)
Definition jsIn (k : string) (v : JSON) : option bool :=
  match v with
  | JObject fields => Some (bool_decide (is_Some (assoc k fields)))
  | JArray _ => Some false
  | _ => None
  end.

(** The predicate of [notes.every] in the first version. *)
Definition isValidStructure (n : JSON) : bool :=
  match n with
  | JObject fields =>
      match assoc "note" fields, assoc "duration" fields, assoc "startTime" fields with
      | Some (JString _), Some (JNumber _), Some (JNumber _) => true
      | _, _, _ => false
      end
  | _ => false
  end.

(** The predicate of [notes.every] in the second version. *)
Definition hasNoteKeys (n : JSON) : bool :=
  match n with
  | JObject fields =>
      bool_decide (is_Some (assoc "note" fields))
      && bool_decide (is_Some (assoc "duration" fields))
      && bool_decide (is_Some (assoc "startTime" fields))
  | _ => false
  end.

(** The library functions the service calls, and the run-time reading of
    the cast [notes as SongNote[]] by the component. *)
Record Builtins := MkBuiltins {
  JSON_parse : string -> option JSON;      (* [None]: a SyntaxError *)
  trim : string -> string;
  isConfigError : string -> bool;          (* /api key|authentication|.../i *)
  fencedJson : string -> option string;    (* group 1 of the json fence *)
  asSongNote : JSON -> SongNote
}.

Section Service.
Variable B : Builtins.

(** [getSongNotes], first version of the service file *)
Definition getSongNotes1 (resp : GenResponse) : ServiceResult :=
  match resp with
  | RespThrown isError message =>
      if isError && isConfigError B message then Rethrown message
      else Returned None
  | RespText text =>
      let responseText := trim B text in
      if bool_decide (responseText = "") then Returned None
      else
        match indexOf "["%char responseText, lastIndexOf "]"%char responseText with
        | Some startIndex, Some endIndex =>
            if bool_decide (endIndex < startIndex)%nat then Returned None
            else
              let jsonString := jsSubstring startIndex (endIndex + 1) responseText in
              match JSON_parse B jsonString with
              | Some (JArray notes) =>
                  if bool_decide (length notes = 0)%nat then Returned None
                  else if forallb isValidStructure notes
                       then Returned (Some notes)
                       else Returned None
              | Some _ => Returned None
              | None => Returned None
              end
        | _, _ => Returned None
        end
  end.

(** The part of the second version after the direct parse gave up. *)
Definition extractNotes (text : string) : ServiceResult :=
  let jsonString :=
    match fencedJson B text with
    | Some inner => if bool_decide (inner = "") then text else inner
    | None => text
    end in
  match indexOf "["%char jsonString, lastIndexOf "]"%char jsonString with
  | Some startIndex, Some endIndex =>
      match JSON_parse B (jsSubstring startIndex (endIndex + 1) jsonString) with
      | Some (JArray notes) =>
          if bool_decide (0 < length notes)%nat && forallb hasNoteKeys notes
          then Returned (Some notes)
          else Returned None
      | Some _ => Returned None
      | None => Returned None
      end
  | _, _ => Returned None
  end.

(** [getSongNotes], second version of the service file *)
Definition getSongNotes2 (resp : GenResponse) : ServiceResult :=
  match resp with
  | RespThrown _ _ => Returned None
  | RespText text =>
      let jsonString := trim B text in
      match JSON_parse B jsonString with
      | Some (JArray (first :: rest)) =>
          match jsIn "note" first with
          | Some true => Returned (Some (first :: rest))
          | _ => extractNotes jsonString
          end
      | _ => extractNotes jsonString
      end
  end.

(** What [handleLoad] receives from the [await]. *)
Definition toOutcome (res : ServiceResult) : GenOutcome :=
  match res with
  | Returned (Some notes) => Resolved (Some (map (asSongNote B) notes))
  | Returned None => Resolved None
  | Rethrown _ => Rejected
  end.

Definition fromService (o : GenOutcome) : Prop :=
  exists resp, o = toOutcome (getSongNotes1 resp) \/ o = toOutcome (getSongNotes2 resp).

(** ** Reachable states *)

Definition admissible (ev : Event) : Prop :=
  match ev with
  | EvLoadSettled _ o => fromService o
  | _ => True
  end.

Inductive reachable : State -> Prop :=
| reach_mount (w : option AudioContext) : reachable (initialState w)
| reach_step (c c' : Clock) (ev : Event) (s : State) :
    reachable s -> admissible ev -> reachable (transition c c' ev s).
End Service.

(** ** Pure readings of the loops *)

(** The pending timeouts left after [ids.forEach(clearTimeout)]. *)
Fixpoint cancelAll (ids : list nat) (l : list Timer) : list Timer :=
  match ids with
  | [] => l
  | id :: ids' => cancelAll ids' (filter (fun t => timer_id t <> id) l)
  end.

(** The state [stopAllSounds] leaves when no [stop] is rejected. *)
Definition teardown (s : State) : State :=
  setActiveNotes ∅
    (setManualNodesRef []
       (setScheduledUiCallbacksRef []
          (setTimers (cancelAll (scheduledUiCallbacksRef s) (timers s))
             (setScheduledNodesRef [] s)))).

(** No manual note is in its release tail (released by [stopNote] and
    not yet ended). *)
Definition noPendingRelease (s : State) : bool :=
  forallb (fun e => bool_decide (osc_stop (snd e) = None)) (manualNodesRef s).

(** The context the next [initializeAudio] leaves in the ref rejects a
    second stop. *)
Definition strictInForce (s : State) : bool :=
  match audioContextRef s with
  | Some ctx => ctx_strictStop ctx
  | None =>
      match windowAudioContext s with
      | Some ctx => ctx_strictStop ctx
      | None => false
      end
  end.

Definition teardownSafe (s : State) : bool :=
  negb (strictInForce s) || noPendingRelease s.

Definition audioAvailable (s : State) : bool :=
  bool_decide (is_Some (audioContextRef s)) || bool_decide (is_Some (windowAudioContext s)).

(** The state a successful [initializeAudio] leaves. *)
Definition audioReady (s : State) : State :=
  match audioContextRef s with
  | Some ctx =>
      if ctx_suspended ctx
      then setAudioContextRef (Some (MkAudioContext (ctx_strictStop ctx) false)) s
      else s
  | None =>
      match windowAudioContext s with
      | Some ctx =>
          setAudioContextRef
            (Some (if ctx_suspended ctx
                   then MkAudioContext (ctx_strictStop ctx) false else ctx)) s
      | None => s
      end
  end.

Section Plan.
Variable anchor : Qc.          (* [audioContext.currentTime] at the build *)
Variable speed : Qc.
Variable startOffsetMs : Qc.

Definition highlightDelay (n : SongNote) : Qc :=
  (startTime n - startOffsetMs) / (qz 1000 * speed) * qz 1000.

(** The highlight timeouts [scheduleSong] arms, in order. *)
Fixpoint highlightPlan (l : list SongNote) : list (Qc * TimerAction) :=
  match l with
  | [] => []
  | n :: l' =>
      if Qcltb (startTime n) startOffsetMs then highlightPlan l'
      else (highlightDelay n, THighlight n) :: highlightPlan l'
  end.

Definition toneSource (n : SongNote) : AudioNodes :=
  let startTimeSec := (startTime n - startOffsetMs) / (qz 1000 * speed) in
  let durationSec := duration n / (qz 1000 * speed) in
  let t0 := anchor + startTimeSec in
  MkAudioNodes (frequencyOf (note n)) t0 (Some (t0 + durationSec)) false
    [SetValueAtTime 0 t0;
     LinearRampToValueAtTime (qfrac 1 2) (t0 + qfrac 1 100);
     SetValueAtTime (qfrac 1 2) (t0 + durationSec - qfrac 5 100);
     LinearRampToValueAtTime 0 (t0 + durationSec)].

(** The tone sources [scheduleSong] allocates, in order. *)
Fixpoint tonePlan (l : list SongNote) : list AudioNodes :=
  match l with
  | [] => []
  | n :: l' =>
      if Qcltb (startTime n) startOffsetMs then tonePlan l'
      else if isRest n then tonePlan l'
           else toneSource n :: tonePlan l'
  end.

Definition endDelay (lastNote : SongNote) : Qc :=
  (startTime lastNote + duration lastNote - startOffsetMs) / speed + qz 100.

(** Every timeout of a plan: the highlights, then the end of the song. *)
Definition timerPlan (sg : list SongNote) : list (Qc * TimerAction) :=
  highlightPlan sg
  ++ match last sg with
     | Some lastNote => [(endDelay lastNote, TEndOfSong)]
     | None => []
     end.
End Plan.

(** Timeouts armed one after the other get consecutive ids. *)
Fixpoint armTimers (base : nat) (plan : list (Qc * TimerAction)) : list Timer :=
  match plan with
  | [] => []
  | p :: plan' => MkTimer base (fst p) (snd p) :: armTimers (S base) plan'
  end.

(** The state [scheduleSong] builds on a torn-down state [w]. *)
Definition scheduled (c : Clock) (r : State) (startOffsetMs : Qc)
    (sg : list SongNote) (w : State) : State :=
  let plan := timerPlan (playbackSpeed r) startOffsetMs sg in
  let w' :=
    setScheduledUiCallbacksRef (seq (nextTimerId w) (length plan))
      (setScheduledNodesRef (tonePlan (audioNow c) (playbackSpeed r) startOffsetMs sg)
         (setNextTimerId (nextTimerId w + length plan)
            (setTimers (timers w ++ armTimers (nextTimerId w) plan) w))) in
  match last sg with
  | Some _ => w'
  | None => setAppState LOADED w'
  end.

(** The plan a state holds: the delays and callbacks of the pending
    timeouts listed in the callbacks ref, and the scheduled nodes. *)
Definition planTimers (s : State) : list (Qc * TimerAction) :=
  map (fun t => (timer_delay t, timer_action t))
    (List.filter (fun t => existsb (Nat.eqb (timer_id t)) (scheduledUiCallbacksRef s))
       (timers s)).

Definition timersFresh (s : State) : bool :=
  forallb (fun t => timer_id t <? nextTimerId s)%nat (timers s).

(** ** Lemmas on the loops *)

Lemma forEach_stopScheduledNode c nodes s :
  forEach nodes (stopScheduledNode c) s = Normal tt s.
Proof.
  induction nodes as [|n nodes IH]; [reflexivity|].
  cbn [forEach]. unfold bind at 1.
  assert (stopScheduledNode c n s = Normal tt s) as ->; [|exact IH].
  unfold stopScheduledNode, tryIgnore, bind, gets.
  destruct (audioContextRef s) as [ctx|]; [|reflexivity].
  destruct (snd (fadeAndStop ctx (audioNow c) n)); reflexivity.
Qed.

Lemma forEach_clearTimeout ids s :
  forEach ids clearTimeout s = Normal tt (setTimers (cancelAll ids (timers s)) s).
Proof.
  revert s. induction ids as [|id ids IH]; intros s; [by destruct s|].
  cbn [forEach cancelAll]. unfold bind at 1. unfold clearTimeout at 1, modify.
  rewrite IH. reflexivity.
Qed.

Lemma fadeAndStop_accepted ctx now n :
  ctx_strictStop ctx = false \/ osc_stop n = None ->
  snd (fadeAndStop ctx now n) = true.
Proof.
  intros H. unfold fadeAndStop, oscillatorStop. cbn.
  destruct (osc_stop n); [|reflexivity].
  destruct H as [->|H]; [reflexivity|discriminate].
Qed.

Lemma forEach_stopManualNode c l s :
  (forall ctx, audioContextRef s = Some ctx ->
     ctx_strictStop ctx = false \/ Forall (fun e => osc_stop (snd e) = None) l) ->
  exists L, forEach l (stopManualNode c) s = Normal tt (setManualNodesRef L s).
Proof.
  revert s. induction l as [|e l IH]; intros s H.
  - exists (manualNodesRef s). by destruct s.
  - cbn [forEach]. unfold bind at 1. unfold stopManualNode at 1, bind, gets, modify.
    destruct (audioContextRef s) as [ctx|] eqn:E.
    + rewrite fadeAndStop_accepted.
      2:{ destruct (H ctx eq_refl) as [?|HF]; [by left|right].
          by apply Forall_cons_1 in HF as [? _]. }
      unfold ret.
      edestruct (IH (setManualNodesRef
                       (mapReplace (fst e) (fst (fadeAndStop ctx (audioNow c) (snd e)))
                          (manualNodesRef s)) s)) as [L HL].
      { cbn. rewrite E. intros ctx' [= <-].
        destruct (H ctx eq_refl) as [?|HF]; [by left|right].
        by apply Forall_cons_1 in HF as [_ ?]. }
      exists L. rewrite HL. reflexivity.
    + unfold ret. destruct (IH s) as [L HL].
      { rewrite E. intros ? [=]. }
      exists L. exact HL.
Qed.

(** [stopAllSounds] may stop: the context in the ref accepts every stop
    of the manual loop. *)
Definition stopSafe (s : State) : bool :=
  match audioContextRef s with
  | Some ctx => negb (ctx_strictStop ctx) || noPendingRelease s
  | None => true
  end.

Lemma stopAllSounds_teardown c s :
  stopSafe s = true -> stopAllSounds c s = Normal tt (teardown s).
Proof.
  intros H. unfold stopAllSounds.
  unfold bind at 1. unfold gets at 1.
  unfold bind at 1. rewrite forEach_stopScheduledNode.
  unfold bind at 1. unfold modify at 1.
  unfold bind at 1. unfold gets at 1.
  unfold bind at 1. rewrite forEach_clearTimeout.
  unfold bind at 1. unfold modify at 1.
  unfold bind at 1. unfold gets at 1.
  unfold bind at 1.
  edestruct (forEach_stopManualNode c) as [L ->].
  2:{ reflexivity. }
  cbn. intros ctx Hctx. unfold stopSafe in H. rewrite Hctx in H.
  apply orb_true_iff in H as [H|H].
  - left. by destruct (ctx_strictStop ctx).
  - right. unfold noPendingRelease in H. rewrite forallb_forall in H.
    apply Forall_forall. intros e He. apply list_elem_of_In in He.
    apply H in He. by apply bool_decide_eq_true in He.
Qed.

Lemma initializeAudio_available s :
  audioAvailable s = true -> initializeAudio s = Normal true (audioReady s).
Proof.
  unfold audioAvailable, initializeAudio, audioReady. intros H.
  destruct (audioContextRef s) as [ctx|]; [reflexivity|].
  destruct (windowAudioContext s) as [ctx|]; [reflexivity|].
  cbn in H. discriminate.
Qed.

Lemma initializeAudio_unavailable s :
  audioAvailable s = false ->
  initializeAudio s =
  Normal false
    (setErrorInfo
       (Some ("Audio Error", "Web Audio API is not supported in this browser.")) s).
Proof.
  unfold audioAvailable, initializeAudio. intros H.
  destruct (audioContextRef s) as [ctx|]; [cbn in H; discriminate|].
  destruct (windowAudioContext s) as [ctx|]; [cbn in H; discriminate|].
  reflexivity.
Qed.

Lemma scheduleNotes_spec c r off l : forall nodes uis s,
  scheduleNotes c r off l nodes uis s =
  Normal (nodes ++ tonePlan (audioNow c) (playbackSpeed r) off l,
          uis ++ seq (nextTimerId s) (length (highlightPlan (playbackSpeed r) off l)))
    (setNextTimerId (nextTimerId s + length (highlightPlan (playbackSpeed r) off l))
       (setTimers (timers s ++ armTimers (nextTimerId s)
                                 (highlightPlan (playbackSpeed r) off l)) s)).
Proof.
  induction l as [|n l IH]; intros nodes uis s.
  - cbn. rewrite !app_nil_r, Nat.add_0_r. by destruct s.
  - cbn [scheduleNotes tonePlan highlightPlan].
    destruct (Qcltb (startTime n) off); [apply IH|].
    unfold bind, setTimeout. rewrite IH. cbn [length armTimers seq fst snd].
    f_equal.
    + f_equal.
      * destruct (isRest n); [reflexivity|]. by rewrite <- app_assoc.
      * by rewrite <- app_assoc.
    + destruct s; cbn. rewrite <- app_assoc, Nat.add_succ_r. reflexivity.
Qed.

Lemma armTimers_app base p1 p2 :
  armTimers base (p1 ++ p2) = armTimers base p1 ++ armTimers (base + length p1) p2.
Proof.
  revert base. induction p1 as [|p p1 IH]; intros base; cbn.
  - by rewrite Nat.add_0_r.
  - by rewrite IH, Nat.add_succ_r.
Qed.

Lemma state_ext (s s' : State) :
  appState s = appState s' -> song s = song s' ->
  highlightedNoteInfo s = highlightedNoteInfo s' -> activeNotes s = activeNotes s' ->
  errorInfo s = errorInfo s' -> playbackSpeed s = playbackSpeed s' ->
  learningNoteIndex s = learningNoteIndex s' -> correctPressNote s = correctPressNote s' ->
  incorrectPressNote s = incorrectPressNote s' ->
  completionMessage s = completionMessage s' -> playbackProgress s = playbackProgress s' ->
  audioContextRef s = audioContextRef s' -> manualNodesRef s = manualNodesRef s' ->
  scheduledNodesRef s = scheduledNodesRef s' ->
  scheduledUiCallbacksRef s = scheduledUiCallbacksRef s' ->
  playbackStartTimeRef s = playbackStartTimeRef s' ->
  playbackProgressRef s = playbackProgressRef s' -> appStateRef s = appStateRef s' ->
  playbackSpeedRef s = playbackSpeedRef s' ->
  windowAudioContext s = windowAudioContext s' -> timers s = timers s' ->
  nextTimerId s = nextTimerId s' -> s = s'.
Proof. destruct s, s'; cbn; intros; subst; reflexivity. Qed.

(** Projections of nested setters, one layer at a time. *)
Ltac proj_simpl :=
  cbn [appState song highlightedNoteInfo activeNotes errorInfo playbackSpeed
       learningNoteIndex correctPressNote incorrectPressNote completionMessage
       playbackProgress audioContextRef manualNodesRef scheduledNodesRef
       scheduledUiCallbacksRef playbackStartTimeRef playbackProgressRef appStateRef
       playbackSpeedRef windowAudioContext timers nextTimerId
       setAppState setSong setHighlightedNoteInfo setActiveNotes setErrorInfo
       setPlaybackSpeed setLearningNoteIndex setCorrectPressNote setIncorrectPressNote
       setCompletionMessage setPlaybackProgress setAudioContextRef setManualNodesRef
       setScheduledNodesRef setScheduledUiCallbacksRef setPlaybackStartTimeRef
       setPlaybackProgressRef setAppStateRef setPlaybackSpeedRef setTimers
       setNextTimerId] in *.

Ltac state_eq := apply state_ext; proj_simpl; try reflexivity.

Lemma scheduleSong_spec c r off sg w :
  song r = Some sg ->
  audioAvailable w = true ->
  stopSafe (audioReady w) = true ->
  scheduleSong c r off w =
  Normal tt (scheduled c r off sg (teardown (audioReady w))).
Proof.
  intros Hsong Hav Hsafe. unfold scheduleSong. rewrite Hsong.
  unfold bind at 1. rewrite (initializeAudio_available _ Hav). cbn [negb].
  unfold bind at 1. rewrite (stopAllSounds_teardown _ _ Hsafe).
  unfold bind at 1. rewrite scheduleNotes_spec. cbn [fst snd app].
  unfold scheduled, timerPlan, bind, modify, setTimeout.
  set (t := teardown (audioReady w)).
  destruct (last sg) as [lastNote|].
  - rewrite armTimers_app, length_app, seq_app. cbn [length armTimers seq fst snd].
    unfold endDelay. f_equal. state_eq; [by rewrite <- app_assoc|lia].
  - rewrite !app_nil_r. reflexivity.
Qed.

(** ** Frame reasoning

    [keeps R m]: whatever way [m] completes, the state it leaves is
    [R]-related to the state it started from. *)

Definition keeps {A} (R : relation State) (m : Js A) : Prop :=
  forall s, R s (finalState (m s)).

Section Keeps.
Context (R : relation State) `{!PreOrder R}.

Lemma keeps_ret {A} (a : A) : keeps R (ret a).
Proof. intros s. reflexivity. Qed.

Lemma keeps_throw {A} : keeps R (@throw A).
Proof. intros s. reflexivity. Qed.

Lemma keeps_gets {A} (f : State -> A) : keeps R (gets f).
Proof. intros s. reflexivity. Qed.

Lemma keeps_modify (f : State -> State) :
  (forall s, R s (f s)) -> keeps R (modify f).
Proof. intros H s. apply H. Qed.

Lemma keeps_bind {A B} (m : Js A) (k : A -> Js B) :
  keeps R m -> (forall a, keeps R (k a)) -> keeps R (bind m k).
Proof.
  intros Hm Hk s. unfold bind. specialize (Hm s).
  destruct (m s) as [a s'|s']; cbn in *; [|exact Hm].
  etransitivity; [exact Hm|apply Hk].
Qed.

Lemma keeps_tryIgnore (m : Js unit) : keeps R m -> keeps R (tryIgnore m).
Proof.
  intros Hm s. unfold tryIgnore. specialize (Hm s).
  destruct (m s); exact Hm.
Qed.

Lemma keeps_forEach {A} (l : list A) (body : A -> Js unit) :
  (forall x, keeps R (body x)) -> keeps R (forEach l body).
Proof.
  intros H. induction l as [|x l IH]; cbn [forEach].
  - apply keeps_ret.
  - apply keeps_bind; [apply H|intros _; exact IH].
Qed.
End Keeps.

(** Walk through a computation; [leaf] closes what is left at its calls
    and writes. *)
Ltac keeps_walk leaf :=
  repeat match goal with
    | |- PreOrder _ => apply _
    | |- keeps _ (ret _) => apply keeps_ret
    | |- keeps _ throw => apply keeps_throw
    | |- keeps _ (gets _) => apply keeps_gets
    | |- keeps _ (tryIgnore _) => apply keeps_tryIgnore
    | |- keeps _ (forEach _ _) => apply keeps_forEach; [..|intros ?]
    | |- keeps _ (bind _ _) => apply keeps_bind; [..| |intros ?]
    | |- keeps _ (modify _) => apply keeps_modify; intros ?; leaf
    | |- keeps _ (match ?x with _ => _ end) => destruct x
    | |- keeps _ _ => progress cbv zeta
    | |- _ => leaf
    end.

(** The library of the component changes neither the song, nor the
    cursor, and the transport state only by leaving it or moving it away
    from learning. *)
Definition calm : relation State :=
  fun s s' =>
    song s' = song s /\ learningNoteIndex s' = learningNoteIndex s
    /\ (appState s' = appState s \/ appState s' <> LEARNING).

#[global] Instance calm_preorder : PreOrder calm.
Proof.
  split.
  - intros s. unfold calm. auto.
  - intros s1 s2 s3 (H1 & H2 & H3) (H4 & H5 & H6). unfold calm.
    repeat split; [congruence|congruence|].
    destruct H6 as [H6|H6]; [|by right]. rewrite H6. exact H3.
Qed.

(** The clock refs are only written by the transport callbacks. *)
Definition sameAnchor : relation State :=
  fun s s' =>
    playbackProgressRef s' = playbackProgressRef s
    /\ playbackStartTimeRef s' = playbackStartTimeRef s
    /\ playbackSpeed s' = playbackSpeed s
    /\ playbackSpeedRef s' = playbackSpeedRef s.

#[global] Instance sameAnchor_preorder : PreOrder sameAnchor.
Proof.
  split.
  - intros s. unfold sameAnchor. auto.
  - intros s1 s2 s3 (?&?&?&?) (?&?&?&?). unfold sameAnchor.
    repeat split; congruence.
Qed.

Section Library.
Context (R : relation State) `{!PreOrder R}.
(** [R] is untouched by the writes of the library. *)
Hypothesis R_audio : forall v s, R s (setAudioContextRef v s).
Hypothesis R_error : forall v s, R s (setErrorInfo v s).
Hypothesis R_manual : forall v s, R s (setManualNodesRef v s).
Hypothesis R_nodes : forall v s, R s (setScheduledNodesRef v s).
Hypothesis R_callbacks : forall v s, R s (setScheduledUiCallbacksRef v s).
Hypothesis R_active : forall v s, R s (setActiveNotes v s).
Hypothesis R_timers : forall v s, R s (setTimers v s).
Hypothesis R_nextId : forall v s, R s (setNextTimerId v s).
Hypothesis R_loaded : forall s, R s (setAppState LOADED s).

Lemma keeps_initializeAudio : keeps R initializeAudio.
Proof.
  intros s. unfold initializeAudio.
  destruct (audioContextRef s) as [ctx|].
  - cbn. destruct (ctx_suspended ctx); [apply R_audio|reflexivity].
  - destruct (windowAudioContext s); cbn; [apply R_audio|apply R_error].
Qed.

Lemma keeps_setTimeout a d : keeps R (setTimeout a d).
Proof.
  intros s. unfold setTimeout. cbn.
  etransitivity; [apply R_timers|apply R_nextId].
Qed.

Lemma keeps_clearTimeout id : keeps R (clearTimeout id).
Proof. apply keeps_modify. intros s. apply R_timers. Qed.

Lemma keeps_stopAllSounds c : keeps R (stopAllSounds c).
Proof.
  unfold stopAllSounds, stopScheduledNode, stopManualNode.
  keeps_walk ltac:(solve [auto | apply keeps_clearTimeout]).
Qed.

Lemma keeps_playNote c n : keeps R (playNote c n).
Proof.
  unfold playNote. keeps_walk ltac:(solve [auto | apply keeps_initializeAudio]).
Qed.

Lemma keeps_stopNote c n : keeps R (stopNote c n).
Proof. unfold stopNote. keeps_walk ltac:(solve [auto]). Qed.

Lemma keeps_scheduleNotes c r off l : forall nodes uis,
  keeps R (scheduleNotes c r off l nodes uis).
Proof.
  induction l as [|n l IH]; intros nodes uis; cbn [scheduleNotes].
  - by apply keeps_ret.
  - destruct (Qcltb _ _); [apply IH|]. cbv zeta.
    apply keeps_bind; [done|apply keeps_setTimeout|intros id]. apply IH.
Qed.

Lemma keeps_scheduleSong c r off : keeps R (scheduleSong c r off).
Proof.
  unfold scheduleSong.
  keeps_walk ltac:(solve [auto | apply keeps_initializeAudio | apply keeps_stopAllSounds
                         | apply keeps_scheduleNotes | apply keeps_setTimeout]).
Qed.
End Library.

(** ** Invariants of the reachable states *)

(** A loaded song has at least one note. *)
Definition songNonEmpty (s : State) : Prop :=
  forall sg, song s = Some sg -> sg <> [].

(** While learning, the cursor is not on a rest. *)
Definition cursorOffRests (s : State) : Prop :=
  appState s = LEARNING ->
  exists sg, song s = Some sg
             /\ forall n, sg !! learningNoteIndex s = Some n -> isRest n = false.

Ltac calm_side := intros; unfold calm; proj_simpl; auto.

Lemma calm_songNonEmpty s s' : calm s s' -> songNonEmpty s -> songNonEmpty s'.
Proof. intros (H & _) Hs sg. rewrite H. apply Hs. Qed.

Lemma calm_cursorOffRests s s' : calm s s' -> cursorOffRests s -> cursorOffRests s'.
Proof.
  intros (Hsong & Hidx & Hst) Hs Hl. rewrite Hsong, Hidx.
  destruct Hst as [Hst|Hst]; [|done]. apply Hs. congruence.
Qed.

Lemma skipRestsFrom_lookup l : forall i pre n,
  length pre = i ->
  (pre ++ l) !! skipRestsFrom l i = Some n -> isRest n = false.
Proof.
  induction l as [|m l IH]; intros i pre n Hlen H; cbn [skipRestsFrom] in H.
  - rewrite app_nil_r in H. apply lookup_lt_Some in H. lia.
  - destruct (isRest m) eqn:Hm.
    + apply (IH (S i) (pre ++ [m])).
      * rewrite length_app. cbn. lia.
      * by rewrite <- app_assoc.
    + rewrite lookup_app_r in H by lia.
      replace (i - length pre)%nat with 0%nat in H by lia.
      cbn in H. congruence.
Qed.

Lemma skipRests_lookup sg i n :
  sg !! skipRests sg i = Some n -> isRest n = false.
Proof.
  unfold skipRests. intros H.
  destruct (decide (i <= length sg)%nat) as [Hi|Hi].
  - apply (skipRestsFrom_lookup (drop i sg) i (take i sg) n).
    + rewrite length_take. lia.
    + by rewrite take_drop.
  - rewrite drop_ge in H by lia. cbn in H.
    apply lookup_lt_Some in H. lia.
Qed.

Ltac calm_lib := first [apply _ | calm_side; intuition congruence].

Lemma keeps_calm_initializeAudio : keeps calm initializeAudio.
Proof. apply keeps_initializeAudio; calm_lib. Qed.

Lemma keeps_calm_setTimeout a d : keeps calm (setTimeout a d).
Proof. apply keeps_setTimeout; calm_lib. Qed.

Lemma keeps_calm_stopAllSounds c : keeps calm (stopAllSounds c).
Proof. apply keeps_stopAllSounds; calm_lib. Qed.

Lemma keeps_calm_playNote c n : keeps calm (playNote c n).
Proof. apply keeps_playNote; calm_lib. Qed.

Lemma keeps_calm_stopNote c n : keeps calm (stopNote c n).
Proof. apply keeps_stopNote; calm_lib. Qed.

Lemma keeps_calm_scheduleSong c r off : keeps calm (scheduleSong c r off).
Proof. apply keeps_scheduleSong; calm_lib. Qed.

Ltac calm_leaf :=
  first [ apply keeps_calm_initializeAudio | apply keeps_calm_setTimeout
        | apply keeps_calm_stopAllSounds | apply keeps_calm_playNote
        | apply keeps_calm_stopNote | apply keeps_calm_scheduleSong
        | solve [calm_side; intuition congruence] ].

Lemma keeps_calm_resetPlayback c r : keeps calm (resetPlayback c r).
Proof. unfold resetPlayback. keeps_walk calm_leaf. Qed.

Lemma keeps_calm_handlePlayPause c r : keeps calm (handlePlayPause c r).
Proof. unfold handlePlayPause. keeps_walk calm_leaf. Qed.

Lemma keeps_calm_speedChangeEffect c r : keeps calm (speedChangeEffect c r).
Proof. unfold speedChangeEffect. keeps_walk calm_leaf. Qed.

Lemma keeps_calm_learningHighlightEffect r : keeps calm (learningHighlightEffect r).
Proof. unfold learningHighlightEffect. keeps_walk calm_leaf. Qed.

Lemma calm_runEffects c prev cur : calm cur (runEffects c prev cur).
Proof.
  unfold runEffects. cbv zeta.
  assert (calm cur (setPlaybackSpeedRef (playbackSpeed cur)
                      (setAppStateRef (appState cur) cur))) as H0 by calm_side.
  set (w0 := setPlaybackSpeedRef _ _) in *.
  assert (calm cur (if decide (speedDeps prev = speedDeps cur) then w0
                    else finalState (speedChangeEffect c cur w0))) as H1.
  { destruct (decide _); [exact H0|].
    etransitivity; [exact H0|apply keeps_calm_speedChangeEffect]. }
  destruct (decide (highlightDeps prev = highlightDeps cur)); [exact H1|].
  etransitivity; [exact H1|apply keeps_calm_learningHighlightEffect].
Qed.

Lemma calm_commit fuel c : forall prev cur, calm cur (commit fuel c prev cur).
Proof.
  induction fuel as [|fuel IH]; intros prev cur; cbn [commit]; [reflexivity|].
  destruct (decide _); [apply calm_runEffects|].
  etransitivity; [apply calm_runEffects|apply IH].
Qed.

Lemma calm_render c prev cur : calm cur (render c prev cur).
Proof. apply calm_commit. Qed.

(** ** The service never resolves with an empty array *)

Lemma getSongNotes1_some B resp notes :
  getSongNotes1 B resp = Returned (Some notes) -> notes <> [].
Proof.
  unfold getSongNotes1. intros H.
  repeat (case_match; try discriminate).
  injection H as <-. intros ->. cbn in *. by case_bool_decide.
Qed.

Lemma extractNotes_some B text notes :
  extractNotes B text = Returned (Some notes) -> notes <> [].
Proof.
  unfold extractNotes. intros H.
  repeat (case_match; try discriminate);
    injection H as <-; intros ->; cbn in *; discriminate.
Qed.

Lemma getSongNotes2_some B resp notes :
  getSongNotes2 B resp = Returned (Some notes) -> notes <> [].
Proof.
  unfold getSongNotes2. intros H.
  repeat (case_match; try discriminate);
    try (by eapply extractNotes_some).
  by injection H as <-.
Qed.

Lemma fromService_nonempty B notes :
  fromService B (Resolved (Some notes)) -> notes <> [].
Proof.
  intros [resp [H|H]]; unfold toOutcome in H.
  - destruct (getSongNotes1 B resp) as [[l|]|] eqn:E; try discriminate.
    injection H as ->. apply getSongNotes1_some in E.
    destruct l; [done|discriminate].
  - destruct (getSongNotes2 B resp) as [[l|]|] eqn:E; try discriminate.
    injection H as ->. apply getSongNotes2_some in E.
    destruct l; [done|discriminate].
Qed.

(** ** Every event keeps the invariants *)

Definition invariant (s : State) : Prop := songNonEmpty s /\ cursorOffRests s.

Lemma calm_invariant s s' : calm s s' -> invariant s -> invariant s'.
Proof.
  intros H [H1 H2]. split;
    [by eapply calm_songNonEmpty|by eapply calm_cursorOffRests].
Qed.

(** Run the first callee of a sequence: it throws, or the rest runs. *)
Lemma bind_final {A B} (m : Js A) (k : A -> Js B) s :
  (exists s', m s = Thrown s' /\ finalState (bind m k s) = s')
  \/ (exists a s', m s = Normal a s' /\ finalState (bind m k s) = finalState (k a s')).
Proof.
  unfold bind. destruct (m s) as [a s'|s']; [right|left]; eauto.
Qed.

Lemma invariant_handleLoad c s :
  invariant s -> invariant (finalState (handleLoad c s s)).
Proof.
  intros _. unfold handleLoad.
  change (invariant (finalState
    ((modify (setErrorInfo None) ;;; resetPlayback c s ;;;
      modify (setCompletionMessage None)) (setSong None (setAppState LOADING s))))).
  set (s0 := setSong None (setAppState LOADING s)).
  assert (calm s0 (finalState
    ((modify (setErrorInfo None) ;;; resetPlayback c s ;;;
      modify (setCompletionMessage None)) s0))) as (Hsong & _ & Hst).
  { apply keeps_bind; [apply _|apply keeps_modify; calm_side|intros _].
    apply keeps_bind; [apply _|apply keeps_calm_resetPlayback|intros _].
    apply keeps_modify; calm_side. }
  split.
  - intros sg. rewrite Hsong. discriminate.
  - intros Hl. destruct Hst as [Hst|Hst]; [|done].
    rewrite Hl in Hst. discriminate.
Qed.

Lemma invariant_handleLoadSettled B k o s :
  fromService B o -> invariant s ->
  invariant (finalState (handleLoadSettled k o s)).
Proof.
  intros Ho [H1 H2]. destruct o as [[notes|]|]; cbn.
  - split.
    + intros sg [= <-]. by eapply fromService_nonempty.
    + intros [=].
  - split; [exact H1|intros [=]].
  - split; [exact H1|intros [=]].
Qed.

(** A callee that keeps [calm], then the rest of the sequence. *)
Lemma final_bind_calm {A B} (m : Js A) (k : A -> Js B) (P : State -> Prop) s :
  keeps calm m ->
  (forall s', calm s s' -> P s') ->
  (forall a s', calm s s' -> P (finalState (k a s'))) ->
  P (finalState (bind m k s)).
Proof.
  intros Hm Hthrown Hnormal. unfold bind. specialize (Hm s).
  destruct (m s) as [a s'|s']; cbn in Hm; [by apply Hnormal|by apply Hthrown].
Qed.

Lemma invariant_handleToggleLearning c s :
  invariant s -> invariant (finalState (handleToggleLearning c s s)).
Proof.
  intros Hinv. unfold handleToggleLearning.
  destruct (bool_decide (appState s = LEARNING)).
  - cbn. destruct Hinv as [H1 _]. split; [exact H1|intros [=]].
  - destruct (song s) as [sg|] eqn:Hsong; [|exact Hinv].
    apply final_bind_calm; [apply keeps_calm_initializeAudio| |].
    { intros s' H. by eapply calm_invariant. }
    intros ok s1 Hc1. destruct (negb ok); [by eapply calm_invariant|].
    apply final_bind_calm; [apply keeps_calm_resetPlayback| |].
    { intros s' H. eapply calm_invariant; [|exact Hinv]. by etransitivity. }
    intros _ s2 Hc2. cbn.
    destruct Hc1 as (Hs1 & _). destruct Hc2 as (Hs2 & _).
    destruct Hinv as [H1 _]. split.
    + intros sg'. proj_simpl. rewrite Hs2, Hs1. apply H1.
    + intros _. exists sg. proj_simpl. split; [congruence|].
      intros n. apply skipRests_lookup.
Qed.

Lemma invariant_onNoteDown c n s :
  invariant s -> invariant (finalState (onNoteDown c s n s)).
Proof.
  intros Hinv. unfold onNoteDown.
  assert (forall s', calm s s' -> invariant s') as Hcalm.
  { intros s' H. by eapply calm_invariant. }
  apply final_bind_calm; [apply keeps_calm_initializeAudio|exact Hcalm|].
  intros _ s1 Hc1.
  assert (forall m : Js unit, keeps calm m -> invariant (finalState (m s1))) as Hk.
  { intros m Hm. apply Hcalm. etransitivity; [exact Hc1|apply Hm]. }
  assert (keeps calm (modify (setIncorrectPressNote (Some n)) ;;;
                      setTimeout TClearIncorrect (qz 300) ;;; ret tt)) as Hwrong.
  { keeps_walk calm_leaf. }
  destruct (appState s) eqn:Hst; try (apply Hk, keeps_calm_playNote).
  destruct (song s) as [sg|] eqn:Hsong; [|apply Hk, keeps_calm_playNote].
  destruct (sg !! learningNoteIndex s) as [cur|]; [|apply Hk, Hwrong].
  destruct (bool_decide (n = note cur)); [|apply Hk, Hwrong].
  apply final_bind_calm; [apply keeps_calm_playNote| |].
  { intros s' H. apply Hcalm. by etransitivity. }
  intros _ s2 Hc2.
  apply final_bind_calm; [keeps_walk calm_leaf| |].
  { intros s' H. apply Hcalm. etransitivity; [|exact H]. by etransitivity. }
  intros _ s3 Hc3.
  apply final_bind_calm; [apply keeps_calm_setTimeout| |].
  { intros s' H. apply Hcalm. etransitivity; [|exact H].
    etransitivity; [|exact Hc3]. by etransitivity. }
  intros _ s4 Hc4.
  assert (calm s s4) as Hc.
  { etransitivity; [exact Hc1|]. etransitivity; [exact Hc2|]. by etransitivity. }
  destruct (bool_decide _).
  - apply Hcalm. etransitivity; [exact Hc|]. revert s4 Hc4 Hc.
    intros s4 _ _. revert s4. change (keeps calm
      (modify (setCompletionMessage
                 (Some "Congratulations! You've finished the song!")) ;;;
       setTimeout TCompletion (qz 2000) ;;; ret tt)).
    keeps_walk calm_leaf.
  - cbn. destruct Hc as (Hs & Hi & Ha). destruct Hinv as [H1 H2]. split.
    + intros sg'. proj_simpl. rewrite Hs. apply H1.
    + intros _. exists sg. proj_simpl. split; [congruence|].
      intros m. apply skipRests_lookup.
Qed.

Lemma invariant_timerFires id s :
  invariant s -> invariant (finalState (timerFires id s)).
Proof.
  intros Hinv. unfold timerFires, bind, gets.
  destruct (findTimer id (timers s)) as [t|]; [|exact Hinv].
  unfold clearTimeout, modify.
  set (s1 := setTimers _ s).
  assert (calm s s1) as Hc by (subst s1; calm_side).
  destruct (timer_action t); cbn;
    try (eapply calm_invariant; [|exact Hinv]; etransitivity; [exact Hc|];
         calm_side; intuition congruence).
  destruct Hinv as [H1 _]. split; [exact H1|intros [=]].
Qed.

Lemma invariant_dispatch B c ev s :
  admissible B ev -> invariant s -> invariant (finalState (dispatch c ev s)).
Proof.
  intros Hev Hinv. destruct ev; cbn [dispatch admissible] in *.
  - by apply invariant_handleLoad.
  - by eapply invariant_handleLoadSettled.
  - eapply calm_invariant; [apply keeps_calm_handlePlayPause|exact Hinv].
  - eapply calm_invariant; [apply keeps_calm_resetPlayback|exact Hinv].
  - by apply invariant_handleToggleLearning.
  - by apply invariant_onNoteDown.
  - eapply calm_invariant; [|exact Hinv].
    apply keeps_stopNote; (apply _ || calm_side).
  - eapply calm_invariant; [|exact Hinv]. cbn. calm_side.
  - by apply invariant_timerFires.
  - eapply calm_invariant; [|exact Hinv]. cbn. calm_side.
  - eapply calm_invariant; [|exact Hinv]. unfold animationLoop, bind, gets.
    destruct (bool_decide _); cbn; calm_side.
  - eapply calm_invariant; [|exact Hinv]. cbn. calm_side.
Qed.

Lemma invariant_initialState w : invariant (initialState w).
Proof. split; [intros sg [=]|intros [=]]. Qed.

Lemma invariant_reachable B s : reachable B s -> invariant s.
Proof.
  induction 1 as [w|c c' ev s _ IH Hev].
  - apply invariant_initialState.
  - unfold transition. eapply calm_invariant; [apply calm_render|].
    by eapply invariant_dispatch.
Qed.

(** ** Sample runs *)

Definition clockAt (ms : Z) : Clock := MkClock (qz ms) (qfrac ms 1000).

(** A browser of the current standard, and one with the prefixed
    constructor only. *)
Definition standardAudio : option AudioContext := Some (MkAudioContext false false).
Definition legacyAudio : option AudioContext := Some (MkAudioContext true false).

Definition twoNotes : list SongNote :=
  [MkSongNote "C4" (qz 500) (qz 0); MkSongNote "D4" (qz 500) (qz 500)].

Definition restThenNote : list SongNote :=
  [MkSongNote "Rest" (qz 500) (qz 0); MkSongNote "C4" (qz 500) (qz 500)].

Definition twoRestsThenNote : list SongNote :=
  [MkSongNote "Rest" (qz 500) (qz 0); MkSongNote "Rest" (qz 500) (qz 500);
   MkSongNote "C4" (qz 500) (qz 1000)].

(** A generation request answered with the song [sg]. *)
Definition loadedWith (w : option AudioContext) (sg : list SongNote) : State :=
  run [(clockAt 0, clockAt 0, EvHandleLoad);
       (clockAt 0, clockAt 0, EvLoadSettled KSong (Resolved (Some sg)))]
    (initialState w).

(** [twoNotes] playing since instant 0. *)
Definition playingTwoNotes : State :=
  transition (clockAt 0) (clockAt 0) EvPlayPause (loadedWith standardAudio twoNotes).

(** A key pressed and released on the legacy browser, the oscillator not
    yet ended. *)
Definition releasedKey : State :=
  run [(clockAt 0, clockAt 0, EvNoteDown "C4");
       (clockAt 10, clockAt 10, EvNoteUp "C4")]
    (initialState legacyAudio).

(** Learning [restThenNote], its only note played. *)
Definition lastNotePlayed : State :=
  run [(clockAt 0, clockAt 0, EvToggleLearning);
       (clockAt 100, clockAt 100, EvNoteDown "C4")]
    (loadedWith standardAudio restThenNote).

(** [twoNotes] paused at 600 ms, past the start of both notes. *)
Definition pausedPastStarts : State :=
  transition (clockAt 600) (clockAt 600) EvPlayPause playingTwoNotes.

(** An environment whose parser reads one text. *)
Definition sampleJson : JSON :=
  JArray
    [JObject [("note", JString "Rest"); ("duration", JNumber (qz 500));
              ("startTime", JNumber (qz 0))];
     JObject [("note", JString "Rest"); ("duration", JNumber (qz 500));
              ("startTime", JNumber (qz 500))];
     JObject [("note", JString "C4"); ("duration", JNumber (qz 500));
              ("startTime", JNumber (qz 1000))]].

Definition readString (v : option JSON) : string :=
  match v with Some (JString s) => s | _ => "" end.

Definition readNumber (v : option JSON) : Qc :=
  match v with Some (JNumber q) => q | _ => 0 end.

Definition sampleBuiltins : Builtins :=
  {| JSON_parse := fun s => if bool_decide (s = "[song]") then Some sampleJson else None;
     trim := fun s => s;
     isConfigError := fun _ => false;
     fencedJson := fun _ => None;
     asSongNote := fun v =>
       match v with
       | JObject fields =>
           MkSongNote (readString (assoc "note" fields))
             (readNumber (assoc "duration" fields))
             (readNumber (assoc "startTime" fields))
       | _ => MkSongNote "" 0 0
       end |}.

(** The sample song as the first version of the service delivers it. *)
Definition sampleOutcome : GenOutcome :=
  toOutcome sampleBuiltins (getSongNotes1 sampleBuiltins (RespText "[song]")).

Definition sampleLoaded : State :=
  transition (clockAt 0) (clockAt 0) (EvLoadSettled KSong sampleOutcome)
    (transition (clockAt 0) (clockAt 0) EvHandleLoad (initialState standardAudio)).

Definition sampleLearning : State :=
  transition (clockAt 0) (clockAt 0) EvToggleLearning sampleLoaded.

Definition samplePlaying : State :=
  transition (clockAt 0) (clockAt 0) EvPlayPause sampleLoaded.

Definition samplePaused : State :=
  transition (clockAt 700) (clockAt 700) EvPlayPause samplePlaying.

(** Paused, then a key of the piano pressed. *)
Definition samplePausedKeyDown : State :=
  transition (clockAt 800) (clockAt 800) (EvNoteDown "C4") samplePaused.

Lemma reachable_sampleLoaded : reachable sampleBuiltins sampleLoaded.
Proof.
  unfold sampleLoaded. apply reach_step; [apply reach_step; [apply reach_mount|exact I]|].
  exists (RespText "[song]"). left. reflexivity.
Qed.

Lemma sampleLoaded_song : song sampleLoaded = Some twoRestsThenNote.
Proof. vm_compute. reflexivity. Qed.

(** ** The note-generation boundary never delivers an empty song *)

(** C10: neither version of [getSongNotes] resolves with an empty array,
    [handleLoad] installs a song only from a non-null result, and so the
    song of every reachable state has at least one note. *)
Theorem C10_loaded_song_never_empty (B : Builtins) :
  (forall resp, getSongNotes1 B resp <> Returned (Some []))
  /\ (forall resp, getSongNotes2 B resp <> Returned (Some []))
  /\ (forall k o s notes,
        song (finalState (handleLoadSettled k o s)) = Some notes ->
        song s = Some notes \/ o = Resolved (Some notes))
  /\ (forall s sg, reachable B s -> song s = Some sg -> sg <> []).
Proof.
  repeat split.
  - intros resp H. by apply getSongNotes1_some in H.
  - intros resp H. by apply getSongNotes2_some in H.
  - intros k o s notes. destruct o as [[l|]|]; cbn; intros H; auto.
    right. congruence.
  - intros s sg Hr. apply (invariant_reachable B s Hr).
Qed.

Lemma C10_loaded_song_never_empty_witness :
  reachable sampleBuiltins sampleLoaded
  /\ song sampleLoaded = Some twoRestsThenNote
  /\ twoRestsThenNote <> [].
Proof.
  split; [exact reachable_sampleLoaded|]. split; [exact sampleLoaded_song|].
  exact (proj2 (proj2 (proj2 (C10_loaded_song_never_empty sampleBuiltins)))
           sampleLoaded twoRestsThenNote reachable_sampleLoaded sampleLoaded_song).
Defined.

(** ** Renders outside playback *)

(** The two effects that copy state into refs. *)
Definition syncRefs (s : State) : State :=
  setPlaybackSpeedRef (playbackSpeed s) (setAppStateRef (appState s) s).

(** The highlight the learning effect installs for the render [s]. *)
Definition learningTarget (s : State) : option HighlightedNoteInfo :=
  match appState s, song s with
  | LEARNING, Some sg =>
      match sg !! learningNoteIndex s with
      | Some n => Some (Some (note n), Some (startTime n))
      | None => None
      end
  | _, _ => None
  end.

Lemma speedChangeEffect_not_playing c r w :
  appState r <> PLAYING -> speedChangeEffect c r w = Normal tt w.
Proof.
  intros H. unfold speedChangeEffect. by rewrite bool_decide_eq_false_2.
Qed.

Lemma learningHighlightEffect_cases r w :
  learningHighlightEffect r w = Normal tt w
  \/ exists h, learningHighlightEffect r w = Normal tt (setHighlightedNoteInfo h w).
Proof.
  unfold learningHighlightEffect.
  destruct (appState r), (song r) as [sg|];
    repeat match goal with
      | |- context [match ?x with _ => _ end] => destruct x
      end; cbn; eauto.
Qed.

Lemma learningHighlightEffect_target r w h :
  learningTarget r = Some h ->
  learningHighlightEffect r w = Normal tt (setHighlightedNoteInfo h w).
Proof.
  unfold learningTarget, learningHighlightEffect.
  destruct (appState r); try discriminate.
  destruct (song r) as [sg|]; try discriminate.
  destruct (sg !! learningNoteIndex r); [|discriminate].
  by intros [= <-].
Qed.

Lemma runEffects_not_playing c prev cur :
  appState cur <> PLAYING ->
  exists h, runEffects c prev cur = setHighlightedNoteInfo h (syncRefs cur).
Proof.
  intros H. unfold runEffects. cbv zeta. fold (syncRefs cur).
  rewrite (speedChangeEffect_not_playing _ _ _ H). cbn [finalState].
  assert ((if decide (speedDeps prev = speedDeps cur) then syncRefs cur else syncRefs cur)
          = syncRefs cur) as -> by (by destruct (decide _)).
  destruct (decide _).
  - exists (highlightedNoteInfo cur). by destruct cur.
  - destruct (learningHighlightEffect_cases cur (syncRefs cur)) as [->|[h ->]].
    + exists (highlightedNoteInfo cur). by destruct cur.
    + by exists h.
Qed.

Lemma commit_not_playing fuel c : forall prev cur,
  appState cur <> PLAYING ->
  exists h, commit (S fuel) c prev cur = setHighlightedNoteInfo h (syncRefs cur).
Proof.
  induction fuel as [|fuel IH]; intros prev cur H.
  - cbn [commit]. destruct (runEffects_not_playing c prev cur H) as [h ->].
    exists h. by destruct (decide _).
  - cbn [commit]. destruct (runEffects_not_playing c prev cur H) as [h E].
    cbn [commit] in IH. rewrite E. destruct (decide _); [by exists h|].
    destruct (IH cur (setHighlightedNoteInfo h (syncRefs cur))) as [h' E'].
    { by destruct cur. }
    exists h'. rewrite E'. by destruct cur.
Qed.

Lemma render_not_playing c prev cur :
  appState cur <> PLAYING ->
  exists h, render c prev cur = setHighlightedNoteInfo h (syncRefs cur).
Proof. apply commit_not_playing. Qed.

(** While learning, a render leaves the target of the cursor highlighted
    as soon as the render differs from the previous one or the target
    was highlighted already. *)
Lemma commit_learning_highlight fuel c h : forall prev cur,
  learningTarget cur = Some h ->
  highlightDeps prev <> highlightDeps cur \/ highlightedNoteInfo cur = h ->
  highlightedNoteInfo (commit (S fuel) c prev cur) = h.
Proof.
  assert (forall prev cur, learningTarget cur = Some h ->
            highlightDeps prev <> highlightDeps cur \/ highlightedNoteInfo cur = h ->
            highlightedNoteInfo (runEffects c prev cur) = h
            /\ learningTarget (runEffects c prev cur) = Some h) as Hrun.
  { intros prev cur Ht Hd.
    assert (appState cur <> PLAYING) as Hnp.
    { unfold learningTarget in Ht. by destruct (appState cur). }
    unfold runEffects. cbv zeta. fold (syncRefs cur).
    rewrite (speedChangeEffect_not_playing _ _ _ Hnp). cbn [finalState].
    assert ((if decide (speedDeps prev = speedDeps cur) then syncRefs cur
             else syncRefs cur) = syncRefs cur) as -> by (by destruct (decide _)).
    destruct (decide _) as [Heq|Hne].
    - destruct Hd as [Hd|Hd]; [done|]. split; [by destruct cur|]. by destruct cur.
    - rewrite (learningHighlightEffect_target _ _ _ Ht). cbn [finalState].
      split; [by destruct cur|]. by destruct cur. }
  induction fuel as [|fuel IH]; intros prev cur Ht Hd.
  - cbn [commit]. destruct (Hrun prev cur Ht Hd) as [H _]. by destruct (decide _).
  - cbn [commit]. destruct (Hrun prev cur Ht Hd) as [H1 H2].
    destruct (decide _); [exact H1|]. cbn [commit] in IH. apply IH; [exact H2|].
    by right.
Qed.

(** ** Teardown *)

Lemma stopSafe_teardown s : stopSafe (teardown s) = true.
Proof.
  unfold stopSafe, teardown, noPendingRelease. proj_simpl.
  destruct (audioContextRef s); [apply orb_true_r|reflexivity].
Qed.

Lemma teardown_idempotent s : teardown (teardown s) = teardown s.
Proof. unfold teardown. state_eq. Qed.

(** C7: a second stop request on a scheduled node, and a second run of
    the teardown (or a run on the freshly mounted component), never raise;
    but on a context that rejects a second stop request, the manual-node
    loop of the teardown and a second release of a key both let the
    exception out, and the teardown then leaves the manual-node map as it
    was. *)
Theorem C7_manual_double_release_raises :
  (forall c nodes s, forEach nodes (stopScheduledNode c) s = Normal tt s)
  /\ (forall c s, stopAllSounds c (teardown s) = Normal tt (teardown s))
  /\ (forall c w, completed (stopAllSounds c (initialState w)) = true)
  /\ completed (stopAllSounds (clockAt 20) releasedKey) = false
  /\ completed (dispatch (clockAt 20) (EvNoteUp "C4") releasedKey) = false
  /\ completed (dispatch (clockAt 20) EvResetPlayback releasedKey) = false
  /\ map fst (manualNodesRef (finalState (stopAllSounds (clockAt 20) releasedKey)))
     = ["C4"].
Proof.
  split; [intros; apply forEach_stopScheduledNode|].
  split.
  { intros c s. rewrite stopAllSounds_teardown by apply stopSafe_teardown.
    by rewrite teardown_idempotent. }
  split.
  { intros c w. by rewrite stopAllSounds_teardown. }
  repeat split; vm_compute; reflexivity.
Qed.

(** ** Transport *)



(** ** The plan a build leaves *)

Lemma audioReady_set s : exists v, audioReady s = setAudioContextRef v s.
Proof.
  unfold audioReady. destruct (audioContextRef s) as [ctx|] eqn:E.
  - destruct (ctx_suspended ctx); [by eexists|].
    exists (Some ctx). rewrite <- E. by destruct s.
  - destruct (windowAudioContext s); [by eexists|].
    exists None. rewrite <- E. by destruct s.
Qed.

Lemma scheduled_set c r off sg w :
  exists st,
    scheduled c r off sg w =
    setAppState st
      (setScheduledUiCallbacksRef
         (seq (nextTimerId w) (length (timerPlan (playbackSpeed r) off sg)))
         (setScheduledNodesRef (tonePlan (audioNow c) (playbackSpeed r) off sg)
            (setNextTimerId (nextTimerId w + length (timerPlan (playbackSpeed r) off sg))
               (setTimers (timers w ++ armTimers (nextTimerId w)
                                         (timerPlan (playbackSpeed r) off sg)) w))))
    /\ (sg <> [] -> st = appState w).
Proof.
  unfold scheduled. cbv zeta. destruct (last sg) eqn:E.
  - exists (appState w). split; [state_eq|done].
  - exists LOADED. split; [done|]. intros H. apply last_None in E. done.
Qed.

Lemma cancelAll_fresh ids l n :
  forallb (fun t => timer_id t <? n)%nat l = true ->
  forallb (fun t => timer_id t <? n)%nat (cancelAll ids l) = true.
Proof.
  revert l. induction ids as [|id ids IH]; intros l H; cbn [cancelAll]; [done|].
  apply IH. rewrite forallb_forall in *. intros t Ht. apply H.
  apply list_elem_of_In in Ht. apply list_elem_of_In.
  by apply list_elem_of_filter in Ht as [_ ?].
Qed.

Lemma filter_stale base n (l : list Timer) :
  forallb (fun t => timer_id t <? base)%nat l = true ->
  List.filter (fun t => existsb (Nat.eqb (timer_id t)) (seq base n)) l = [].
Proof.
  intros H. induction l as [|t l IH]; [done|].
  cbn [forallb] in H. apply andb_true_iff in H as [Ht Hl].
  cbn [List.filter]. rewrite (IH Hl).
  destruct (existsb _ _) eqn:E; [|done].
  apply existsb_exists in E as (i & Hi & Heq).
  apply in_seq in Hi. apply Nat.eqb_eq in Heq. apply Nat.ltb_lt in Ht. lia.
Qed.

Lemma filter_armed plan : forall base base' n,
  (base' <= base)%nat -> (base + length plan <= base' + n)%nat ->
  List.filter (fun t => existsb (Nat.eqb (timer_id t)) (seq base' n))
    (armTimers base plan) = armTimers base plan.
Proof.
  induction plan as [|p plan IH]; intros base base' n H1 H2; [done|].
  cbn [armTimers List.filter timer_id length] in *.
  assert (existsb (Nat.eqb base) (seq base' n) = true) as ->.
  { apply existsb_exists. exists base. split; [apply in_seq; lia|apply Nat.eqb_refl]. }
  f_equal. apply IH; lia.
Qed.

Lemma armTimers_plan plan : forall base,
  map (fun t => (timer_delay t, timer_action t)) (armTimers base plan) = plan.
Proof.
  induction plan as [|[d a] plan IH]; intros base; [done|].
  cbn. by rewrite IH.
Qed.

Lemma planTimers_armed s base plan stale :
  timers s = stale ++ armTimers base plan ->
  scheduledUiCallbacksRef s = seq base (length plan) ->
  forallb (fun t => timer_id t <? base)%nat stale = true ->
  planTimers s = plan.
Proof.
  intros Ht Hc Hs. unfold planTimers. rewrite Ht, Hc, List.filter_app.
  rewrite (filter_stale base _ stale Hs), (filter_armed plan base base) by lia.
  cbn [app]. apply armTimers_plan.
Qed.

(** The timeouts and the nodes of the plan [scheduleSong] builds. *)
Lemma planTimers_scheduled c r off sg w :
  timersFresh w = true ->
  planTimers (scheduled c r off sg w) = timerPlan (playbackSpeed r) off sg.
Proof.
  intros H. destruct (scheduled_set c r off sg w) as (st & -> & _).
  by eapply planTimers_armed.
Qed.

Lemma scheduledNodes_scheduled c r off sg w :
  scheduledNodesRef (scheduled c r off sg w)
  = tonePlan (audioNow c) (playbackSpeed r) off sg.
Proof. by destruct (scheduled_set c r off sg w) as (st & -> & _). Qed.

Lemma timersFresh_teardown_audioReady s :
  timersFresh s = true -> timersFresh (teardown (audioReady s)) = true.
Proof.
  intros H. destruct (audioReady_set s) as [v ->].
  unfold timersFresh, teardown in *. proj_simpl. by apply cancelAll_fresh.
Qed.

Lemma armTimers_fresh plan : forall base n,
  (base + length plan <= n)%nat ->
  forallb (fun t => timer_id t <? n)%nat (armTimers base plan) = true.
Proof.
  induction plan as [|p plan IH]; intros base n H; [done|].
  cbn [armTimers forallb timer_id length] in *. apply andb_true_iff. split.
  - apply Nat.ltb_lt. lia.
  - apply IH. lia.
Qed.

Lemma timersFresh_scheduled c r off sg w :
  timersFresh w = true -> timersFresh (scheduled c r off sg w) = true.
Proof.
  intros H. destruct (scheduled_set c r off sg w) as (st & -> & _).
  unfold timersFresh in *. proj_simpl. rewrite forallb_app. apply andb_true_iff. split.
  - rewrite forallb_forall in *. intros t Ht. apply H in Ht.
    apply Nat.ltb_lt in Ht. apply Nat.ltb_lt. lia.
  - by apply armTimers_fresh.
Qed.

(** ** The transport callbacks, step by step *)

(** States that differ in nothing the audio layer reads. *)
Definition sameAudio (s s' : State) : Prop :=
  audioContextRef s' = audioContextRef s
  /\ windowAudioContext s' = windowAudioContext s
  /\ manualNodesRef s' = manualNodesRef s.

Lemma teardownSafe_stopSafe s s' :
  sameAudio s s' -> teardownSafe s = true -> stopSafe (audioReady s') = true.
Proof.
  intros (H1 & H2 & H3). unfold teardownSafe, strictInForce, stopSafe, audioReady,
    noPendingRelease. rewrite H1, H2.
  destruct (audioContextRef s) as [ctx|] eqn:E.
  - destruct (ctx_suspended ctx); proj_simpl; rewrite ?H1, ?E, ?H3; done.
  - destruct (windowAudioContext s) as [ctx|] eqn:E'.
    + proj_simpl. rewrite H3. by destruct (ctx_suspended ctx).
    + rewrite ?H1, ?E. done.
Qed.

Lemma teardownSafe_stopSafe_now s s' :
  sameAudio s s' -> teardownSafe s = true -> stopSafe s' = true.
Proof.
  intros (H1 & H2 & H3). unfold teardownSafe, strictInForce, stopSafe, noPendingRelease.
  rewrite H1, H3. destruct (audioContextRef s); [done|]. by intros _.
Qed.

Lemma audioAvailable_same s s' :
  sameAudio s s' -> audioAvailable s' = audioAvailable s.
Proof. intros (H1 & H2 & _). unfold audioAvailable. by rewrite H1, H2. Qed.

Lemma audioAvailable_ext s s' :
  audioContextRef s' = audioContextRef s ->
  windowAudioContext s' = windowAudioContext s ->
  audioAvailable s' = audioAvailable s.
Proof. intros H1 H2. unfold audioAvailable. by rewrite H1, H2. Qed.

Ltac same_audio := unfold sameAudio; proj_simpl; auto.

(** The elapsed song time a transport callback derives at [now], with the
    speed of its render. *)
Definition elapsedAt (now : Qc) (r w : State) : Qc :=
  playbackProgressRef w + (now - playbackStartTimeRef w) * playbackSpeed r.

Lemma handlePlayPause_pause c s :
  appState s = PLAYING -> teardownSafe s = true ->
  handlePlayPause c s s =
  Normal tt (setAppState PAUSED
               (teardown (setPlaybackProgressRef (elapsedAt (perfNow c) s s) s))).
Proof.
  intros Hst Hsafe. unfold handlePlayPause. rewrite Hst. cbn [bool_decide decide_rel].
  rewrite bool_decide_eq_true_2 by done.
  unfold bind at 1. unfold modify at 1.
  unfold bind at 1. rewrite stopAllSounds_teardown.
  2:{ eapply teardownSafe_stopSafe_now; [|exact Hsafe]. same_audio. }
  reflexivity.
Qed.

Lemma handlePlayPause_resume c s sg :
  appState s = PAUSED -> song s = Some sg ->
  audioAvailable s = true -> teardownSafe s = true ->
  handlePlayPause c s s =
  Normal tt (setAppState PLAYING
               (scheduled c s (playbackProgressRef s) sg
                  (teardown (audioReady (setPlaybackStartTimeRef (perfNow c) s))))).
Proof.
  intros Hst Hsong Hav Hsafe. unfold handlePlayPause. rewrite Hst.
  rewrite bool_decide_eq_false_2 by done. rewrite bool_decide_eq_true_2 by done.
  unfold bind at 1. unfold modify at 1.
  unfold bind at 1. unfold gets at 1. proj_simpl.
  unfold bind at 1. rewrite (scheduleSong_spec c s _ sg); [reflexivity|done| |].
  - rewrite <- Hav. apply audioAvailable_same. same_audio.
  - eapply teardownSafe_stopSafe; [|exact Hsafe]. same_audio.
Qed.

Lemma speedChangeEffect_spec c r w sg :
  appState r = PLAYING -> song r = Some sg ->
  audioAvailable w = true -> teardownSafe w = true ->
  speedChangeEffect c r w =
  Normal tt
    (scheduled c r (elapsedAt (perfNow c) r w) sg
       (teardown (audioReady
          (setPlaybackProgressRef (elapsedAt (perfNow c) r w)
             (setPlaybackStartTimeRef (perfNow c) w))))).
Proof.
  intros Hst Hsong Hav Hsafe. unfold speedChangeEffect.
  rewrite bool_decide_eq_true_2 by done.
  unfold bind at 1. unfold gets at 1.
  unfold bind at 1. unfold modify at 1.
  unfold bind at 1. unfold modify at 1.
  rewrite (scheduleSong_spec c r _ sg); [reflexivity|done| |].
  - rewrite <- Hav. apply audioAvailable_same. same_audio.
  - eapply teardownSafe_stopSafe; [|exact Hsafe]. same_audio.
Qed.

Lemma learningHighlightEffect_playing r w :
  appState r = PLAYING -> learningHighlightEffect r w = Normal tt w.
Proof. intros H. unfold learningHighlightEffect. by rewrite H. Qed.

(** The render of a playing state whose speed, transport state or song
    differs from the previous render: the plan is rebuilt from the
    elapsed time derived at the render. *)
Lemma render_playing c prev cur sg :
  appState cur = PLAYING -> song cur = Some sg -> sg <> [] ->
  audioAvailable cur = true -> teardownSafe cur = true ->
  speedDeps prev <> speedDeps cur ->
  render c prev cur =
  scheduled c cur (elapsedAt (perfNow c) cur cur) sg
    (teardown (audioReady
       (setPlaybackProgressRef (elapsedAt (perfNow c) cur cur)
          (setPlaybackStartTimeRef (perfNow c) (syncRefs cur))))).
Proof.
  intros Hst Hsong Hne Hav Hsafe Hdeps. unfold render. cbn [commit].
  assert (runEffects c prev cur =
          scheduled c cur (elapsedAt (perfNow c) cur cur) sg
            (teardown (audioReady
               (setPlaybackProgressRef (elapsedAt (perfNow c) cur cur)
                  (setPlaybackStartTimeRef (perfNow c) (syncRefs cur)))))) as E.
  { unfold runEffects. cbv zeta. fold (syncRefs cur).
    destruct (decide (speedDeps prev = speedDeps cur)); [done|].
    rewrite (speedChangeEffect_spec c cur (syncRefs cur) sg); [|done|done| |].
    - cbn [finalState]. rewrite learningHighlightEffect_playing by done.
      cbn [finalState]. by destruct (decide _).
    - rewrite <- Hav. apply audioAvailable_same. unfold syncRefs. same_audio.
    - rewrite <- Hsafe. unfold teardownSafe, strictInForce, noPendingRelease, syncRefs.
      by proj_simpl. }
  rewrite E. destruct (decide _) as [|Hn]; [done|]. exfalso. apply Hn.
  destruct (scheduled_set c cur (elapsedAt (perfNow c) cur cur) sg
              (teardown (audioReady
                 (setPlaybackProgressRef (elapsedAt (perfNow c) cur cur)
                    (setPlaybackStartTimeRef (perfNow c) (syncRefs cur))))))
    as (st & -> & Hstate).
  rewrite (Hstate Hne).
  destruct (audioReady_set (setPlaybackProgressRef (elapsedAt (perfNow c) cur cur)
                              (setPlaybackStartTimeRef (perfNow c) (syncRefs cur))))
    as [v ->].
  unfold speedDeps, highlightDeps, teardown, syncRefs. by proj_simpl.
Qed.

Lemma timersFresh_same s s' :
  timers s' = timers s -> nextTimerId s' = nextTimerId s ->
  timersFresh s' = timersFresh s.
Proof. intros H1 H2. unfold timersFresh. by rewrite H1, H2. Qed.

Lemma timersFresh_teardown s : timersFresh s = true -> timersFresh (teardown s) = true.
Proof.
  intros H. unfold timersFresh, teardown in *. proj_simpl. by apply cancelAll_fresh.
Qed.

Lemma audioReady_context s :
  audioAvailable s = true -> is_Some (audioContextRef (audioReady s)).
Proof.
  unfold audioAvailable, audioReady. intros H.
  destruct (audioContextRef s) as [ctx|] eqn:E.
  - destruct (ctx_suspended ctx); proj_simpl; rewrite ?E; eauto.
  - destruct (windowAudioContext s); proj_simpl; [eauto|]. cbn in H. discriminate.
Qed.

(** Pause, with its render. *)
Lemma transition_pause c c' s :
  appState s = PLAYING -> teardownSafe s = true ->
  exists h,
    transition c c' EvPlayPause s =
    setHighlightedNoteInfo h
      (syncRefs (setAppState PAUSED
                   (teardown (setPlaybackProgressRef (elapsedAt (perfNow c) s s) s)))).
Proof.
  intros Hst Hsafe. unfold transition. cbn [dispatch].
  rewrite handlePlayPause_pause by done. cbn [finalState].
  apply render_not_playing. by proj_simpl.
Qed.

(** Resume, with its render: the effect rebuilds the plan the callback
    built, from the elapsed time it derives at the render. *)
Lemma transition_resume c c' p sg :
  appState p = PAUSED -> song p = Some sg -> sg <> [] ->
  audioAvailable p = true -> teardownSafe p = true -> timersFresh p = true ->
  exists q,
    transition c c' EvPlayPause p = q
    /\ appState q = PLAYING
    /\ playbackProgressRef q
       = playbackProgressRef p + (perfNow c' - perfNow c) * playbackSpeed p
    /\ playbackStartTimeRef q = perfNow c'
    /\ planTimers q
       = timerPlan (playbackSpeed p)
           (playbackProgressRef p + (perfNow c' - perfNow c) * playbackSpeed p) sg
    /\ scheduledNodesRef q
       = tonePlan (audioNow c') (playbackSpeed p)
           (playbackProgressRef p + (perfNow c' - perfNow c) * playbackSpeed p) sg
    /\ manualNodesRef q = [] /\ activeNotes q = ∅.
Proof.
  intros Hst Hsong Hne Hav Hsafe Hfresh. eexists. split; [reflexivity|].
  unfold transition. cbn [dispatch].
  rewrite (handlePlayPause_resume c p sg) by done. cbn [finalState].
  set (T := teardown (audioReady (setPlaybackStartTimeRef (perfNow c) p))).
  destruct (scheduled_set c p (playbackProgressRef p) sg T) as (st & EQ & Hstate).
  destruct (audioReady_set (setPlaybackStartTimeRef (perfNow c) p)) as [v Ev].
  assert (timersFresh T = true) as HT.
  { subst T. apply timersFresh_teardown_audioReady.
    rewrite <- Hfresh. by apply timersFresh_same. }
  set (Qd := setAppState PLAYING (scheduled c p (playbackProgressRef p) sg T)).
  assert (appState Qd = PLAYING) as HQst by reflexivity.
  assert (song Qd = Some sg /\ playbackSpeed Qd = playbackSpeed p
          /\ playbackProgressRef Qd = playbackProgressRef p
          /\ playbackStartTimeRef Qd = perfNow c
          /\ manualNodesRef Qd = []
          /\ windowAudioContext Qd = windowAudioContext p
          /\ audioContextRef Qd = v) as (HQ1 & HQ2 & HQ3 & HQ4 & HQ5 & HQ6 & HQ7).
  { subst Qd T. rewrite EQ, Ev. unfold teardown. proj_simpl. by rewrite Hsong. }
  assert (audioAvailable Qd = true) as HQav.
  { unfold audioAvailable. rewrite HQ7.
    assert (audioContextRef (audioReady (setPlaybackStartTimeRef (perfNow c) p)) = v)
      as <- by (by rewrite Ev).
    rewrite bool_decide_eq_true_2; [done|]. apply audioReady_context.
    rewrite <- Hav. apply audioAvailable_same. same_audio. }
  assert (teardownSafe Qd = true) as HQsafe.
  { unfold teardownSafe, noPendingRelease. rewrite HQ5. apply orb_true_r. }
  assert (timersFresh Qd = true) as HQfresh.
  { subst Qd. erewrite timersFresh_same; [by apply timersFresh_scheduled|done|done]. }
  rewrite (render_playing c' p Qd sg); try done.
  2:{ unfold speedDeps. rewrite HQst, Hst. congruence. }
  unfold elapsedAt. rewrite HQ2, HQ3, HQ4.
  set (off := playbackProgressRef p + (perfNow c' - perfNow c) * playbackSpeed p).
  set (T2 := teardown (audioReady (setPlaybackProgressRef off
                                     (setPlaybackStartTimeRef (perfNow c') (syncRefs Qd))))).
  assert (timersFresh T2 = true) as HT2.
  { subst T2. apply timersFresh_teardown_audioReady.
    rewrite <- HQfresh. by apply timersFresh_same. }
  rewrite planTimers_scheduled, scheduledNodes_scheduled, HQ2 by done.
  destruct (scheduled_set c' Qd off sg T2) as (st2 & -> & Hstate2).
  rewrite (Hstate2 Hne). subst T2.
  destruct (audioReady_set (setPlaybackProgressRef off
                              (setPlaybackStartTimeRef (perfNow c') (syncRefs Qd))))
    as [v2 ->].
  unfold teardown, syncRefs. by proj_simpl.
Qed.

Lemma planTimers_nil s : scheduledUiCallbacksRef s = [] -> planTimers s = [].
Proof.
  intros H. unfold planTimers. rewrite H. cbn [existsb].
  by induction (timers s).
Qed.

Lemma qz_1000_nonzero : qz 1000 <> 0.
Proof. intros H. apply (f_equal this) in H. discriminate. Qed.

(** A build from an offset advanced by the play time [d * speed] arms
    each timeout [d] earlier. *)
Lemma highlightDelay_shift speed off d n :
  speed <> 0 ->
  highlightDelay speed (off + d * speed) n + d = highlightDelay speed off n.
Proof.
  intros H. unfold highlightDelay. pose proof qz_1000_nonzero. field. by split.
Qed.

Lemma endDelay_shift speed off d n :
  speed <> 0 -> endDelay speed (off + d * speed) n + d = endDelay speed off n.
Proof. intros H. unfold endDelay. field. done. Qed.

(** ** Pause and resume *)

(** C6 (as amended): pause freezes the stored progress at the elapsed time
    derived at the pause and drops the plan; resume keeps that value (plus
    the play time of its own render) and builds a fresh plan from it, so
    that a note gets a highlight timeout and a tone only when it starts at
    or after that offset. Each timeout of the new plan falls on the
    wall-clock instant the plan built from the earlier offset had for it;
    progress and plan are those from before the pause when the pause falls
    on the anchor instant. *)
Theorem C6_resume_rebuilds_from_frozen_offset c1 c1' c2 c2' s sg :
  appState s = PLAYING -> song s = Some sg -> sg <> [] ->
  audioAvailable s = true -> teardownSafe s = true -> timersFresh s = true ->
  let frozen := elapsedAt (perfNow c1) s s in
  let offset := frozen + (perfNow c2' - perfNow c2) * playbackSpeed s in
  let p := transition c1 c1' EvPlayPause s in
  let q := transition c2 c2' EvPlayPause p in
  (appState p = PAUSED /\ playbackProgressRef p = frozen
   /\ planTimers p = [] /\ scheduledNodesRef p = [])
  /\ (appState q = PLAYING /\ playbackProgressRef q = offset
      /\ playbackStartTimeRef q = perfNow c2'
      /\ planTimers q = timerPlan (playbackSpeed s) offset sg
      /\ scheduledNodesRef q = tonePlan (audioNow c2') (playbackSpeed s) offset sg)
  /\ (perfNow c2' = perfNow c2 -> offset = frozen)
  /\ (perfNow c1 = playbackStartTimeRef s -> frozen = playbackProgressRef s)
  /\ (playbackSpeed s <> 0 ->
      forall n,
        highlightDelay (playbackSpeed s) frozen n + (perfNow c1 - playbackStartTimeRef s)
        = highlightDelay (playbackSpeed s) (playbackProgressRef s) n
        /\ endDelay (playbackSpeed s) frozen n + (perfNow c1 - playbackStartTimeRef s)
           = endDelay (playbackSpeed s) (playbackProgressRef s) n).
Proof.
  intros Hst Hsong Hne Hav Hsafe Hfresh frozen offset p q.
  destruct (transition_pause c1 c1' s Hst Hsafe) as [h Ep].
  fold frozen in Ep. fold p in Ep.
  assert (appState p = PAUSED /\ playbackProgressRef p = frozen
          /\ scheduledUiCallbacksRef p = [] /\ scheduledNodesRef p = []
          /\ song p = Some sg /\ playbackSpeed p = playbackSpeed s
          /\ manualNodesRef p = [])
    as (Hp1 & Hp2 & Hp3 & Hp4 & Hp5 & Hp6 & Hp7).
  { rewrite Ep. unfold syncRefs, teardown. proj_simpl. by rewrite Hsong. }
  assert (audioAvailable p = true) as Hpav.
  { rewrite <- Hav, Ep.
    apply audioAvailable_ext; unfold syncRefs, teardown; by proj_simpl. }
  assert (teardownSafe p = true) as Hpsafe.
  { unfold teardownSafe, noPendingRelease. rewrite Hp7. apply orb_true_r. }
  assert (timersFresh p = true) as Hpfresh.
  { rewrite Ep. erewrite timersFresh_same;
      [apply (timersFresh_teardown _ Hfresh)| |];
      unfold syncRefs, teardown; by proj_simpl. }
  destruct (transition_resume c2 c2' p sg Hp1 Hp5 Hne Hpav Hpsafe Hpfresh)
    as (q' & Eq & Hq1 & Hq2 & Hq3 & Hq4 & Hq5 & _).
  fold q in Eq. subst q'. rewrite Hp2, Hp6 in *.
  split; [by rewrite planTimers_nil|].
  split; [done|].
  split. { intros E. unfold offset. rewrite E. ring. }
  split. { intros E. unfold frozen, elapsedAt. rewrite E. ring. }
  intros Hspeed n. unfold frozen, elapsedAt. split.
  - by apply highlightDelay_shift.
  - by apply endDelay_shift.
Qed.

Lemma C6_resume_rebuilds_from_frozen_offset_witness :
  appState
    (transition (clockAt 700) (clockAt 700) EvPlayPause
       (transition (clockAt 700) (clockAt 700) EvPlayPause samplePlaying)) = PLAYING.
Proof.
  apply (C6_resume_rebuilds_from_frozen_offset
           (clockAt 700) (clockAt 700) (clockAt 700) (clockAt 700)
           samplePlaying twoRestsThenNote);
    solve [vm_compute; reflexivity | discriminate].
Defined.

(** C6 (as stated) fails: [twoNotes] paused 250 ms into the song and
    resumed at once holds a plan without the first note, and a stored
    progress of 250 ms instead of 0. *)
Lemma C6_resumed_plan_differs :
  appState playingTwoNotes = PLAYING
  /\ map snd (planTimers playingTwoNotes)
     = [THighlight (MkSongNote "C4" (qz 500) (qz 0));
        THighlight (MkSongNote "D4" (qz 500) (qz 500)); TEndOfSong]
  /\ length (scheduledNodesRef playingTwoNotes) = 2%nat
  /\ map snd (planTimers
                (run [(clockAt 250, clockAt 250, EvPlayPause);
                      (clockAt 250, clockAt 250, EvPlayPause)] playingTwoNotes))
     = [THighlight (MkSongNote "D4" (qz 500) (qz 500)); TEndOfSong]
  /\ length (scheduledNodesRef
               (run [(clockAt 250, clockAt 250, EvPlayPause);
                     (clockAt 250, clockAt 250, EvPlayPause)] playingTwoNotes)) = 1%nat
  /\ planTimers (run [(clockAt 250, clockAt 250, EvPlayPause);
                      (clockAt 250, clockAt 250, EvPlayPause)] playingTwoNotes)
     <> planTimers playingTwoNotes
  /\ playbackProgressRef
       (run [(clockAt 250, clockAt 250, EvPlayPause);
             (clockAt 250, clockAt 250, EvPlayPause)] playingTwoNotes)
     <> playbackProgressRef playingTwoNotes.
Proof.
  repeat split; try (vm_compute; reflexivity).
  - intros H. apply (f_equal length) in H. vm_compute in H. discriminate.
  - intros H. apply (f_equal this) in H. vm_compute in H. discriminate.
Qed.

(** C9 (as amended): a pause whose teardown is not rejected leaves the
    manual-node map, the Active Notes set and the plan empty. (Nothing
    keeps a later key press out of a Paused state.) *)
Theorem C9_pause_clears_manual_notes c c' s :
  appState s = PLAYING -> teardownSafe s = true ->
  appState (transition c c' EvPlayPause s) = PAUSED
  /\ manualNodesRef (transition c c' EvPlayPause s) = []
  /\ activeNotes (transition c c' EvPlayPause s) = ∅
  /\ scheduledNodesRef (transition c c' EvPlayPause s) = []
  /\ scheduledUiCallbacksRef (transition c c' EvPlayPause s) = [].
Proof.
  intros Hst Hsafe. destruct (transition_pause c c' s Hst Hsafe) as [h ->].
  unfold syncRefs, teardown. by proj_simpl.
Qed.

Lemma C9_pause_clears_manual_notes_witness :
  activeNotes (transition (clockAt 700) (clockAt 700) EvPlayPause samplePlaying) = ∅.
Proof.
  apply (C9_pause_clears_manual_notes (clockAt 700) (clockAt 700) samplePlaying);
    vm_compute; reflexivity.
Defined.

Lemma reachable_samplePaused : reachable sampleBuiltins samplePaused.
Proof.
  unfold samplePaused, samplePlaying.
  repeat (apply reach_step; [|exact I]). exact reachable_sampleLoaded.
Qed.

(** C9 (as stated) fails: a key pressed while Paused is sounded and
    enters the Active Notes set, the state staying Paused. *)
Lemma C9_paused_with_active_note :
  reachable sampleBuiltins samplePausedKeyDown
  /\ appState samplePausedKeyDown = PAUSED
  /\ elements (activeNotes samplePausedKeyDown) = ["C4"]
  /\ map fst (manualNodesRef samplePausedKeyDown) = ["C4"]
  /\ activeNotes samplePausedKeyDown <> ∅.
Proof.
  split.
  { unfold samplePausedKeyDown. apply reach_step; [|exact I].
    exact reachable_samplePaused. }
  repeat split; try (vm_compute; reflexivity).
  intros H. apply (f_equal elements) in H. vm_compute in H. discriminate.
Qed.

(** ** Learning mode *)




(** ** Entering learning mode *)

(** The state [resetPlayback] leaves when the teardown is not rejected. *)
Definition resetState (r w : State) : State :=
  let w1 :=
    setPlaybackProgress 0
      (setPlaybackProgressRef 0 (setHighlightedNoteInfo (None, None) (teardown w))) in
  if bool_decide (appState r = PLAYING) || bool_decide (appState r = PAUSED)
  then setAppState LOADED w1 else w1.

Lemma resetPlayback_spec c r w :
  stopSafe w = true -> resetPlayback c r w = Normal tt (resetState r w).
Proof.
  intros H. unfold resetPlayback, resetState.
  unfold bind at 1. rewrite stopAllSounds_teardown by done.
  unfold bind, modify. by destruct (_ || _).
Qed.

Lemma handleToggleLearning_enter c s sg :
  appState s <> LEARNING -> song s = Some sg ->
  audioAvailable s = true -> teardownSafe s = true ->
  handleToggleLearning c s s =
  Normal tt
    (setAppState LEARNING
       (setLearningNoteIndex (skipRests sg 0)
          (setCompletionMessage None (resetState s (audioReady s))))).
Proof.
  intros Hst Hsong Hav Hsafe. unfold handleToggleLearning.
  rewrite bool_decide_eq_false_2 by done. rewrite Hsong.
  unfold bind at 1. rewrite initializeAudio_available by done. cbn [negb].
  unfold bind at 1. rewrite resetPlayback_spec.
  2:{ eapply teardownSafe_stopSafe; [|exact Hsafe]. same_audio. }
  reflexivity.
Qed.

Lemma skipRestsFrom_before l : forall i j m,
  (i <= j < skipRestsFrom l i)%nat -> l !! (j - i)%nat = Some m -> isRest m = true.
Proof.
  induction l as [|x l IH]; intros i j m Hj Hm; cbn [skipRestsFrom] in Hj; [lia|].
  destruct (isRest x) eqn:Hx; [|lia].
  destruct (decide (j = i)) as [->|Hne].
  - rewrite Nat.sub_diag in Hm. cbn in Hm. congruence.
  - apply (IH (S i) j m); [lia|].
    replace (j - i)%nat with (S (j - S i)) in Hm by lia. exact Hm.
Qed.

Lemma skipRests_before sg j m :
  (j < skipRests sg 0)%nat -> sg !! j = Some m -> isRest m = true.
Proof.
  unfold skipRests. rewrite drop_0. intros Hj Hm.
  apply (skipRestsFrom_before sg 0 j m); [lia|]. by rewrite Nat.sub_0_r.
Qed.

(** C8: on a song with a first note to play, entering Learning mode (from
    any other state, the audio available and the teardown not rejected)
    puts the cursor on the first index that does not hold a rest, every
    index before it holding one, and the render highlights that note; the
    callback arms no timeout. *)
Theorem C8_learning_starts_on_first_note c c' s sg n :
  song s = Some sg -> appState s <> LEARNING ->
  audioAvailable s = true -> teardownSafe s = true ->
  sg !! skipRests sg 0 = Some n ->
  appState (transition c c' EvToggleLearning s) = LEARNING
  /\ learningNoteIndex (transition c c' EvToggleLearning s) = skipRests sg 0
  /\ isRest n = false
  /\ (forall j m, (j < skipRests sg 0)%nat -> sg !! j = Some m -> isRest m = true)
  /\ highlightedNoteInfo (transition c c' EvToggleLearning s)
     = (Some (note n), Some (startTime n))
  /\ scheduledUiCallbacksRef (transition c c' EvToggleLearning s) = []
  /\ timers (transition c c' EvToggleLearning s)
     = cancelAll (scheduledUiCallbacksRef s) (timers s).
Proof.
  intros Hsong Hst Hav Hsafe Hn. unfold transition. cbn [dispatch].
  rewrite (handleToggleLearning_enter c s sg) by done. cbn [finalState].
  set (X := setAppState LEARNING _).
  destruct (audioReady_set s) as [v Ev].
  assert (appState X = LEARNING /\ learningNoteIndex X = skipRests sg 0
          /\ song X = Some sg /\ scheduledUiCallbacksRef X = []
          /\ timers X = cancelAll (scheduledUiCallbacksRef s) (timers s))
    as (HX1 & HX2 & HX3 & HX4 & HX5).
  { subst X. unfold resetState. rewrite Ev. cbv zeta.
    destruct (_ || _); unfold teardown; proj_simpl; by rewrite Hsong. }
  assert (learningTarget X = Some (Some (note n), Some (startTime n))) as Ht.
  { unfold learningTarget. by rewrite HX1, HX3, HX2, Hn. }
  assert (highlightDeps s <> highlightDeps X) as Hd.
  { unfold highlightDeps. rewrite HX1. congruence. }
  pose proof (commit_learning_highlight 3 c' _ s X Ht (or_introl Hd)) as Hh.
  fold (render c' s X) in Hh.
  destruct (render_not_playing c' s X) as [h E]; [by rewrite HX1|].
  rewrite E in *. unfold syncRefs in *. proj_simpl.
  split; [done|]. split; [done|].
  split; [by apply (skipRests_lookup sg 0)|].
  split; [intros j m; apply skipRests_before|].
  split; [by rewrite Hh|]. done.
Qed.

Lemma C8_learning_starts_on_first_note_witness :
  learningNoteIndex (transition (clockAt 0) (clockAt 0) EvToggleLearning sampleLoaded)
  = skipRests twoRestsThenNote 0.
Proof.
  apply (C8_learning_starts_on_first_note (clockAt 0) (clockAt 0) sampleLoaded
           twoRestsThenNote (MkSongNote "C4" (qz 500) (qz 1000)));
    solve [vm_compute; reflexivity | discriminate].
Defined.

(** ** Completion of a learning run *)

(** What [initializeAudio] and [playNote] leave alone. *)
Definition sameUi (s s' : State) : Prop :=
  timers s' = timers s /\ nextTimerId s' = nextTimerId s
  /\ appState s' = appState s /\ completionMessage s' = completionMessage s
  /\ learningNoteIndex s' = learningNoteIndex s /\ song s' = song s.

Lemma initializeAudio_normal s :
  exists ok s', initializeAudio s = Normal ok s' /\ sameUi s s'.
Proof.
  unfold initializeAudio, sameUi.
  destruct (audioContextRef s) as [ctx|].
  - destruct (ctx_suspended ctx); eexists _, _; (split; [reflexivity|by proj_simpl]).
  - destruct (windowAudioContext s); eexists _, _; (split; [reflexivity|by proj_simpl]).
Qed.

Lemma playNote_normal c n s :
  exists s', playNote c n s = Normal tt s' /\ sameUi s s'.
Proof.
  unfold playNote. destruct (initializeAudio_normal s) as (ok & s1 & E & H).
  unfold bind at 1. rewrite E. unfold bind at 1, gets at 1.
  destruct (_ || _); [by exists s1|]. cbv zeta. unfold bind, modify.
  eexists. split; [reflexivity|]. unfold sameUi in *. by proj_simpl.
Qed.

Lemma timerFires_completion s t :
  findTimer (timer_id t) (timers s) = Some t -> timer_action t = TCompletion ->
  timerFires (timer_id t) s =
  Normal tt
    (setCompletionMessage None
       (setLearningNoteIndex 0
          (setAppState LOADED
             (setTimers (filter (fun t' => timer_id t' <> timer_id t) (timers s)) s)))).
Proof.
  intros Hf Ha. unfold timerFires, bind, gets. rewrite Hf, Ha. reflexivity.
Qed.

(** C3 (as amended): the correct key press that takes the cursor past the
    end of the song sets the completion message and arms a 2000 ms
    timeout, the state staying Learning; when that timeout fires, the
    transport state is Loaded, the completion message is cleared and the
    Learning Cursor is 0. *)
Theorem C3_completion_resets_cursor_to_zero c s sg cur :
  appState s = LEARNING -> song s = Some sg ->
  sg !! learningNoteIndex s = Some cur ->
  (length sg <= skipRests sg (learningNoteIndex s + 1))%nat ->
  (completed (dispatch c (EvNoteDown (note cur)) s) = true
   /\ completionMessage (finalState (dispatch c (EvNoteDown (note cur)) s))
      = Some "Congratulations! You've finished the song!"
   /\ appState (finalState (dispatch c (EvNoteDown (note cur)) s)) = LEARNING
   /\ learningNoteIndex (finalState (dispatch c (EvNoteDown (note cur)) s))
      = learningNoteIndex s
   /\ In (MkTimer (S (nextTimerId s)) (qz 2000) TCompletion)
        (timers (finalState (dispatch c (EvNoteDown (note cur)) s))))
  /\ (forall s2 c2 c2' t,
        findTimer (timer_id t) (timers s2) = Some t -> timer_action t = TCompletion ->
        appState (transition c2 c2' (EvTimer (timer_id t)) s2) = LOADED
        /\ learningNoteIndex (transition c2 c2' (EvTimer (timer_id t)) s2) = 0%nat
        /\ completionMessage (transition c2 c2' (EvTimer (timer_id t)) s2) = None).
Proof.
  intros Hst Hsong Hcur Hend. split.
  - destruct (initializeAudio_normal s) as (ok & s1 & E1 & H1).
    destruct (playNote_normal c (note cur) s1) as (s2 & E2 & H2).
    eassert (dispatch c (EvNoteDown (note cur)) s = Normal tt _) as E.
    { cbn [dispatch]. unfold onNoteDown.
      unfold bind at 1. rewrite E1, Hst, Hsong, Hcur.
      rewrite bool_decide_eq_true_2 by done.
      unfold bind at 1. rewrite E2.
      rewrite (bool_decide_eq_true_2 _ Hend).
      unfold bind, modify, setTimeout, ret. reflexivity. }
    rewrite E. clear E. cbn [completed finalState].
    destruct H1 as (T1 & N1 & A1 & C1 & L1 & S1).
    destruct H2 as (T2 & N2 & A2 & C2 & L2 & S2).
    proj_simpl. repeat split; try congruence.
    rewrite N2, N1. apply in_or_app. right. by left.
  - intros s2 c2 c2' t Hf Ha. unfold transition. cbn [dispatch].
    rewrite timerFires_completion by done. cbn [finalState].
    set (X := setCompletionMessage None _).
    destruct (render_not_playing c2' s2 X) as [h ->]; [subst X; by proj_simpl|].
    unfold syncRefs. subst X. by proj_simpl.
Qed.

(** Learning [restThenNote], the cursor on its only note. *)
Definition learningRestThenNote : State :=
  transition (clockAt 0) (clockAt 0) EvToggleLearning
    (loadedWith standardAudio restThenNote).

Lemma C3_completion_resets_cursor_to_zero_witness :
  completionMessage
    (finalState (dispatch (clockAt 100) (EvNoteDown "C4") learningRestThenNote))
  = Some "Congratulations! You've finished the song!".
Proof.
  destruct (C3_completion_resets_cursor_to_zero (clockAt 100) learningRestThenNote
              restThenNote (MkSongNote "C4" (qz 500) (qz 500)))
    as [(_ & H & _) _]; [vm_compute; reflexivity ..|vm_compute; lia|exact H].
Defined.

(** C3 (as stated) fails: on [restThenNote] the completion timeout leaves
    the cursor on index 0, a rest, while the first note to play is at
    index 1. *)
Lemma C3_cursor_reset_misses_first_note :
  appState lastNotePlayed = LEARNING
  /\ completionMessage lastNotePlayed
     = Some "Congratulations! You've finished the song!"
  /\ map timer_id (timers lastNotePlayed) = [0%nat; 1%nat]
  /\ map timer_action (timers lastNotePlayed) = [TClearCorrect; TCompletion]
  /\ appState (transition (clockAt 2100) (clockAt 2100) (EvTimer 1) lastNotePlayed)
     = LOADED
  /\ learningNoteIndex
       (transition (clockAt 2100) (clockAt 2100) (EvTimer 1) lastNotePlayed) = 0%nat
  /\ skipRests restThenNote 0 = 1%nat
  /\ learningNoteIndex
       (transition (clockAt 2100) (clockAt 2100) (EvTimer 1) lastNotePlayed)
     <> skipRests restThenNote 0.
Proof. repeat split; try (vm_compute; reflexivity). vm_compute. discriminate. Qed.

(** ** A build past the start of every note *)

Lemma Qcltb_lt x y : x < y -> Qcltb x y = true.
Proof.
  intros H. unfold Qcltb. apply Qclt_alt in H.
  change (Qccompare x y = Lt) in H. by rewrite H.
Qed.

Lemma plans_empty_past_starts anchor speed off sg :
  Forall (fun n => startTime n < off) sg ->
  highlightPlan speed off sg = [] /\ tonePlan anchor speed off sg = [].
Proof.
  induction 1 as [|n sg Hn _ IH]; [done|].
  cbn [highlightPlan tonePlan]. by rewrite (Qcltb_lt _ _ Hn).
Qed.

Lemma findTimer_fresh stale t :
  forallb (fun t' => timer_id t' <? timer_id t)%nat stale = true ->
  findTimer (timer_id t) (stale ++ [t]) = Some t.
Proof.
  induction stale as [|t' stale IH]; intros H; cbn [app findTimer].
  - by rewrite bool_decide_eq_true_2.
  - cbn [forallb] in H. apply andb_true_iff in H as [H1 H2].
    apply Nat.ltb_lt in H1. rewrite bool_decide_eq_false_2 by lia. by apply IH.
Qed.

Lemma timerFires_endOfSong s t :
  findTimer (timer_id t) (timers s) = Some t -> timer_action t = TEndOfSong ->
  timerFires (timer_id t) s =
  Normal tt
    (setPlaybackProgress 0
       (setPlaybackProgressRef 0
          (setHighlightedNoteInfo (None, None)
             (setAppState LOADED
                (setTimers (filter (fun t' => timer_id t' <> timer_id t) (timers s))
                   s))))).
Proof.
  intros Hf Ha. unfold timerFires, bind, gets. rewrite Hf, Ha. reflexivity.
Qed.

(** C4 (as amended): a build from an offset past the start of every note
    arms no highlight timeout and allocates no tone source. On a song
    with notes it arms the end-of-song timeout alone, due once the last
    note has run out plus 100 ms, and leaves the transport state as it
    is: the state becomes Loaded when that timeout fires. On a song
    without notes it arms nothing and sets the state to Loaded. *)
Theorem C4_build_past_every_start c r w sg off :
  song r = Some sg -> audioAvailable w = true -> teardownSafe w = true ->
  timersFresh w = true ->
  Forall (fun n => startTime n < off) sg ->
  completed (scheduleSong c r off w) = true
  /\ scheduledNodesRef (finalState (scheduleSong c r off w)) = []
  /\ match last sg with
     | Some lastNote =>
         planTimers (finalState (scheduleSong c r off w))
         = [(endDelay (playbackSpeed r) off lastNote, TEndOfSong)]
         /\ appState (finalState (scheduleSong c r off w)) = appState w
         /\ forall c2 c2',
              appState (transition c2 c2' (EvTimer (nextTimerId w))
                          (finalState (scheduleSong c r off w))) = LOADED
     | None =>
         planTimers (finalState (scheduleSong c r off w)) = []
         /\ appState (finalState (scheduleSong c r off w)) = LOADED
     end.
Proof.
  intros Hsong Hav Hsafe Hfresh Hpast.
  rewrite (scheduleSong_spec c r off sg w); [|done|done|].
  2:{ eapply teardownSafe_stopSafe; [|exact Hsafe]. same_audio. }
  cbn [completed finalState]. split; [done|].
  destruct (plans_empty_past_starts (audioNow c) (playbackSpeed r) off sg Hpast)
    as [Hh Ht].
  split; [by rewrite scheduledNodes_scheduled|].
  pose proof (timersFresh_teardown_audioReady w Hfresh) as HT.
  set (T := teardown (audioReady w)) in *.
  assert (nextTimerId T = nextTimerId w) as HN.
  { subst T. destruct (audioReady_set w) as [v ->]. unfold teardown. by proj_simpl. }
  rewrite planTimers_scheduled by done. unfold timerPlan. rewrite Hh. cbn [app].
  unfold scheduled, timerPlan. rewrite Hh, Ht. cbn [app]. cbv zeta.
  destruct (last sg) as [lastNote|]; cbn [length armTimers fst snd].
  - split; [done|]. split.
    { proj_simpl. subst T. destruct (audioReady_set w) as [v ->]. unfold teardown.
      by proj_simpl. }
    intros c2 c2'. unfold transition. cbn [dispatch]. rewrite <- HN.
    set (t := MkTimer (nextTimerId T) (endDelay (playbackSpeed r) off lastNote)
                TEndOfSong).
    set (S1 := setScheduledUiCallbacksRef _ _).
    change (timerFires (nextTimerId T) S1) with (timerFires (timer_id t) S1).
    rewrite timerFires_endOfSong; [|subst S1; proj_simpl; by apply findTimer_fresh|done].
    cbn [finalState].
    set (X := setPlaybackProgress 0 _).
    destruct (render_not_playing c2' S1 X) as [h ->]; [subst X; by proj_simpl|].
    unfold syncRefs. subst X. by proj_simpl.
  - split; [done|]. by proj_simpl.
Qed.

Lemma C4_build_past_every_start_witness :
  scheduledNodesRef
    (finalState (scheduleSong (clockAt 600) pausedPastStarts (qz 600) pausedPastStarts))
  = [].
Proof.
  destruct (C4_build_past_every_start (clockAt 600) pausedPastStarts pausedPastStarts
              twoNotes (qz 600)) as (_ & H & _);
    [vm_compute; reflexivity ..|repeat constructor|exact H].
Defined.

(** C4 (as stated) fails: [twoNotes], paused at 600 ms, past the start of
    both notes: the build from 600 arms the end-of-song timeout and
    leaves the state as it was, and the resume that runs it ends in
    Playing, not in Loaded. *)
Lemma C4_build_past_starts_stays_playing :
  appState pausedPastStarts = PAUSED
  /\ song pausedPastStarts = Some twoNotes
  /\ playbackProgressRef pausedPastStarts = qz 600
  /\ appState (finalState (scheduleSong (clockAt 600) pausedPastStarts (qz 600)
                             pausedPastStarts)) = PAUSED
  /\ map snd (planTimers
                (finalState (scheduleSong (clockAt 600) pausedPastStarts (qz 600)
                               pausedPastStarts))) = [TEndOfSong]
  /\ appState (transition (clockAt 600) (clockAt 600) EvPlayPause pausedPastStarts)
     = PLAYING
  /\ appState (transition (clockAt 600) (clockAt 600) EvPlayPause pausedPastStarts)
     <> LOADED.
Proof.
  repeat split; try (vm_compute; reflexivity).
  vm_compute. discriminate.
Qed.


(** * Further properties of the engine *)

(** ** The manual note driver ([playNote], [stopNote]) *)

Lemma initializeAudio_manual s :
  exists s', initializeAudio s = Normal (audioAvailable s) s'
             /\ manualNodesRef s' = manualNodesRef s
             /\ activeNotes s' = activeNotes s
             /\ timers s' = timers s
             /\ (audioAvailable s = true -> s' = audioReady s).
Proof.
  unfold initializeAudio, audioAvailable, audioReady.
  destruct (audioContextRef s) as [ctx|].
  - destruct (ctx_suspended ctx); eexists; (split; [reflexivity|by proj_simpl]).
  - destruct (windowAudioContext s); eexists; (split; [reflexivity|by proj_simpl]).
Qed.

Lemma playNote_eq c n s :
  exists s1,
    initializeAudio s = Normal (audioAvailable s) s1
    /\ manualNodesRef s1 = manualNodesRef s
    /\ activeNotes s1 = activeNotes s
    /\ timers s1 = timers s
    /\ (audioAvailable s = true -> s1 = audioReady s)
    /\ playNote c n s =
       if negb (audioAvailable s) || bool_decide (n = "Rest")
          || bool_decide (is_Some (assoc n (manualNodesRef s)))
       then Normal tt s1
       else Normal tt
              (setActiveNotes (activeNotes s1 ∪ {[ n ]})
                 (setManualNodesRef
                    (manualNodesRef s1
                     ++ [(n, MkAudioNodes (frequencyOf n) (audioNow c) None false
                               [SetValueAtTime 0 (audioNow c);
                                LinearRampToValueAtTime (qfrac 1 2)
                                  (audioNow c + qfrac 1 100)])]) s1)).
Proof.
  destruct (initializeAudio_manual s) as (s1 & E & Hm & Ha & Ht & Hr).
  exists s1. repeat split; try done.
  unfold playNote. unfold bind at 1. rewrite E. unfold bind at 1, gets at 1.
  rewrite <- Hm.
  destruct (negb (audioAvailable s) || bool_decide (n = "Rest")
            || bool_decide (is_Some (assoc n (manualNodesRef s1)))); [done|].
  unfold bind, modify. f_equal.
Qed.

(** X1: a key that is already held, and the rest marker, are not sounded
    again: [playNote] returns without a node, without touching the Active
    Notes and without arming anything. *)
Theorem playNote_held_or_rest c n s :
  n = "Rest" \/ is_Some (assoc n (manualNodesRef s)) ->
  completed (playNote c n s) = true
  /\ manualNodesRef (finalState (playNote c n s)) = manualNodesRef s
  /\ activeNotes (finalState (playNote c n s)) = activeNotes s
  /\ timers (finalState (playNote c n s)) = timers s.
Proof.
  intros H. destruct (playNote_eq c n s) as (s1 & _ & Hm & Ha & Ht & _ & ->).
  assert (negb (audioAvailable s) || bool_decide (n = "Rest")
          || bool_decide (is_Some (assoc n (manualNodesRef s))) = true) as ->.
  { destruct H as [H|H]; rewrite (bool_decide_eq_true_2 _ H); by rewrite ?orb_true_r. }
  by cbn [completed finalState].
Qed.

Lemma playNote_held_or_rest_witness :
  manualNodesRef (finalState (playNote (clockAt 0) "Rest" (initialState standardAudio)))
  = manualNodesRef (initialState standardAudio).
Proof.
  destruct (playNote_held_or_rest (clockAt 0) "Rest" (initialState standardAudio))
    as (_ & H & _); [left; reflexivity|exact H].
Defined.

(** X2: without an audio context to be had, a key press only records the
    audio error: no node, no Active Note. *)
Theorem playNote_without_audio c n s :
  audioAvailable s = false ->
  completed (playNote c n s) = true
  /\ manualNodesRef (finalState (playNote c n s)) = manualNodesRef s
  /\ activeNotes (finalState (playNote c n s)) = activeNotes s
  /\ errorInfo (finalState (playNote c n s))
     = Some ("Audio Error", "Web Audio API is not supported in this browser.").
Proof.
  intros Hav. destruct (playNote_eq c n s) as (s1 & E & Hm & Ha & Ht & _ & ->).
  rewrite Hav. cbn [negb orb completed finalState].
  rewrite (initializeAudio_unavailable _ Hav) in E. injection E as _ <-.
  by proj_simpl.
Qed.

Lemma playNote_without_audio_witness :
  activeNotes (finalState (playNote (clockAt 0) "C4" (initialState None)))
  = activeNotes (initialState None).
Proof.
  destruct (playNote_without_audio (clockAt 0) "C4" (initialState None))
    as (_ & _ & H & _); [reflexivity|exact H].
Defined.

Lemma assoc_mapReplace n v l :
  is_Some (assoc n l) -> assoc n (mapReplace n v l) = Some v.
Proof.
  induction l as [|[k w] l IH]; cbn [assoc mapReplace]; [by intros [? ?]|].
  case_bool_decide as Hk.
  - intros _. cbn [assoc]. by rewrite bool_decide_eq_true_2.
  - intros H. cbn [assoc]. rewrite bool_decide_eq_false_2 by done. by apply IH.
Qed.

Lemma oscillatorStop_accepted ctx when n :
  ctx_strictStop ctx = false \/ osc_stop n = None ->
  oscillatorStop ctx when n
  = Some (MkAudioNodes (osc_frequency n) (osc_start n) (Some when) (osc_onended n)
            (gain_events n)).
Proof.
  intros H. unfold oscillatorStop. destruct (osc_stop n); [|done].
  destruct H as [H|H]; [by rewrite H|done].
Qed.

(** The node [stopNote] leaves in the map for a released key. *)
Definition releasedNode (now : Qc) (node : AudioNodes) : AudioNodes :=
  MkAudioNodes (osc_frequency node) (osc_start node) (Some (now + qfrac 1 10)) true
    (filter (fun e => Qcltb (eventTime e) now = true) (gain_events node)
     ++ [HoldValueAtTime now] ++ [LinearRampToValueAtTime 0 (now + qfrac 1 10)]).

Lemma stopNote_accepted c n s ctx node :
  audioContextRef s = Some ctx -> assoc n (manualNodesRef s) = Some node ->
  (ctx_strictStop ctx = false \/ osc_stop node = None) ->
  stopNote c n s =
  Normal tt
    (setActiveNotes (activeNotes s ∖ {[ n ]})
       (setManualNodesRef
          (mapReplace n (releasedNode (audioNow c) node) (manualNodesRef s)) s)).
Proof.
  intros Hctx Hnode Hok. unfold stopNote. unfold bind at 1, gets at 1.
  unfold bind at 1, gets at 1. rewrite Hctx, Hnode. cbv zeta.
  rewrite oscillatorStop_accepted by done.
  unfold bind, modify, releasedNode, setOnended, addGainEvent, cancelScheduledValues.
  cbn [osc_frequency osc_start osc_stop osc_onended gain_events].
  by rewrite <- app_assoc.
Qed.

(** X3: the release of a held key (its stop accepted) takes the key out of
    the Active Notes at once but keeps its node in the map, stop
    requested 100 ms ahead and [onended] installed, until the oscillator
    has ended. Until then a new press of the same key is ignored: no node
    is created and the key does not re-enter the Active Notes. *)
Theorem release_then_press_is_silent c c2 n s ctx node :
  audioContextRef s = Some ctx -> assoc n (manualNodesRef s) = Some node ->
  (ctx_strictStop ctx = false \/ osc_stop node = None) ->
  completed (stopNote c n s) = true
  /\ (n ∉ activeNotes (finalState (stopNote c n s)))
  /\ assoc n (manualNodesRef (finalState (stopNote c n s)))
     = Some (releasedNode (audioNow c) node)
  /\ manualNodesRef (finalState (playNote c2 n (finalState (stopNote c n s))))
     = manualNodesRef (finalState (stopNote c n s))
  /\ activeNotes (finalState (playNote c2 n (finalState (stopNote c n s))))
     = activeNotes (finalState (stopNote c n s)).
Proof.
  intros Hctx Hnode Hok. rewrite (stopNote_accepted c n s ctx node) by done.
  cbn [completed finalState].
  set (s1 := setActiveNotes _ _).
  assert (assoc n (manualNodesRef s1) = Some (releasedNode (audioNow c) node)) as Hheld.
  { subst s1. proj_simpl. apply assoc_mapReplace. by rewrite Hnode. }
  split; [done|].
  split; [subst s1; proj_simpl; apply not_elem_of_difference; right;
          by apply elem_of_singleton|].
  split; [done|].
  destruct (playNote_eq c2 n s1) as (s2 & _ & Hm & Ha & _ & _ & ->).
  rewrite Hheld, (bool_decide_eq_true_2 (is_Some (Some _))) by eauto.
  rewrite orb_true_r. by cbn [finalState].
Qed.

Lemma release_then_press_is_silent_witness :
  completed (stopNote (clockAt 10) "C4"
               (finalState (playNote (clockAt 0) "C4" (initialState standardAudio))))
  = true.
Proof.
  destruct (release_then_press_is_silent (clockAt 10) (clockAt 20) "C4"
              (finalState (playNote (clockAt 0) "C4" (initialState standardAudio)))
              (MkAudioContext false false)
              (MkAudioNodes (frequencyOf "C4") (audioNow (clockAt 0)) None false
                 [SetValueAtTime 0 (audioNow (clockAt 0));
                  LinearRampToValueAtTime (qfrac 1 2)
                    (audioNow (clockAt 0) + qfrac 1 100)]))
    as (H & _); [reflexivity|reflexivity|left; reflexivity|exact H].
Defined.

Lemma mapReplace_fresh n v v' l :
  assoc n l = None -> mapReplace n v' (l ++ [(n, v)]) = l ++ [(n, v')].
Proof.
  induction l as [|[k w] l IH]; cbn [assoc mapReplace app].
  - intros _. by rewrite bool_decide_eq_true_2.
  - case_bool_decide; [done|]. intros Hl. by rewrite IH.
Qed.

Lemma mapDelete_fresh n v l :
  assoc n l = None -> mapDelete n (l ++ [(n, v)]) = l.
Proof.
  unfold mapDelete. induction l as [|[k w] l IH]; cbn [assoc app].
  - intros _. rewrite filter_cons_False; [done|]. cbn. tauto.
  - case_bool_decide as Hk; [done|]. intros Hl.
    rewrite filter_cons_True by (cbn; congruence). by rewrite IH.
Qed.

(** X4: press, release, end of the oscillator: the map of manual nodes is
    back to what it was, whatever the clocks of the three events, and the
    key is out of the Active Notes. Between the release and the end the
    node is still in the map (see the release above). *)
Theorem press_release_end_round_trip c1 c2 n s :
  audioAvailable s = true -> n <> "Rest" -> assoc n (manualNodesRef s) = None ->
  let s1 := finalState (playNote c1 n s) in
  let s2 := finalState (stopNote c2 n s1) in
  let s3 := finalState (oscillatorEnded n s2) in
  completed (stopNote c2 n s1) = true
  /\ manualNodesRef s3 = manualNodesRef s
  /\ activeNotes s3 = activeNotes s ∖ {[ n ]}
  /\ assoc n (manualNodesRef s3) = None.
Proof.
  intros Hav Hn Hfree. cbv zeta.
  destruct (playNote_eq c1 n s) as (s1 & _ & Hm & Ha & _ & Hr & ->).
  specialize (Hr Hav).
  rewrite Hav, Hfree, (bool_decide_eq_false_2 _ Hn).
  rewrite bool_decide_eq_false_2 by (by intros [? ?]).
  cbn [negb orb finalState].
  set (node := MkAudioNodes _ _ _ _ _).
  set (p := setActiveNotes _ _).
  destruct (audioReady_context s Hav) as [ctx Hctx]. rewrite <- Hr in Hctx.
  assert (manualNodesRef p = manualNodesRef s ++ [(n, node)]) as Hp.
  { subst p. proj_simpl. by rewrite Hm. }
  rewrite (stopNote_accepted c2 n p ctx node); [|by subst p; proj_simpl| |by right].
  2:{ rewrite Hp. clear -Hfree. induction (manualNodesRef s) as [|[k w] l IH];
      cbn [assoc app] in *; [by rewrite bool_decide_eq_true_2|].
      case_bool_decide; [done|by apply IH]. }
  cbn [completed finalState]. unfold oscillatorEnded, modify. cbn [finalState].
  proj_simpl. rewrite Hp, (mapReplace_fresh _ _ _ _ Hfree), (mapDelete_fresh _ _ _ Hfree).
  repeat split; [|done]. subst p. proj_simpl. rewrite Ha.
  apply set_eq. intros k. rewrite !elem_of_difference, elem_of_union. tauto.
Qed.

Lemma press_release_end_round_trip_witness :
  manualNodesRef
    (finalState
       (oscillatorEnded "C4"
          (finalState
             (stopNote (clockAt 10) "C4"
                (finalState (playNote (clockAt 0) "C4" (initialState standardAudio)))))))
  = manualNodesRef (initialState standardAudio).
Proof.
  destruct (press_release_end_round_trip (clockAt 0) (clockAt 10) "C4"
              (initialState standardAudio))
    as (_ & H & _); [reflexivity|discriminate|reflexivity|exact H].
Defined.

(** ** The teardown ([stopAllSounds]) whether or not a stop is rejected *)

Lemma cancelAll_filter ids l :
  cancelAll ids l = filter (fun t => timer_id t ∉ ids) l.
Proof.
  revert l. induction ids as [|id ids IH]; intros l; cbn [cancelAll].
  - induction l as [|t l IH]; [done|].
    rewrite filter_cons_True by apply not_elem_of_nil. by rewrite <- IH.
  - rewrite IH, list_filter_filter. apply list_filter_iff. intros t.
    rewrite not_elem_of_cons. tauto.
Qed.

Lemma forEach_stopManualNode_frame c l : forall s,
  exists L, finalState (forEach l (stopManualNode c) s) = setManualNodesRef L s.
Proof.
  induction l as [|e l IH]; intros s.
  - exists (manualNodesRef s). by destruct s.
  - cbn [forEach]. unfold bind at 1. unfold stopManualNode at 1, bind, gets, modify.
    destruct (audioContextRef s) as [ctx|].
    + destruct (snd (fadeAndStop ctx (audioNow c) (snd e))); unfold ret, throw.
      * edestruct IH as [L ->]. exists L. state_eq.
      * cbn [finalState]. by eexists.
    + unfold ret. apply IH.
Qed.

(** The state the first two loops of [stopAllSounds] leave to the loop
    over the manual nodes. *)
Definition planCleared (s : State) : State :=
  setScheduledUiCallbacksRef []
    (setTimers (cancelAll (scheduledUiCallbacksRef s) (timers s))
       (setScheduledNodesRef [] s)).

Lemma stopAllSounds_eq c s :
  stopAllSounds c s
  = match forEach (manualNodesRef s) (stopManualNode c) (planCleared s) with
    | Normal _ w => Normal tt (setActiveNotes ∅ (setManualNodesRef [] w))
    | Thrown w => Thrown w
    end.
Proof.
  unfold stopAllSounds.
  unfold bind at 1. unfold gets at 1.
  unfold bind at 1. rewrite forEach_stopScheduledNode.
  unfold bind at 1. unfold modify at 1.
  unfold bind at 1. unfold gets at 1.
  unfold bind at 1. rewrite forEach_clearTimeout.
  unfold bind at 1. unfold modify at 1.
  unfold bind at 1. unfold gets at 1.
  unfold bind at 1. proj_simpl. fold (planCleared s).
  destruct (forEach (manualNodesRef s) (stopManualNode c) (planCleared s)); reflexivity.
Qed.

Lemma stopAllSounds_final c s :
  exists L,
    finalState (stopAllSounds c s)
    = if completed (stopAllSounds c s)
      then setActiveNotes ∅ (setManualNodesRef [] (planCleared s))
      else setManualNodesRef L (planCleared s).
Proof.
  rewrite stopAllSounds_eq.
  destruct (forEach_stopManualNode_frame c (manualNodesRef s) (planCleared s)) as [L E].
  exists L.
  destruct (forEach (manualNodesRef s) (stopManualNode c) (planCleared s)) as [[] w|w];
    cbn [finalState] in E; subst w; cbn [completed finalState]; [state_eq|reflexivity].
Qed.

(** X5: whether or not a manual stop is rejected, [stopAllSounds] has dropped
    the scheduled nodes and cancelled exactly the timeouts listed in the
    callbacks ref by then: every other pending timeout (the feedback
    pulses, the completion timeout) is still pending. When it raises, the
    Active Notes are left as they were. *)
Theorem stopAllSounds_clears_plan_first c s :
  scheduledNodesRef (finalState (stopAllSounds c s)) = []
  /\ scheduledUiCallbacksRef (finalState (stopAllSounds c s)) = []
  /\ timers (finalState (stopAllSounds c s))
     = filter (fun t => timer_id t ∉ scheduledUiCallbacksRef s) (timers s)
  /\ (completed (stopAllSounds c s) = false ->
      activeNotes (finalState (stopAllSounds c s)) = activeNotes s).
Proof.
  destruct (stopAllSounds_final c s) as [L ->].
  rewrite <- cancelAll_filter.
  destruct (completed (stopAllSounds c s)); unfold planCleared; by proj_simpl.
Qed.

(** X6: [stopAllSounds] writes nothing but the nodes, the callbacks ref, the
    pending timeouts and the Active Notes: the transport state, the song,
    the cursor, the clock refs and the audio context are left alone. *)
Theorem stopAllSounds_writes_only_audio c s :
  let s' := finalState (stopAllSounds c s) in
  appState s' = appState s /\ song s' = song s
  /\ learningNoteIndex s' = learningNoteIndex s
  /\ highlightedNoteInfo s' = highlightedNoteInfo s
  /\ playbackSpeed s' = playbackSpeed s
  /\ playbackProgress s' = playbackProgress s
  /\ playbackProgressRef s' = playbackProgressRef s
  /\ playbackStartTimeRef s' = playbackStartTimeRef s
  /\ audioContextRef s' = audioContextRef s
  /\ errorInfo s' = errorInfo s
  /\ nextTimerId s' = nextTimerId s.
Proof.
  cbv zeta. destruct (stopAllSounds_final c s) as [L ->].
  destruct (completed (stopAllSounds c s)); unfold planCleared; by proj_simpl.
Qed.

Lemma findTimer_filter_out id (P : Timer -> Prop) `{!forall t, Decision (P t)} l :
  (forall t, timer_id t = id -> ~ P t) -> findTimer id (filter P l) = None.
Proof.
  intros Hid. induction l as [|t l IH]; [done|].
  destruct (decide (P t)) as [HP|HP].
  - rewrite filter_cons_True by done. cbn [findTimer].
    rewrite bool_decide_eq_false_2; [done|]. intros E. by apply (Hid t).
  - by rewrite filter_cons_False.
Qed.

(** X7: a timeout of the plan that the teardown cancelled never runs its
    callback: firing its id afterwards changes nothing. *)
Theorem cancelled_timeout_never_fires c s id :
  id ∈ scheduledUiCallbacksRef s ->
  timerFires id (finalState (stopAllSounds c s))
  = Normal tt (finalState (stopAllSounds c s)).
Proof.
  intros Hid. unfold timerFires, bind, gets.
  destruct (stopAllSounds_final c s) as [L ->].
  assert (timers (if completed (stopAllSounds c s)
                  then setActiveNotes ∅ (setManualNodesRef [] (planCleared s))
                  else setManualNodesRef L (planCleared s))
          = filter (fun t => timer_id t ∉ scheduledUiCallbacksRef s) (timers s)) as ->.
  { rewrite <- cancelAll_filter.
    destruct (completed _); unfold planCleared; by proj_simpl. }
  rewrite findTimer_filter_out; [done|]. intros t <- Hn. by apply Hn.
Qed.

Lemma cancelled_timeout_never_fires_witness :
  timerFires 3 (finalState (stopAllSounds (clockAt 5) playingTwoNotes))
  = Normal tt (finalState (stopAllSounds (clockAt 5) playingTwoNotes)).
Proof.
  apply cancelled_timeout_never_fires.
  assert (scheduledUiCallbacksRef playingTwoNotes = [3; 4; 5]%nat) as ->
    by (vm_compute; reflexivity).
  apply list_elem_of_here.
Defined.

(** ** Stop, and a new generation request *)

Lemma teardown_planCleared s :
  teardown s = setActiveNotes ∅ (setManualNodesRef [] (planCleared s)).
Proof. reflexivity. Qed.

(** A render in a transport state other than Playing and Learning, with
    nothing to clear from the highlight, only synchronises the refs. *)
Lemma render_settled c prev cur :
  appState cur <> PLAYING -> appState cur <> LEARNING ->
  highlightedNoteInfo cur = (None, None) \/ appState cur = PAUSED ->
  render c prev cur = syncRefs cur.
Proof.
  intros Hp Hl Hh.
  assert (forall prev, runEffects c prev cur = syncRefs cur) as Hrun.
  { intros p. unfold runEffects. cbv zeta. fold (syncRefs cur).
    rewrite (speedChangeEffect_not_playing _ _ _ Hp). cbn [finalState].
    assert ((if decide (speedDeps p = speedDeps cur) then syncRefs cur else syncRefs cur)
            = syncRefs cur) as -> by (by destruct (decide _)).
    destruct (decide _); [done|].
    unfold learningHighlightEffect.
    destruct Hh as [Hh|Hh].
    - rewrite Hh. destruct (appState cur); try done; by destruct (song cur).
    - rewrite Hh. by destruct (song cur). }
  unfold render. cbn [commit]. rewrite Hrun.
  destruct (decide _) as [|Hn]; [done|]. exfalso. apply Hn.
  unfold speedDeps, highlightDeps, syncRefs. by proj_simpl.
Qed.

Lemma resetPlayback_eq c r w :
  resetPlayback c r w
  = match stopAllSounds c w with
    | Normal _ t =>
        Normal tt
          (let w1 := setPlaybackProgress 0
                       (setPlaybackProgressRef 0
                          (setHighlightedNoteInfo (None, None) t)) in
           if bool_decide (appState r = PLAYING) || bool_decide (appState r = PAUSED)
           then setAppState LOADED w1 else w1)
    | Thrown t => Thrown t
    end.
Proof.
  unfold resetPlayback. unfold bind at 1.
  destruct (stopAllSounds c w) as [[] t|t]; [|done].
  unfold bind, modify. by destruct (_ || _).
Qed.

(** X8: stop, with its render, from Playing or Paused: the transport state is
    Loaded, the shown and the stored progress are 0, nothing is
    highlighted, no plan and no manual note is left, and the song, the
    speed and the cursor are the ones from before. *)
Theorem stop_returns_to_loaded c c' s :
  appState s = PLAYING \/ appState s = PAUSED -> stopSafe s = true ->
  let q := transition c c' EvResetPlayback s in
  appState q = LOADED /\ appStateRef q = LOADED
  /\ playbackProgress q = 0 /\ playbackProgressRef q = 0
  /\ highlightedNoteInfo q = (None, None)
  /\ planTimers q = [] /\ scheduledNodesRef q = []
  /\ manualNodesRef q = [] /\ activeNotes q = ∅
  /\ song q = song s /\ playbackSpeed q = playbackSpeed s
  /\ learningNoteIndex q = learningNoteIndex s.
Proof.
  intros Hst Hsafe. cbv zeta. unfold transition. cbn [dispatch].
  rewrite resetPlayback_spec by done. cbn [finalState]. unfold resetState.
  assert (bool_decide (appState s = PLAYING) || bool_decide (appState s = PAUSED) = true)
    as ->.
  { destruct Hst as [-> | ->]; done. }
  rewrite render_settled; [|by proj_simpl|by proj_simpl|left; by proj_simpl].
  rewrite planTimers_nil by (unfold syncRefs, teardown; by proj_simpl).
  unfold syncRefs, teardown. by proj_simpl.
Qed.

Lemma stop_returns_to_loaded_witness :
  appState (transition (clockAt 300) (clockAt 300) EvResetPlayback playingTwoNotes)
  = LOADED.
Proof.
  destruct (stop_returns_to_loaded (clockAt 300) (clockAt 300) playingTwoNotes)
    as (H & _); [left; reflexivity|reflexivity|exact H].
Defined.

Lemma handleLoad_eq c r w :
  handleLoad c r w
  = match stopAllSounds c (setErrorInfo None (setSong None (setAppState LOADING w))) with
    | Normal _ t =>
        Normal tt
          (setCompletionMessage None
             (let w1 := setPlaybackProgress 0
                          (setPlaybackProgressRef 0
                             (setHighlightedNoteInfo (None, None) t)) in
              if bool_decide (appState r = PLAYING) || bool_decide (appState r = PAUSED)
              then setAppState LOADED w1 else w1))
    | Thrown t => Thrown t
    end.
Proof.
  unfold handleLoad.
  unfold bind at 1. unfold modify at 1.
  unfold bind at 1. unfold modify at 1.
  unfold bind at 1. unfold modify at 1.
  unfold bind at 1. rewrite resetPlayback_eq.
  by destruct (stopAllSounds c _) as [[] t|t].
Qed.

(** X9: a generation request drops the song and the error at once. It shows
    Loading, unless it was made while Playing or Paused and the teardown
    went through: the reset inside writes Loaded after the request wrote
    Loading, so the wait is spent in Loaded with no song. *)
Theorem handleLoad_transport_state c r :
  let q := finalState (handleLoad c r r) in
  song q = None /\ errorInfo q = None
  /\ scheduledNodesRef q = [] /\ scheduledUiCallbacksRef q = []
  /\ appState q
     = if completed (handleLoad c r r)
          && (bool_decide (appState r = PLAYING) || bool_decide (appState r = PAUSED))
       then LOADED else LOADING.
Proof.
  cbv zeta. rewrite handleLoad_eq.
  set (w := setErrorInfo None (setSong None (setAppState LOADING r))).
  destruct (stopAllSounds_final c w) as [L E].
  destruct (stopAllSounds c w) as [[] t|t]; cbn [finalState completed] in *; subst t.
  - cbn [andb]. destruct (_ || _); unfold planCleared, w; by proj_simpl.
  - cbn [andb]. unfold planCleared, w. by proj_simpl.
Qed.

(** X10: with its render, a request made while Playing or Paused leaves the
    component in Loaded, without a song, until the answer arrives. *)
Theorem load_while_playing_shows_loaded c c' s :
  appState s = PLAYING \/ appState s = PAUSED -> stopSafe s = true ->
  let q := transition c c' EvHandleLoad s in
  appState q = LOADED /\ song q = None /\ planTimers q = []
  /\ playbackProgressRef q = 0 /\ completionMessage q = None.
Proof.
  intros Hst Hsafe. cbv zeta. unfold transition. cbn [dispatch].
  rewrite handleLoad_eq.
  set (w := setErrorInfo None (setSong None (setAppState LOADING s))).
  rewrite (stopAllSounds_teardown c w) by (rewrite <- Hsafe; reflexivity).
  cbn [finalState].
  assert (bool_decide (appState s = PLAYING) || bool_decide (appState s = PAUSED) = true)
    as ->.
  { destruct Hst as [-> | ->]; done. }
  rewrite render_settled; [|by proj_simpl|by proj_simpl|left; by proj_simpl].
  rewrite planTimers_nil by (unfold syncRefs, teardown; by proj_simpl).
  unfold syncRefs, teardown, w. by proj_simpl.
Qed.

Lemma load_while_playing_shows_loaded_witness :
  appState (transition (clockAt 300) (clockAt 300) EvHandleLoad playingTwoNotes) = LOADED.
Proof.
  destruct (load_while_playing_shows_loaded (clockAt 300) (clockAt 300) playingTwoNotes)
    as (H & _); [left; reflexivity|reflexivity|exact H].
Defined.

(** ** Key presses while learning ([onNoteDown]) *)

(** What [initializeAudio] leaves alone: everything but the audio context
    and the error. *)
Definition audioOnly (s s' : State) : Prop :=
  sameUi s s' /\ manualNodesRef s' = manualNodesRef s
  /\ activeNotes s' = activeNotes s
  /\ correctPressNote s' = correctPressNote s
  /\ incorrectPressNote s' = incorrectPressNote s
  /\ highlightedNoteInfo s' = highlightedNoteInfo s.

Lemma initializeAudio_audioOnly s :
  exists ok s', initializeAudio s = Normal ok s' /\ audioOnly s s'.
Proof.
  unfold initializeAudio, audioOnly, sameUi.
  destruct (audioContextRef s) as [ctx|].
  - destruct (ctx_suspended ctx); eexists _, _; (split; [reflexivity|by proj_simpl]).
  - destruct (windowAudioContext s); eexists _, _; (split; [reflexivity|by proj_simpl]).
Qed.

(** X11: while learning, a key that is not the target (or any key when the
    cursor is past the end) makes no sound and moves nothing: it sets the
    incorrect-press pulse and arms the 300 ms timeout that clears it. *)
Theorem learning_wrong_key c s sg n :
  appState s = LEARNING -> song s = Some sg ->
  (forall cur, sg !! learningNoteIndex s = Some cur -> n <> note cur) ->
  let q := finalState (onNoteDown c s n s) in
  completed (onNoteDown c s n s) = true
  /\ incorrectPressNote q = Some n
  /\ correctPressNote q = correctPressNote s
  /\ learningNoteIndex q = learningNoteIndex s
  /\ appState q = LEARNING
  /\ manualNodesRef q = manualNodesRef s /\ activeNotes q = activeNotes s
  /\ timers q = timers s ++ [MkTimer (nextTimerId s) (qz 300) TClearIncorrect].
Proof.
  intros Hst Hsong Hn. cbv zeta.
  destruct (initializeAudio_audioOnly s)
    as (ok & s1 & E1 & (T1 & N1 & A1 & C1 & L1 & S1) & M1 & Ac1 & Co1 & In1 & _).
  eassert (onNoteDown c s n s = Normal tt _) as E.
  { unfold onNoteDown. unfold bind at 1. rewrite E1, Hst, Hsong.
    destruct (sg !! learningNoteIndex s) as [cur|] eqn:Hcur.
    - rewrite bool_decide_eq_false_2 by (by apply Hn).
      unfold bind, modify, setTimeout, ret. reflexivity.
    - unfold bind, modify, setTimeout, ret. reflexivity. }
  rewrite E. clear E. cbn [completed finalState]. proj_simpl.
  repeat split; congruence.
Qed.

Lemma learning_wrong_key_witness :
  incorrectPressNote (finalState (onNoteDown (clockAt 50) sampleLearning "D4" sampleLearning))
  = Some "D4".
Proof.
  destruct (learning_wrong_key (clockAt 50) sampleLearning twoRestsThenNote "D4")
    as (_ & H & _);
    [reflexivity|reflexivity|intros cur E; vm_compute in E; injection E as <-; discriminate
    |exact H].
Defined.

Lemma skipRestsFrom_ge l : forall i, (i <= skipRestsFrom l i)%nat.
Proof.
  induction l as [|n l IH]; intros i; cbn [skipRestsFrom]; [lia|].
  destruct (isRest n); [|lia]. specialize (IH (S i)). lia.
Qed.

Lemma skipRests_ge sg i : (i <= skipRests sg i)%nat.
Proof. apply skipRestsFrom_ge. Qed.

Lemma skipRests_between sg i j m :
  (i <= j < skipRests sg i)%nat -> sg !! j = Some m -> isRest m = true.
Proof.
  unfold skipRests. intros Hj Hm.
  apply (skipRestsFrom_before (drop i sg) i j m Hj).
  rewrite lookup_drop. by replace (i + (j - i))%nat with j by lia.
Qed.

(** X12: while learning, the target key, when a note to play is left after it:
    the cursor moves strictly forward onto the next index that holds no
    rest, every index it steps over holding one; the correct-press pulse
    is set and its 300 ms timeout armed; no completion is announced. *)
Theorem learning_right_key_advances c s sg cur :
  appState s = LEARNING -> song s = Some sg ->
  sg !! learningNoteIndex s = Some cur ->
  (skipRests sg (learningNoteIndex s + 1) < length sg)%nat ->
  let q := finalState (onNoteDown c s (note cur) s) in
  completed (onNoteDown c s (note cur) s) = true
  /\ learningNoteIndex q = skipRests sg (learningNoteIndex s + 1)
  /\ (learningNoteIndex s < learningNoteIndex q < length sg)%nat
  /\ (forall j m, (learningNoteIndex s < j < learningNoteIndex q)%nat ->
        sg !! j = Some m -> isRest m = true)
  /\ (forall m, sg !! learningNoteIndex q = Some m -> isRest m = false)
  /\ correctPressNote q = Some (note cur)
  /\ appState q = LEARNING /\ completionMessage q = completionMessage s
  /\ timers q = timers s ++ [MkTimer (nextTimerId s) (qz 300) TClearCorrect].
Proof.
  intros Hst Hsong Hcur Hnext. cbv zeta.
  destruct (initializeAudio_normal s) as (ok & s1 & E1 & H1).
  destruct (playNote_normal c (note cur) s1) as (s2 & E2 & H2).
  eassert (onNoteDown c s (note cur) s = Normal tt _) as E.
  { unfold onNoteDown.
    unfold bind at 1. rewrite E1, Hst, Hsong, Hcur.
    rewrite bool_decide_eq_true_2 by done.
    unfold bind at 1. rewrite E2.
    rewrite bool_decide_eq_false_2 by lia.
    unfold bind, modify, setTimeout, ret. reflexivity. }
  rewrite E. clear E. cbn [completed finalState].
  destruct H1 as (T1 & N1 & A1 & C1 & L1 & S1).
  destruct H2 as (T2 & N2 & A2 & C2 & L2 & S2).
  proj_simpl.
  pose proof (skipRests_ge sg (learningNoteIndex s + 1)) as Hge.
  repeat split; try congruence; try lia.
  - intros j m Hj Hm.
    apply (skipRests_between sg (learningNoteIndex s + 1) j m); [lia|done].
  - intros m. apply skipRests_lookup.
Qed.

Lemma learning_right_key_advances_witness :
  learningNoteIndex
    (finalState (onNoteDown (clockAt 50)
                   (setLearningNoteIndex 0
                      (setAppState LEARNING (loadedWith standardAudio twoNotes)))
                   "C4"
                   (setLearningNoteIndex 0
                      (setAppState LEARNING (loadedWith standardAudio twoNotes)))))
  = 1%nat.
Proof.
  destruct (learning_right_key_advances (clockAt 50)
              (setLearningNoteIndex 0
                 (setAppState LEARNING (loadedWith standardAudio twoNotes)))
              twoNotes (MkSongNote "C4" (qz 500) (qz 0)))
    as (_ & H & _);
    [reflexivity|reflexivity|reflexivity|vm_compute; lia|exact H].
Defined.

(** ** The learning toggle at its edges ([handleToggleLearning]) *)

(** X13: without a song the toggle does nothing at all; without an audio
    context to be had it only records the audio error. In both cases the
    component does not enter Learning mode and nothing is torn down. *)
Theorem learning_needs_song_and_audio c s :
  appState s <> LEARNING -> song s = None \/ audioAvailable s = false ->
  let q := finalState (handleToggleLearning c s s) in
  completed (handleToggleLearning c s s) = true
  /\ appState q = appState s /\ learningNoteIndex q = learningNoteIndex s
  /\ timers q = timers s /\ manualNodesRef q = manualNodesRef s
  /\ scheduledNodesRef q = scheduledNodesRef s
  /\ (song s = None -> q = s).
Proof.
  intros Hst H. cbv zeta. unfold handleToggleLearning.
  rewrite bool_decide_eq_false_2 by done.
  destruct (song s) as [sg|] eqn:Hsong; [|done].
  destruct H as [H|H]; [done|].
  unfold bind. rewrite (initializeAudio_unavailable _ H). cbn [negb ret completed finalState].
  proj_simpl. by repeat split.
Qed.

Lemma learning_needs_song_and_audio_witness :
  appState (finalState (handleToggleLearning (clockAt 0) (initialState standardAudio)
                          (initialState standardAudio)))
  = appState (initialState standardAudio).
Proof.
  destruct (learning_needs_song_and_audio (clockAt 0) (initialState standardAudio))
    as (_ & H & _); [discriminate|left; reflexivity|exact H].
Defined.

(** X14: leaving Learning mode, with its render: Loaded, the cursor back at 0,
    nothing highlighted. Nothing is torn down: a held key keeps sounding
    and every pending timeout (a feedback pulse, the completion timeout)
    stays pending. *)
Theorem leaving_learning_keeps_sounds_and_timeouts c c' s :
  appState s = LEARNING ->
  let q := transition c c' EvToggleLearning s in
  appState q = LOADED /\ learningNoteIndex q = 0%nat
  /\ highlightedNoteInfo q = (None, None)
  /\ timers q = timers s /\ manualNodesRef q = manualNodesRef s
  /\ activeNotes q = activeNotes s /\ song q = song s
  /\ completionMessage q = completionMessage s.
Proof.
  intros Hst. cbv zeta. unfold transition. cbn [dispatch].
  unfold handleToggleLearning. rewrite bool_decide_eq_true_2 by done.
  unfold bind, modify. cbn [finalState].
  rewrite render_settled; [|by proj_simpl|by proj_simpl|left; by proj_simpl].
  unfold syncRefs. by proj_simpl.
Qed.

Lemma leaving_learning_keeps_sounds_and_timeouts_witness :
  appState (transition (clockAt 50) (clockAt 50) EvToggleLearning sampleLearning) = LOADED.
Proof.
  destruct (leaving_learning_keeps_sounds_and_timeouts (clockAt 50) (clockAt 50)
              sampleLearning) as (H & _); [reflexivity|exact H].
Defined.

(** ** Play and speed changes, with their renders *)

Lemma handlePlayPause_play c s sg :
  appState s <> PLAYING -> song s = Some sg ->
  audioAvailable s = true -> teardownSafe s = true ->
  handlePlayPause c s s =
  Normal tt (setAppState PLAYING
               (scheduled c s
                  (if bool_decide (appState s = PAUSED) then playbackProgressRef s else 0)
                  sg
                  (teardown (audioReady (setPlaybackStartTimeRef (perfNow c) s))))).
Proof.
  intros Hst Hsong Hav Hsafe. unfold handlePlayPause.
  rewrite bool_decide_eq_false_2 by done.
  unfold bind at 1. unfold modify at 1.
  unfold bind at 1. unfold gets at 1. proj_simpl.
  unfold bind at 1. rewrite (scheduleSong_spec c s _ sg); [reflexivity|done| |].
  - rewrite <- Hav. apply audioAvailable_same. same_audio.
  - eapply teardownSafe_stopSafe; [|exact Hsafe]. same_audio.
Qed.

(** The state a render leaves that rebuilds the plan of the playing
    render [cur]. *)
Lemma render_playing_plan c prev cur sg :
  appState cur = PLAYING -> song cur = Some sg -> sg <> [] ->
  audioAvailable cur = true -> teardownSafe cur = true -> timersFresh cur = true ->
  speedDeps prev <> speedDeps cur ->
  let off := elapsedAt (perfNow c) cur cur in
  let q := render c prev cur in
  appState q = PLAYING /\ appStateRef q = PLAYING
  /\ playbackSpeed q = playbackSpeed cur /\ playbackSpeedRef q = playbackSpeed cur
  /\ playbackProgressRef q = off /\ playbackStartTimeRef q = perfNow c
  /\ planTimers q = timerPlan (playbackSpeed cur) off sg
  /\ scheduledNodesRef q = tonePlan (audioNow c) (playbackSpeed cur) off sg
  /\ manualNodesRef q = [] /\ activeNotes q = ∅ /\ song q = Some sg.
Proof.
  intros Hst Hsong Hne Hav Hsafe Hfresh Hdeps. cbv zeta.
  rewrite (render_playing c prev cur sg) by done.
  set (off := elapsedAt (perfNow c) cur cur).
  set (T := teardown (audioReady (setPlaybackProgressRef off
                                    (setPlaybackStartTimeRef (perfNow c) (syncRefs cur))))).
  assert (timersFresh T = true) as HT.
  { subst T. apply timersFresh_teardown_audioReady.
    rewrite <- Hfresh. by apply timersFresh_same. }
  rewrite planTimers_scheduled, scheduledNodes_scheduled by done.
  destruct (scheduled_set c cur off sg T) as (st & -> & Hstate).
  rewrite (Hstate Hne). subst T.
  destruct (audioReady_set (setPlaybackProgressRef off
                              (setPlaybackStartTimeRef (perfNow c) (syncRefs cur))))
    as [v ->].
  unfold teardown, syncRefs. proj_simpl. by rewrite Hst, Hsong.
Qed.

Lemma Qcltb_false x y : Qcltb x y = false -> y <= x.
Proof.
  unfold Qcltb. intros H. apply Qcnot_lt_le. intros Hlt.
  apply Qclt_alt in Hlt. change (Qccompare x y = Lt) in Hlt. by rewrite Hlt in H.
Qed.

Lemma highlightPlan_elem speed off l d a :
  (d, a) ∈ highlightPlan speed off l ->
  exists n, n ∈ l /\ a = THighlight n /\ d = highlightDelay speed off n
            /\ off <= startTime n.
Proof.
  induction l as [|n l IH]; cbn [highlightPlan]; [by intros ?%elem_of_nil|].
  destruct (Qcltb (startTime n) off) eqn:E.
  - intros (m & ? & ?)%IH. exists m. split; [by apply list_elem_of_further|done].
  - intros [[= -> ->]|(m & ? & ?)%IH]%elem_of_cons.
    + exists n. split; [apply list_elem_of_here|]. by split; [|split; [|apply Qcltb_false]].
    + exists m. split; [by apply list_elem_of_further|done].
Qed.

Lemma timerPlan_highlight speed off sg d n :
  (d, THighlight n) ∈ timerPlan speed off sg ->
  n ∈ sg /\ d = highlightDelay speed off n /\ off <= startTime n.
Proof.
  unfold timerPlan. intros [H|H]%elem_of_app.
  - apply highlightPlan_elem in H as (m & ? & [= <-] & ? & ?). done.
  - destruct (last sg); [|by apply elem_of_nil in H].
    by apply list_elem_of_singleton in H.
Qed.

(** X15: play from any state but Playing, with its render: the offset the
    callback passes (0 unless Paused) does not last, because the effect of
    the render rebuilds the plan from the stored progress plus the play
    time between the callback and the render. A note gets a highlight
    timeout in the plan left only when it starts at or after that
    offset. *)
Theorem play_builds_from_stored_progress c c' p sg :
  appState p <> PLAYING -> song p = Some sg -> sg <> [] ->
  audioAvailable p = true -> teardownSafe p = true -> timersFresh p = true ->
  let off := playbackProgressRef p + (perfNow c' - perfNow c) * playbackSpeed p in
  let q := transition c c' EvPlayPause p in
  appState q = PLAYING
  /\ playbackProgressRef q = off /\ playbackStartTimeRef q = perfNow c'
  /\ planTimers q = timerPlan (playbackSpeed p) off sg
  /\ scheduledNodesRef q = tonePlan (audioNow c') (playbackSpeed p) off sg
  /\ (forall d n, (d, THighlight n) ∈ planTimers q -> off <= startTime n).
Proof.
  intros Hst Hsong Hne Hav Hsafe Hfresh. cbv zeta.
  unfold transition. cbn [dispatch].
  rewrite (handlePlayPause_play c p sg) by done. cbn [finalState].
  set (off0 := if bool_decide (appState p = PAUSED) then playbackProgressRef p else 0).
  set (T := teardown (audioReady (setPlaybackStartTimeRef (perfNow c) p))).
  destruct (scheduled_set c p off0 sg T) as (st & EQ & Hstate).
  destruct (audioReady_set (setPlaybackStartTimeRef (perfNow c) p)) as [v Ev].
  assert (timersFresh T = true) as HT.
  { subst T. apply timersFresh_teardown_audioReady.
    rewrite <- Hfresh. by apply timersFresh_same. }
  set (Qd := setAppState PLAYING (scheduled c p off0 sg T)).
  assert (appState Qd = PLAYING) as HQst by reflexivity.
  assert (song Qd = Some sg /\ playbackSpeed Qd = playbackSpeed p
          /\ playbackProgressRef Qd = playbackProgressRef p
          /\ playbackStartTimeRef Qd = perfNow c
          /\ manualNodesRef Qd = []
          /\ windowAudioContext Qd = windowAudioContext p
          /\ audioContextRef Qd = v) as (HQ1 & HQ2 & HQ3 & HQ4 & HQ5 & HQ6 & HQ7).
  { subst Qd T. rewrite EQ, Ev. unfold teardown. proj_simpl. by rewrite Hsong. }
  assert (audioAvailable Qd = true) as HQav.
  { unfold audioAvailable. rewrite HQ7.
    assert (audioContextRef (audioReady (setPlaybackStartTimeRef (perfNow c) p)) = v)
      as <- by (by rewrite Ev).
    rewrite bool_decide_eq_true_2; [done|]. apply audioReady_context.
    rewrite <- Hav. apply audioAvailable_same. same_audio. }
  assert (teardownSafe Qd = true) as HQsafe.
  { unfold teardownSafe, noPendingRelease. rewrite HQ5. apply orb_true_r. }
  assert (timersFresh Qd = true) as HQfresh.
  { subst Qd. erewrite timersFresh_same; [by apply timersFresh_scheduled|done|done]. }
  destruct (render_playing_plan c' p Qd sg)
    as (R1 & _ & _ & _ & R2 & R3 & R4 & R5 & _); try done.
  { unfold speedDeps. rewrite HQst. intros [= _ E _]. by apply Hst. }
  unfold elapsedAt in *. rewrite HQ2, HQ3, HQ4 in *.
  repeat split; try done.
  intros d n Hd. rewrite R4 in Hd. by apply timerPlan_highlight in Hd as (_ & _ & ?).
Qed.

Lemma play_builds_from_stored_progress_witness :
  appState (transition (clockAt 0) (clockAt 20) EvPlayPause
              (loadedWith standardAudio twoNotes)) = PLAYING.
Proof.
  destruct (play_builds_from_stored_progress (clockAt 0) (clockAt 20)
              (loadedWith standardAudio twoNotes) twoNotes)
    as (H & _);
    [discriminate|reflexivity|discriminate|reflexivity|reflexivity|reflexivity|exact H].
Defined.

(** X16: a speed change while Playing, with its render: the plan is rebuilt at
    the new speed from an offset that rates the whole interval since the
    anchor at the new speed, and the anchor moves to the render. *)
Theorem speed_change_rebuilds_plan c c' s sg v :
  appState s = PLAYING -> song s = Some sg -> sg <> [] ->
  audioAvailable s = true -> teardownSafe s = true -> timersFresh s = true ->
  v <> playbackSpeed s ->
  let off := playbackProgressRef s + (perfNow c' - playbackStartTimeRef s) * v in
  let q := transition c c' (EvSetPlaybackSpeed v) s in
  appState q = PLAYING /\ playbackSpeed q = v /\ playbackSpeedRef q = v
  /\ playbackProgressRef q = off /\ playbackStartTimeRef q = perfNow c'
  /\ planTimers q = timerPlan v off sg
  /\ scheduledNodesRef q = tonePlan (audioNow c') v off sg
  /\ manualNodesRef q = [] /\ activeNotes q = ∅.
Proof.
  intros Hst Hsong Hne Hav Hsafe Hfresh Hv. cbv zeta.
  unfold transition. cbn [dispatch modify finalState].
  destruct (render_playing_plan c' s (setPlaybackSpeed v s) sg)
    as (R1 & _ & R2 & R3 & R4 & R5 & R6 & R7 & R8 & R9 & _);
    [done|done|done|done|done|done| |].
  - unfold speedDeps. proj_simpl. intros [= E]. by apply Hv.
  - unfold elapsedAt in *. proj_simpl. by repeat split.
Qed.

Lemma speed_change_rebuilds_plan_witness :
  playbackSpeed (transition (clockAt 1000) (clockAt 1000)
                   (EvSetPlaybackSpeed (qfrac 1 2)) playingTwoNotes) = qfrac 1 2.
Proof.
  destruct (speed_change_rebuilds_plan (clockAt 1000) (clockAt 1000)
              playingTwoNotes twoNotes (qfrac 1 2))
    as (_ & H & _);
    [reflexivity|reflexivity|discriminate|reflexivity|reflexivity|reflexivity
    |intros E; apply (f_equal this) in E; vm_compute in E; discriminate|exact H].
Defined.

(** ** The plan a build leaves ([scheduleSong]) *)

Lemma highlightPlan_filter speed off l :
  highlightPlan speed off l
  = map (fun n => (highlightDelay speed off n, THighlight n))
      (List.filter (fun n => negb (Qcltb (startTime n) off)) l).
Proof.
  induction l as [|n l IH]; [done|]. cbn [highlightPlan List.filter].
  destruct (Qcltb (startTime n) off); cbn [negb map]; by rewrite IH.
Qed.

Lemma tonePlan_filter anchor speed off l :
  tonePlan anchor speed off l
  = map (toneSource anchor speed off)
      (List.filter (fun n => negb (Qcltb (startTime n) off) && negb (isRest n)) l).
Proof.
  induction l as [|n l IH]; [done|]. cbn [tonePlan List.filter].
  destruct (Qcltb (startTime n) off); cbn [negb andb]; [done|].
  destruct (isRest n); cbn [negb map]; by rewrite IH.
Qed.

(** X17: a build that is not held up (song present, audio available, teardown
    not rejected) leaves, in song order, one highlight timeout for every
    note that starts at or after the offset, rests included, one tone
    source for every such note that is not a rest, and one end-of-song
    timeout when the song has a note. The manual notes are gone. *)
Theorem scheduleSong_plan_shape c r off sg w :
  song r = Some sg -> audioAvailable w = true ->
  stopSafe (audioReady w) = true -> timersFresh w = true ->
  let q := finalState (scheduleSong c r off w) in
  completed (scheduleSong c r off w) = true
  /\ scheduledNodesRef q
     = map (toneSource (audioNow c) (playbackSpeed r) off)
         (List.filter (fun n => negb (Qcltb (startTime n) off) && negb (isRest n)) sg)
  /\ planTimers q
     = map (fun n => (highlightDelay (playbackSpeed r) off n, THighlight n))
         (List.filter (fun n => negb (Qcltb (startTime n) off)) sg)
       ++ match last sg with
          | Some lastNote => [(endDelay (playbackSpeed r) off lastNote, TEndOfSong)]
          | None => []
          end
  /\ length (scheduledUiCallbacksRef q) = length (planTimers q)
  /\ manualNodesRef q = [] /\ activeNotes q = ∅.
Proof.
  intros Hsong Hav Hsafe Hfresh. cbv zeta.
  rewrite (scheduleSong_spec c r off sg w) by done. cbn [completed finalState].
  assert (timersFresh (teardown (audioReady w)) = true) as HT
    by (by apply timersFresh_teardown_audioReady).
  rewrite planTimers_scheduled, scheduledNodes_scheduled by done.
  rewrite tonePlan_filter. unfold timerPlan. rewrite highlightPlan_filter.
  destruct (scheduled_set c r off sg (teardown (audioReady w))) as (st & -> & _).
  unfold timerPlan. rewrite highlightPlan_filter.
  unfold teardown. proj_simpl. by rewrite length_seq.
Qed.

Lemma scheduleSong_plan_shape_witness :
  completed (scheduleSong (clockAt 0) (loadedWith standardAudio restThenNote) (qz 100)
               (loadedWith standardAudio restThenNote)) = true.
Proof.
  destruct (scheduleSong_plan_shape (clockAt 0) (loadedWith standardAudio restThenNote)
              (qz 100) restThenNote (loadedWith standardAudio restThenNote))
    as (H & _); [reflexivity|reflexivity|reflexivity|reflexivity|exact H].
Defined.

Lemma Qcdiv_nonneg x y : 0 <= x -> 0 < y -> 0 <= x / y.
Proof.
  intros Hx Hy. apply (Qcmult_lt_0_le_reg_r _ _ y Hy).
  assert (y <> 0) as Hne.
  { intros ->. by apply Qclt_not_le in Hy. }
  replace (0 * y) with 0 by ring. replace (x / y * y) with x by (field; done). done.
Qed.

Lemma Qcle_minus_nonneg x y : x <= y -> 0 <= y - x.
Proof.
  intros H. replace 0 with (x + - x) by ring. unfold Qcminus.
  apply Qcplus_le_compat; [done|apply Qcle_refl].
Qed.

Lemma tonePlan_elem anchor speed off l node :
  node ∈ tonePlan anchor speed off l ->
  exists n, n ∈ l /\ node = toneSource anchor speed off n
            /\ isRest n = false /\ off <= startTime n.
Proof.
  induction l as [|n l IH]; cbn [tonePlan]; [by intros ?%elem_of_nil|].
  destruct (Qcltb (startTime n) off) eqn:E.
  - intros (m & ? & ?)%IH. exists m. split; [by apply list_elem_of_further|done].
  - destruct (isRest n) eqn:Er.
    + intros (m & ? & ?)%IH. exists m. split; [by apply list_elem_of_further|done].
    + intros [->|(m & ? & ?)%IH]%elem_of_cons.
      * exists n. split; [apply list_elem_of_here|].
        by split; [|split; [|apply Qcltb_false]].
      * exists m. split; [by apply list_elem_of_further|done].
Qed.

(** X18: at a positive speed a build plans nothing in the past: every tone
    source belongs to a note of the song that is not a rest, starts at or
    after the audio clock of the build, [(startTime - offset) / speed]
    milliseconds after it, and is stopped [duration / speed] milliseconds
    after its start; every highlight timeout is due [(startTime - offset)
    / speed] milliseconds after the build, never before it. *)
Theorem scheduleSong_nothing_in_the_past c r off sg w :
  song r = Some sg -> audioAvailable w = true ->
  stopSafe (audioReady w) = true -> timersFresh w = true ->
  0 < playbackSpeed r ->
  let q := finalState (scheduleSong c r off w) in
  (forall node, node ∈ scheduledNodesRef q ->
     exists n, n ∈ sg /\ isRest n = false
       /\ osc_frequency node = frequencyOf (note n)
       /\ osc_start node
          = audioNow c + (startTime n - off) / playbackSpeed r / qz 1000
       /\ audioNow c <= osc_start node
       /\ osc_stop node
          = Some (osc_start node + duration n / playbackSpeed r / qz 1000))
  /\ (forall d n, (d, THighlight n) ∈ planTimers q ->
        n ∈ sg /\ d = (startTime n - off) / playbackSpeed r /\ 0 <= d).
Proof.
  intros Hsong Hav Hsafe Hfresh Hspeed. cbv zeta.
  rewrite (scheduleSong_spec c r off sg w) by done. cbn [finalState].
  assert (timersFresh (teardown (audioReady w)) = true) as HT
    by (by apply timersFresh_teardown_audioReady).
  rewrite planTimers_scheduled, scheduledNodes_scheduled by done.
  assert (playbackSpeed r <> 0) as Hne.
  { intros E. rewrite E in Hspeed. by apply Qclt_not_le in Hspeed. }
  pose proof qz_1000_nonzero as H1000.
  assert (0 < qz 1000) as Hpos by done.
  split.
  - intros node (n & Hn & -> & Hrest & Hoff)%tonePlan_elem.
    exists n. unfold toneSource.
    cbn [osc_frequency osc_start osc_stop]. repeat split; try done.
    + f_equal. field. by split.
    + replace (audioNow c) with (audioNow c + 0) at 1 by ring.
      apply Qcplus_le_compat; [apply Qcle_refl|].
      apply Qcdiv_nonneg; [by apply Qcle_minus_nonneg|].
      replace 0 with (0 * playbackSpeed r) by ring.
      by apply Qcmult_lt_compat_r.
    + do 2 f_equal. field. by split.
  - intros d n (Hn & -> & Hoff)%timerPlan_highlight.
    assert (highlightDelay (playbackSpeed r) off n = (startTime n - off) / playbackSpeed r)
      as -> by (unfold highlightDelay; field; by split).
    repeat split; [done|]. apply Qcdiv_nonneg; [by apply Qcle_minus_nonneg|done].
Qed.

Lemma scheduleSong_nothing_in_the_past_witness :
  match planTimers (finalState (scheduleSong (clockAt 0)
                                  (loadedWith standardAudio restThenNote) (qz 100)
                                  (loadedWith standardAudio restThenNote))) with
  | (d, THighlight _) :: _ => 0 <= d
  | _ => True
  end.
Proof.
  destruct (scheduleSong_nothing_in_the_past (clockAt 0)
              (loadedWith standardAudio restThenNote) (qz 100) restThenNote
              (loadedWith standardAudio restThenNote))
    as (_ & Hd); [reflexivity|reflexivity|reflexivity|reflexivity|reflexivity|].
  destruct (planTimers _) as [|[d [n| | | |]] l]; try exact I.
  destruct (Hd d n (list_elem_of_here _ _)) as (_ & _ & H). exact H.
Defined.

(** ** The note-generation boundary, beyond emptiness *)

Lemma isValidStructure_fields n :
  isValidStructure n = true ->
  exists fields s d t,
    n = JObject fields /\ assoc "note" fields = Some (JString s)
    /\ assoc "duration" fields = Some (JNumber d)
    /\ assoc "startTime" fields = Some (JNumber t).
Proof.
  unfold isValidStructure. intros H.
  repeat (case_match; try discriminate). subst. by eexists _, _, _, _.
Qed.

(** X19: the first version of [getSongNotes] delivers an array only from a
    text answer, and only when every element is an object whose [note] is
    a string and whose [duration] and [startTime] are numbers. *)
Theorem getSongNotes1_validates_every_note B resp notes :
  getSongNotes1 B resp = Returned (Some notes) ->
  (exists text, resp = RespText text)
  /\ Forall (fun n =>
               exists fields s d t,
                 n = JObject fields /\ assoc "note" fields = Some (JString s)
                 /\ assoc "duration" fields = Some (JNumber d)
                 /\ assoc "startTime" fields = Some (JNumber t)) notes.
Proof.
  unfold getSongNotes1. intros H.
  destruct resp as [text|isError message]; [|by destruct (_ && _)].
  split; [by eexists|].
  repeat (case_match; try discriminate). injection H as <-.
  apply Forall_forall. intros x Hx. apply isValidStructure_fields.
  match goal with
  | Hall : forallb isValidStructure _ = true |- _ =>
      rewrite forallb_forall in Hall; apply Hall
  end.
  by apply list_elem_of_In.
Qed.

Lemma getSongNotes1_validates_every_note_witness :
  exists text, RespText "[song]" = RespText text.
Proof.
  destruct (getSongNotes1_validates_every_note sampleBuiltins (RespText "[song]")
              match sampleJson with JArray l => l | _ => [] end) as (H & _);
    [reflexivity|exact H].
Defined.

Lemma hasNoteKeys_in n : hasNoteKeys n = true -> jsIn "note" n = Some true.
Proof.
  unfold hasNoteKeys, jsIn. destruct n; try discriminate.
  intros H. apply andb_true_iff in H as [H _]. apply andb_true_iff in H as [H _].
  by rewrite H.
Qed.

Lemma forallb_hasNoteKeys_head l :
  bool_decide (0 < length l)%nat && forallb hasNoteKeys l = true ->
  exists first rest, l = first :: rest /\ jsIn "note" first = Some true.
Proof.
  intros [Hlen Hall]%andb_true_iff. destruct l as [|first rest]; [done|].
  exists first, rest. split; [done|]. cbn [forallb] in Hall.
  apply andb_true_iff in Hall as [Hfirst _]. by apply hasNoteKeys_in.
Qed.

Lemma extractNotes_head B text notes :
  extractNotes B text = Returned (Some notes) ->
  exists first rest, notes = first :: rest /\ jsIn "note" first = Some true.
Proof.
  unfold extractNotes. intros H.
  repeat (case_match; try discriminate); injection H as <-;
    by apply forallb_hasNoteKeys_head.
Qed.

Lemma extractNotes_resolves B text : exists r, extractNotes B text = Returned r.
Proof. unfold extractNotes. repeat case_match; by eexists. Qed.

(** X20: the second version of [getSongNotes] never rethrows, so a request
    through it never ends in the configuration error; and the array it
    delivers has a first element that is an object with a [note] key.
    (Only the first element is looked at when the text parses directly.) *)
Theorem getSongNotes2_checks_the_first_note B resp :
  (exists r, getSongNotes2 B resp = Returned r)
  /\ toOutcome B (getSongNotes2 B resp) <> Rejected
  /\ (forall notes, getSongNotes2 B resp = Returned (Some notes) ->
        exists first rest, notes = first :: rest /\ jsIn "note" first = Some true).
Proof.
  assert (exists r, getSongNotes2 B resp = Returned r) as Hres.
  { unfold getSongNotes2. repeat case_match; try apply extractNotes_resolves; by eexists. }
  split; [exact Hres|]. split.
  - destruct Hres as [[l|] ->]; discriminate.
  - intros notes. unfold getSongNotes2.
    repeat case_match; try discriminate; try apply extractNotes_head.
    intros [= <-]. by eexists _, _.
Qed.

(** X21: what a request ends in, through the first version of the service: the
    configuration error exactly when the generation call threw an [Error]
    whose message matches the configuration pattern; the generation
    failure for every other answer without a valid array; and for an
    array the song, Loaded, the error untouched. Neither failure touches
    the song. *)
Theorem load_outcomes B resp k s :
  let o := toOutcome B (getSongNotes1 B resp) in
  let q := finalState (handleLoadSettled k o s) in
  (o = Rejected <->
   exists m, resp = RespThrown true m /\ isConfigError B m = true)
  /\ (o = Rejected ->
      appState q = ERROR /\ fst <$> errorInfo q = Some "Configuration Error"
      /\ song q = song s)
  /\ (o = Resolved None ->
      appState q = ERROR /\ fst <$> errorInfo q = Some "Generation Failed"
      /\ song q = song s)
  /\ (forall notes, o = Resolved (Some notes) ->
        appState q = LOADED /\ song q = Some notes /\ errorInfo q = errorInfo s).
Proof.
  cbv zeta. split; [|split; [|split]].
  - split.
    + unfold toOutcome. destruct (getSongNotes1 B resp) as [[l|]|m] eqn:E;
        try discriminate. intros _. unfold getSongNotes1 in E.
      destruct resp as [text|isError message].
      * repeat (case_match; try discriminate).
      * destruct isError; cbn [andb] in E; [|discriminate].
        destruct (isConfigError B message) eqn:Ec; [|discriminate]. by exists message.
    + intros (m & -> & Hm). cbn. by rewrite Hm.
  - intros ->. by cbn.
  - intros ->. by cbn.
  - intros notes ->. by cbn.
Qed.

(** ** The animation frame ([animationLoop]) *)

(** X22: a frame writes the shown progress and nothing else, and only while
    the state ref says Playing. The progress it shows is the stored one at
    the anchor instant and, at a speed that is not negative, never goes
    back from one frame to a later one. *)
Theorem animation_frames_advance c1 c2 s :
  perfNow c1 <= perfNow c2 -> 0 <= playbackSpeedRef s ->
  let q1 := finalState (animationLoop c1 s) in
  let q2 := finalState (animationLoop c2 s) in
  (appStateRef s <> PLAYING -> q1 = s)
  /\ (appStateRef s = PLAYING ->
      q1 = setPlaybackProgress (derivedElapsed (perfNow c1) s) s
      /\ playbackProgress q1 <= playbackProgress q2
      /\ (perfNow c1 = playbackStartTimeRef s ->
          playbackProgress q1 = playbackProgressRef s)).
Proof.
  intros Hc Hs. cbv zeta. unfold animationLoop, bind, gets, modify. split.
  - intros H. by rewrite bool_decide_eq_false_2.
  - intros H. rewrite bool_decide_eq_true_2 by done. cbn [finalState]. proj_simpl.
    split; [done|]. unfold derivedElapsed. split.
    + apply Qcplus_le_compat; [apply Qcle_refl|].
      apply Qcmult_le_compat_r; [|done].
      unfold Qcminus. apply Qcplus_le_compat; [done|apply Qcle_refl].
    + intros ->. ring.
Qed.

Lemma animation_frames_advance_witness :
  playbackProgress (finalState (animationLoop (clockAt 100) playingTwoNotes))
  <= playbackProgress (finalState (animationLoop (clockAt 200) playingTwoNotes)).
Proof.
  destruct (animation_frames_advance (clockAt 100) (clockAt 200) playingTwoNotes)
    as (_ & H); [vm_compute; discriminate|vm_compute; discriminate|].
  destruct (H eq_refl) as (_ & H' & _). exact H'.
Defined.


(** * The staff ([components/SheetMusic.tsx]) *)

From Stdlib Require Import Qround Sorted.

Lemma qz_plus a b : qz (a + b) = qz a + qz b.
Proof.
  unfold qz. apply Qc_is_canon. cbn [this Qcplus Q2Qc]. rewrite !Qred_correct.
  rewrite inject_Z_plus. apply Qeq_refl.
Qed.

Lemma qz_mult a b : qz (a * b) = qz a * qz b.
Proof.
  unfold qz. apply Qc_is_canon. cbn [this Qcmult Q2Qc]. rewrite !Qred_correct.
  rewrite inject_Z_mult. apply Qeq_refl.
Qed.

Lemma qz_opp a : qz (- a) = - qz a.
Proof.
  unfold qz. apply Qc_is_canon. cbn [this Qcopp Q2Qc]. rewrite !Qred_correct.
  rewrite inject_Z_opp. apply Qeq_refl.
Qed.

Lemma qz_le a b : (a <= b)%Z -> qz a <= qz b.
Proof.
  unfold qz, Qcle. cbn [this Q2Qc]. rewrite !Qred_correct. by rewrite Zle_Qle.
Qed.

Lemma qz_lt a b : (a < b)%Z -> qz a < qz b.
Proof.
  unfold qz, Qclt. cbn [this Q2Qc]. rewrite !Qred_correct. by rewrite Zlt_Qlt.
Qed.

Definition STAFF_TOP_MARGIN : Qc := qz 40.
Definition LINE_SPACING : Qc := qz 12.
Definition STAFF_HEIGHT : Qc := LINE_SPACING * qz 4.
Definition STEM_HEIGHT : Qc := qz 35.
Definition NOTE_SPACING : Qc := qz 45.
Definition BAR_LINE_SPACING : Qc := qz 20.
Definition STAFF_PADDING : Qc := qz 20.
Definition QUARTER_NOTE_DURATION : Qc := qz 500.
Definition MEASURE_DURATION : Qc := QUARTER_NOTE_DURATION * qz 4.

Definition NOTE_TO_STAFF_STEP : list (string * Z) :=
  [ ("C3", -9); ("C#3", -9); ("D3", -8); ("D#3", -8); ("E3", -7); ("F3", -6);
    ("F#3", -6); ("G3", -5); ("G#3", -5); ("A3", -4); ("A#3", -4); ("B3", -3);
    ("C4", -2); ("C#4", -2); ("D4", -1); ("D#4", -1); ("E4", 0); ("F4", 1);
    ("F#4", 1); ("G4", 2); ("G#4", 2); ("A4", 3); ("A#4", 3); ("B4", 4);
    ("C5", 5); ("C#5", 5); ("D5", 6); ("D#5", 6); ("E5", 7); ("F5", 8);
    ("F#5", 8); ("G5", 9); ("G#5", 9); ("A5", 10); ("A#5", 10); ("B5", 11) ]%Z.

(** [getNoteYPosition]: [NOTE_TO_STAFF_STEP[note] ?? 0] *)
Definition getNoteYPosition (n : string) : Qc :=
  let step := match assoc n NOTE_TO_STAFF_STEP with Some st => st | None => 0%Z end in
  (STAFF_TOP_MARGIN + STAFF_HEIGHT) - (qz step * LINE_SPACING / qz 2).

(** [step ? step < 2 : true] *)
Definition stemUp (n : string) : bool :=
  match assoc n NOTE_TO_STAFF_STEP with
  | Some st => if bool_decide (st = 0%Z) then true else bool_decide (st < 2)%Z
  | None => true
  end.

(** The far end [y2] of the stem of a note. *)
Definition stemEnd (n : string) : Qc :=
  getNoteYPosition n + (if stemUp n then - STEM_HEIGHT else STEM_HEIGHT).

(** [renderLedgerLines]: the height of each line, in the order drawn;
    [None] for the [null] of a note outside the table. Each line runs
    from [x - 10] to [x + 10]. *)
Definition renderLedgerLines (n : string) : option (list Qc) :=
  match assoc n NOTE_TO_STAFF_STEP with
  | None => None
  | Some step =>
      let above :=
        if bool_decide (5 <= step)%Z then
          map (fun i => getNoteYPosition "B4" - (qz (i - 4) / qz 2) * LINE_SPACING)
            (filter (fun i => Z.rem i 2 = 0%Z) (seqZ 6 (step - 5)))
        else [] in
      let below :=
        if bool_decide (step <= -3)%Z then
          map (fun i => getNoteYPosition "D4" - (qz (i + 1) / qz 2) * LINE_SPACING)
            (filter (fun i => Z.rem i 2 <> 0%Z)
               (map (fun k => (-3 - k)%Z) (seqZ 0 (-2 - step))))
        else [] in
      Some (above ++ below)
  end.

Lemma staff_steps_range n st :
  assoc n NOTE_TO_STAFF_STEP = Some st -> (-9 <= st <= 11)%Z.
Proof.
  assert (Forall (fun p => (-9 <= snd p <= 11)%Z) NOTE_TO_STAFF_STEP) as H
    by (repeat constructor; cbn; lia).
  induction H as [|[k v] l Hv _ IH]; cbn [assoc]; [done|].
  case_bool_decide; [|done]. intros [= <-]. exact Hv.
Qed.

Lemma getNoteYPosition_step n :
  getNoteYPosition n
  = qz (88 - 6 * match assoc n NOTE_TO_STAFF_STEP with Some st => st | None => 0 end).
Proof.
  unfold getNoteYPosition, STAFF_TOP_MARGIN, STAFF_HEIGHT, LINE_SPACING. cbv zeta.
  set (st := match assoc n NOTE_TO_STAFF_STEP with Some st => st | None => 0%Z end).
  replace (88 - 6 * st)%Z with (88 + - (6 * st))%Z by lia.
  rewrite qz_plus, qz_opp, qz_mult.
  assert (qz 2 <> 0) as H2 by (intros H; apply (f_equal this) in H; discriminate).
  assert (qz 40 + qz 12 * qz 4 = qz 88) as -> by (apply Qc_is_canon; reflexivity).
  assert (qz 12 = qz 6 * qz 2) as -> by (apply Qc_is_canon; reflexivity).
  field. done.
Qed.

(** X23: every note head is drawn between the heights 22 and 142 of the 150
    pixel canvas (a note outside the table, a rest included, at the height
    88 of E4), and the far end of its stem between 47 and 111: the stem
    goes up from the lower notes and down from G4 on. *)
Theorem staff_positions_within_canvas n :
  qz 22 <= getNoteYPosition n <= qz 142
  /\ qz 47 <= stemEnd n <= qz 111
  /\ (assoc n NOTE_TO_STAFF_STEP = None -> getNoteYPosition n = qz 88).
Proof.
  unfold stemEnd, stemUp, STEM_HEIGHT. rewrite getNoteYPosition_step, <- qz_opp.
  destruct (assoc n NOTE_TO_STAFF_STEP) as [st|] eqn:E.
  - apply staff_steps_range in E.
    split; [split; apply qz_le; lia|]. split; [|done].
    case_bool_decide; [split; rewrite <- qz_plus; apply qz_le; lia|].
    case_bool_decide; split; rewrite <- qz_plus; apply qz_le; lia.
  - split; [split; apply qz_le; lia|]. split; [|done].
    split; rewrite <- qz_plus; apply qz_le; lia.
Qed.

Lemma ledger_above_height i :
  getNoteYPosition "B4" - (qz (i - 4) / qz 2) * LINE_SPACING = qz (88 - 6 * i).
Proof.
  assert (getNoteYPosition "B4" = qz 64) as ->
    by (rewrite getNoteYPosition_step; reflexivity).
  unfold LINE_SPACING.
  replace (88 - 6 * i)%Z with (64 + - (6 * (i + - (4))))%Z by lia.
  replace (i - 4)%Z with (i + - (4))%Z by lia.
  rewrite !qz_plus, !qz_opp, !qz_mult, !qz_plus, !qz_opp.
  assert (qz 2 <> 0) as H2 by (intros H; apply (f_equal this) in H; discriminate).
  assert (qz 12 = qz 6 * qz 2) as -> by (apply Qc_is_canon; reflexivity).
  field. done.
Qed.

Lemma ledger_below_height i :
  getNoteYPosition "D4" - (qz (i + 1) / qz 2) * LINE_SPACING = qz (88 - 6 * i).
Proof.
  assert (getNoteYPosition "D4" = qz 94) as ->
    by (rewrite getNoteYPosition_step; reflexivity).
  unfold LINE_SPACING.
  replace (88 - 6 * i)%Z with (94 + - (6 * (i + 1)))%Z by lia.
  rewrite !qz_plus, !qz_opp, !qz_mult, !qz_plus.
  assert (qz 2 <> 0) as H2 by (intros H; apply (f_equal this) in H; discriminate).
  assert (qz 12 = qz 6 * qz 2) as -> by (apply Qc_is_canon; reflexivity).
  field. done.
Qed.

(** X24: every ledger line is drawn at the height [88 - 6 i] of a staff step
    [i] between the staff and the note. Above the staff these are the even
    steps from 6 up to the step of the note, on the 12-pixel grid of the
    staff lines (the five staff lines are at 88, 76, 64, 52 and 40, so the
    lines for the steps 6 and 8 fall on staff lines). Below the staff they
    are the odd steps from -3 down, 6 pixels off that grid. *)
Theorem ledger_lines_heights n ys y :
  renderLedgerLines n = Some ys -> y ∈ ys ->
  exists st, assoc n NOTE_TO_STAFF_STEP = Some st
    /\ ((exists j, (3 <= j)%Z /\ (2 * j <= st)%Z /\ y = qz (88 - 12 * j))
        \/ (exists j, (1 <= j)%Z /\ (st <= - (2 * j + 1))%Z /\ y = qz (94 + 12 * j))).
Proof.
  unfold renderLedgerLines. destruct (assoc n NOTE_TO_STAFF_STEP) as [st|]; [|done].
  intros [= <-] [Hy|Hy]%elem_of_app; exists st; (split; [done|]).
  - left. case_bool_decide; [|by apply elem_of_nil in Hy].
    apply list_elem_of_fmap in Hy as (i & -> & Hi).
    apply list_elem_of_filter in Hi as [Hrem Hi]. apply elem_of_seqZ in Hi.
    rewrite Z.rem_mod_nonneg in Hrem by lia.
    exists (i / 2)%Z. rewrite ledger_above_height.
    pose proof (Z.div_mod i 2). repeat split; try lia. f_equal. lia.
  - right. case_bool_decide; [|by apply elem_of_nil in Hy].
    apply list_elem_of_fmap in Hy as (i & -> & Hi).
    apply list_elem_of_filter in Hi as [Hrem Hi].
    apply list_elem_of_fmap in Hi as (k & -> & Hk). apply elem_of_seqZ in Hk.
    replace (-3 - k)%Z with (- (3 + k))%Z in * by lia.
    rewrite Z.rem_opp_l, Z.rem_mod_nonneg in Hrem by lia.
    exists ((3 + k) / 2)%Z. rewrite ledger_below_height.
    pose proof (Z.div_mod (3 + k) 2). pose proof (Z.mod_pos_bound (3 + k) 2).
    repeat split; try lia. f_equal. lia.
Qed.

Lemma ledger_lines_heights_witness :
  exists st, assoc "A5" NOTE_TO_STAFF_STEP = Some st.
Proof.
  destruct (ledger_lines_heights "A5" [qz 52; qz 40; qz 28] (qz 28)) as (st & H & _).
  - unfold renderLedgerLines.
    assert (assoc "A5" NOTE_TO_STAFF_STEP = Some 10%Z) as -> by reflexivity.
    cbn [bool_decide decide_rel]. cbv zeta.
    rewrite bool_decide_eq_true_2, bool_decide_eq_false_2 by lia.
    set (l := filter _ _). vm_compute in l. subst l. cbn [map app].
    rewrite !ledger_above_height. reflexivity.
  - set_solver.
  - by exists st.
Defined.

(** ** The layout of a song *)

Inductive LayoutElement :=
| NoteElement (data : SongNote) (x : Qc)
| BarElement (x : Qc) (isFinal : bool).

Definition elementX (e : LayoutElement) : Qc :=
  match e with NoteElement _ x => x | BarElement x _ => x end.

Definition elementNote (e : LayoutElement) : option SongNote :=
  match e with NoteElement n _ => Some n | BarElement _ _ => None end.

Definition isBar (e : LayoutElement) : bool :=
  match e with NoteElement _ _ => false | BarElement _ _ => true end.

Definition Qceqb (x y : Qc) : bool :=
  match Qccompare x y with Eq => true | _ => false end.

(** [noteTimeMap.set(k, v)] on a [Map] kept in insertion order *)
Fixpoint mapSet (k v : Qc) (m : list (Qc * Qc)) : list (Qc * Qc) :=
  match m with
  | [] => [(k, v)]
  | (k', v') :: m' =>
      if Qceqb k' k then (k', v) :: m' else (k', v') :: mapSet k v m'
  end.

(** The variables of the [useMemo] that computes the layout. *)
Record LayoutState := MkLayoutState {
  elements : list LayoutElement;
  noteTimeMap : list (Qc * Qc);
  layout_x : Qc;
  lastMeasure : Z
}.

(** Body of [song.forEach] *)
Definition layoutNote (st : LayoutState) (n : SongNote) : LayoutState :=
  let measure := Qfloor (startTime n / MEASURE_DURATION) in
  let st1 :=
    if (lastMeasure st <? measure)%Z then
      let st' :=
        if negb (lastMeasure st =? -1)%Z then
          let x1 := layout_x st + BAR_LINE_SPACING / qz 2 in
          MkLayoutState (elements st ++ [BarElement x1 false]) (noteTimeMap st)
            (x1 + BAR_LINE_SPACING / qz 2) (lastMeasure st)
        else st in
      MkLayoutState (elements st') (noteTimeMap st') (layout_x st') measure
    else st in
  MkLayoutState (elements st1 ++ [NoteElement n (layout_x st1)])
    (mapSet (startTime n) (layout_x st1) (noteTimeMap st1))
    (layout_x st1 + NOTE_SPACING) (lastMeasure st1).

(** [Array.prototype.sort] with the comparator [a[0] - b[0]] (stable) *)
Fixpoint insertByTime (p : Qc * Qc) (l : list (Qc * Qc)) : list (Qc * Qc) :=
  match l with
  | [] => [p]
  | q :: l' => if Qcltb (fst q) (fst p) then q :: insertByTime p l' else p :: q :: l'
  end.

Definition sortByTime (l : list (Qc * Qc)) : list (Qc * Qc) :=
  foldr insertByTime [] l.

Record Layout := MkLayout {
  layout_elements : list LayoutElement;
  totalWidth : Qc;
  timepoints : list (Qc * Qc)
}.

Definition layout (song : list SongNote) : Layout :=
  let st := fold_left layoutNote song
              (MkLayoutState [] [] (STAFF_PADDING + qz 60) (-1)) in
  let x1 := layout_x st + BAR_LINE_SPACING / qz 2 in
  let x2 := x1 + qz 4 in
  MkLayout (elements st ++ [BarElement x1 false] ++ [BarElement x2 true])
    (x2 + STAFF_PADDING) (sortByTime (noteTimeMap st)).

Lemma Qclt_plus_pos x d : 0 < d -> x < x + d.
Proof.
  intros H. replace x with (x + 0) at 1 by ring. unfold Qclt, Qcplus in *.
  cbn [this Q2Qc] in *. rewrite !Qred_correct. by apply Qplus_lt_r.
Qed.

Lemma Qcle_plus_nonneg x d : 0 <= d -> x <= x + d.
Proof.
  intros H. replace x with (x + 0) at 1 by ring.
  apply Qcplus_le_compat; [apply Qcle_refl|done].
Qed.

Lemma half_bar : BAR_LINE_SPACING / qz 2 = qz 10.
Proof. apply Qc_is_canon. reflexivity. Qed.

(** One note of the loop: the note at the running [x], or a bar line 10
    further right and the note 20 further right. No bar line is drawn
    while no measure has been entered. *)
Lemma layoutNote_cases st n z :
  layout_x st = qz z ->
  (elements (layoutNote st n) = elements st ++ [NoteElement n (qz z)]
   /\ layout_x (layoutNote st n) = qz (z + 45))
  \/ (lastMeasure st <> (-1)%Z
      /\ elements (layoutNote st n)
         = elements st ++ [BarElement (qz (z + 10)) false; NoteElement n (qz (z + 20))]
      /\ layout_x (layoutNote st n) = qz (z + 65)).
Proof.
  intros Hx. unfold layoutNote. cbv zeta. rewrite !half_bar. unfold NOTE_SPACING.
  destruct (lastMeasure st <? _)%Z.
  - destruct (lastMeasure st =? -1)%Z eqn:E; cbn [negb elements layout_x].
    + left. by rewrite !Hx, <- qz_plus.
    + right. apply Z.eqb_neq in E. rewrite <- app_assoc, !Hx, <- !qz_plus.
      replace (z + 10 + 10 + 45)%Z with (z + 65)%Z by lia.
      by replace (z + 10 + 10)%Z with (z + 20)%Z by lia.
  - left. by rewrite !Hx, <- qz_plus.
Qed.

Definition notFinal (e : LayoutElement) : Prop :=
  match e with BarElement _ true => False | _ => True end.

(** The notes of a list of elements, in order, and the number of its bar
    lines. *)
Fixpoint notesOf (els : list LayoutElement) : list SongNote :=
  match els with
  | [] => []
  | NoteElement n _ :: els' => n :: notesOf els'
  | BarElement _ _ :: els' => notesOf els'
  end.

Fixpoint barCount (els : list LayoutElement) : nat :=
  match els with
  | [] => 0
  | NoteElement _ _ :: els' => barCount els'
  | BarElement _ _ :: els' => S (barCount els')
  end.

Lemma layout_fold l : forall st z,
  layout_x st = qz z ->
  exists new zs,
    elements (fold_left layoutNote l st) = elements st ++ new
    /\ notesOf new = l
    /\ map elementX new = map qz zs
    /\ StronglySorted Z.lt zs
    /\ Forall (fun k => (z <= k)%Z) zs
    /\ Forall (fun k =>
                 (k + 45 <= z + 45 * Z.of_nat (length l)
                            + 20 * Z.of_nat (barCount new))%Z) zs
    /\ layout_x (fold_left layoutNote l st)
       = qz (z + 45 * Z.of_nat (length l) + 20 * Z.of_nat (barCount new))
    /\ Forall notFinal new.
Proof.
  induction l as [|n l IH]; intros st z Hx.
  - exists [], []. cbn. rewrite app_nil_r. repeat split; try constructor.
    rewrite Hx. f_equal. lia.
  - cbn [fold_left].
    destruct (layoutNote_cases st n z Hx) as [[He Hx']|(_ & He & Hx')].
    + destruct (IH _ _ Hx') as (new & zs & E & Hn & Hxs & Hs & Hlo & Hhi & Hf & Hfin).
      exists (NoteElement n (qz z) :: new), (z :: zs).
      rewrite E, He, <- app_assoc. cbn [app notesOf barCount map elementX].
      rewrite Hn, Hxs.
      replace (Z.of_nat (length (n :: l))) with (1 + Z.of_nat (length l))%Z
        by (cbn [length]; lia).
      repeat split; try done.
      * constructor; [done|]. eapply Forall_impl; [exact Hlo|]. cbn. lia.
      * constructor; [lia|]. eapply Forall_impl; [exact Hlo|]. cbn. lia.
      * constructor.
        -- pose proof (Zle_0_nat (length l)).
           pose proof (Zle_0_nat (barCount new)). lia.
        -- eapply Forall_impl; [exact Hhi|]. cbn. lia.
      * rewrite Hf. f_equal. lia.
      * by constructor.
    + destruct (IH _ _ Hx') as (new & zs & E & Hn & Hxs & Hs & Hlo & Hhi & Hf & Hfin).
      exists (BarElement (qz (z + 10)) false :: NoteElement n (qz (z + 20)) :: new),
        ((z + 10)%Z :: (z + 20)%Z :: zs).
      rewrite E, He, <- app_assoc. cbn [app notesOf barCount map elementX].
      rewrite Hn, Hxs. cbn [length].
      replace (Z.of_nat (S (length l))) with (1 + Z.of_nat (length l))%Z by lia.
      replace (Z.of_nat (S (barCount new)))
        with (1 + Z.of_nat (barCount new))%Z by lia.
      repeat split; try done.
      * constructor; [constructor|].
        -- done.
        -- eapply Forall_impl; [exact Hlo|]. cbn. lia.
        -- constructor; [lia|]. eapply Forall_impl; [exact Hlo|]. cbn. lia.
      * constructor; [lia|]. constructor; [lia|].
        eapply Forall_impl; [exact Hlo|]. cbn. lia.
      * pose proof (Zle_0_nat (length l)).
        pose proof (Zle_0_nat (barCount new)).
        constructor; [lia|]. constructor; [lia|].
        eapply Forall_impl; [exact Hhi|]. cbn. lia.
      * rewrite Hf. f_equal. lia.
      * by repeat constructor.
Qed.

Lemma StronglySorted_snoc2 zs a b :
  StronglySorted Z.lt zs -> Forall (fun k => (k < a)%Z) zs -> (a < b)%Z ->
  StronglySorted Z.lt (zs ++ [a; b]).
Proof.
  intros Hs Hlt Hab. induction Hs as [|k zs Hs IH Hk]; cbn [app].
  - repeat constructor. done.
  - apply Forall_cons_1 in Hlt as [Hka Hlt]. constructor; [by apply IH|].
    apply Forall_app. split; [done|]. repeat constructor; lia.
Qed.

Lemma StronglySorted_qz zs :
  StronglySorted Z.lt zs -> StronglySorted Qclt (map qz zs).
Proof.
  induction 1 as [|k zs Hs IH Hk]; cbn [map]; constructor; [done|].
  apply Forall_fmap. eapply Forall_impl; [exact Hk|]. intros j. apply qz_lt.
Qed.

(** X25: the layout of a song: its notes, in song order, with bar lines in
    between that are never final, then a bar line and the final bar line
    4 further right. The first element is at 80 or right of it, the
    elements are strictly ordered from left to right, and each is at
    least 20 short of the total width, which is 114 plus 45 for each note
    and 20 for each inner bar line. *)
Theorem layout_in_order song :
  exists front xbar,
    layout_elements (layout song)
    = front ++ [BarElement xbar false; BarElement (xbar + qz 4) true]
    /\ notesOf front = song /\ Forall notFinal front
    /\ StronglySorted Qclt (map elementX (layout_elements (layout song)))
    /\ Forall (fun e => qz 80 <= elementX e
                        /\ elementX e + STAFF_PADDING <= totalWidth (layout song))
         (layout_elements (layout song))
    /\ totalWidth (layout song)
       = qz (114 + 45 * Z.of_nat (length song) + 20 * Z.of_nat (barCount front)).
Proof.
  unfold layout. cbv zeta. cbn [layout_elements totalWidth].
  set (st0 := MkLayoutState [] [] (STAFF_PADDING + qz 60) (-1)).
  assert (layout_x st0 = qz 80) as Hx0 by (apply Qc_is_canon; reflexivity).
  destruct (layout_fold song st0 80 Hx0)
    as (new & zs & E & Hn & Hxs & Hs & Hlo & Hhi & Hf & Hfin).
  set (zf := (80 + 45 * Z.of_nat (length song) + 20 * Z.of_nat (barCount new))%Z) in *.
  rewrite E, Hf, half_bar. unfold STAFF_PADDING. rewrite <- !qz_plus.
  change (elements st0 ++ new) with new. cbn [app].
  exists new, (qz (zf + 10)). rewrite <- qz_plus.
  assert (map elementX (new ++ [BarElement (qz (zf + 10)) false;
                                BarElement (qz (zf + 10 + 4)) true])
          = map qz (zs ++ [(zf + 10)%Z; (zf + 10 + 4)%Z])) as Hmap.
  { by rewrite !map_app, Hxs. }
  assert (Forall (fun k => (80 <= k /\ k + 20 <= zf + 10 + 4 + 20)%Z)
            (zs ++ [(zf + 10)%Z; (zf + 10 + 4)%Z])) as Hrange.
  { apply Forall_app. split.
    - apply Forall_forall. intros k Hk.
      rewrite Forall_forall in Hlo, Hhi. specialize (Hlo k Hk). specialize (Hhi k Hk).
      fold zf in Hhi. lia.
    - assert (80 <= zf)%Z.
      { unfold zf. pose proof (Zle_0_nat (length song)).
        pose proof (Zle_0_nat (barCount new)). lia. }
      repeat constructor; lia. }
  repeat split; try done.
  - rewrite Hmap. apply StronglySorted_qz, StronglySorted_snoc2; [done| |lia].
    eapply Forall_impl; [exact Hhi|]. cbn. fold zf. lia.
  - apply Forall_forall. intros e He.
    assert (elementX e ∈ map elementX (new ++ [BarElement (qz (zf + 10)) false;
                                               BarElement (qz (zf + 10 + 4)) true]))
      as Hin by (by apply list_elem_of_fmap_2).
    rewrite Hmap in Hin. apply list_elem_of_fmap in Hin as (k & -> & Hk).
    rewrite Forall_forall in Hrange. specialize (Hrange k Hk). rewrite <- qz_plus.
    split; apply qz_le; lia.
  - f_equal. unfold zf. lia.
Qed.

(** ** The playhead *)

(** What the [useMemo] of the playhead gives: [null], a position, or the
    [TypeError] of destructuring [undefined]. *)
Inductive Playhead :=
| Hidden
| At (x : Qc)
| PlayheadError.

Fixpoint findIndexFrom {A} (P : A -> bool) (l : list A) (i : nat) : option nat :=
  match l with
  | [] => None
  | a :: l' => if P a then Some i else findIndexFrom P l' (S i)
  end.

(** [l.findIndex(P)], [None] for [-1] *)
Definition findIndex {A} (P : A -> bool) (l : list A) : option nat :=
  findIndexFrom P l 0.

Definition playheadX (appState : AppState) (timepoints : list (Qc * Qc))
    (playbackProgress : Qc) : Playhead :=
  if bool_decide (appState <> PLAYING) || bool_decide (length timepoints < 1)%nat
  then Hidden
  else
    let nextPointIndex :=
      findIndex (fun p => Qcltb playbackProgress (fst p)) timepoints in
    match timepoints !! 0%nat with
    | None => PlayheadError
    | Some first =>
        if Qcltb playbackProgress (fst first) then At (snd first)
        else
          match nextPointIndex with
          | None =>
              match last timepoints with
              | Some p => At (snd p)
              | None => PlayheadError
              end
          | Some i =>
              match match i with O => None | S j => timepoints !! j end,
                    timepoints !! i with
              | Some prevPoint, Some nextPoint =>
                  let segmentDuration := fst nextPoint - fst prevPoint in
                  if negb (Qcltb 0 segmentDuration) then At (snd prevPoint)
                  else
                    let progressInSegment := playbackProgress - fst prevPoint in
                    let interpolationFactor := progressInSegment / segmentDuration in
                    At (snd prevPoint
                        + (snd nextPoint - snd prevPoint) * interpolationFactor)
              | _, _ => PlayheadError
              end
          end
    end.

Lemma findIndexFrom_Some {A} (P : A -> bool) l : forall i k,
  findIndexFrom P l i = Some k ->
  (i <= k)%nat /\ exists a, l !! (k - i)%nat = Some a /\ P a = true
                            /\ forall j b, (j < k - i)%nat -> l !! j = Some b -> P b = false.
Proof.
  induction l as [|a l IH]; intros i k; cbn [findIndexFrom]; [done|].
  destruct (P a) eqn:Ha.
  - intros [= <-]. split; [lia|]. exists a. rewrite Nat.sub_diag.
    repeat split; [done|]. intros j b Hj. lia.
  - intros (Hk & b & Hb & HP & Hbefore)%IH. split; [lia|]. exists b.
    replace (k - i)%nat with (S (k - S i)) by lia. repeat split; [done|done|].
    intros [|j] c Hj; cbn; [by intros [= <-]|]. apply Hbefore. lia.
Qed.

(** X26: the destructuring of the two neighbours never fails: when a next
    point exists that is not the first, the point before it exists too;
    and a playhead is shown exactly while Playing with a time point to
    show it at. *)
Theorem playheadX_never_throws st tps p :
  playheadX st tps p <> PlayheadError
  /\ (playheadX st tps p = Hidden <-> st <> PLAYING \/ tps = []).
Proof.
  unfold playheadX. destruct (decide (st = PLAYING)) as [->|Hst].
  2:{ rewrite (bool_decide_eq_true_2 (st <> PLAYING)) by done. cbn [orb].
      split; [done|]. split; auto. }
  rewrite (bool_decide_eq_false_2 (PLAYING <> PLAYING)) by (by intros H). cbn [orb].
  destruct tps as [|first tps].
  { cbn. split; [done|]. split; auto. }
  rewrite bool_decide_eq_false_2 by (cbn [length]; lia). cbv zeta.
  change ((first :: tps) !! 0%nat) with (Some first). cbv beta iota.
  assert (forall x, At x <> PlayheadError
                    /\ (At x = Hidden <-> PLAYING <> PLAYING \/ first :: tps = []))
    as Hshown.
  { intros x. split; [discriminate|]. split; [discriminate|].
    intros [H|H]; [by destruct H|discriminate]. }
  destruct (Qcltb p (fst first)) eqn:Hfirst; [apply Hshown|].
  destruct (findIndex _ _) as [i|] eqn:Hi.
  - apply findIndexFrom_Some in Hi as (_ & a & Ha & HPa & Hbefore).
    rewrite Nat.sub_0_r in *. rewrite Ha.
    destruct i as [|j].
    { cbn in Ha. injection Ha as <-. congruence. }
    assert (is_Some ((first :: tps) !! j)) as [b Hb].
    { apply lookup_lt_is_Some. apply lookup_lt_Some in Ha. lia. }
    rewrite Hb. destruct (negb _); apply Hshown.
  - destruct (last (first :: tps)) eqn:Hl; [apply Hshown|].
    by apply last_None in Hl.
Qed.

Lemma Qceqb_eq x y : Qceqb x y = true <-> x = y.
Proof.
  unfold Qceqb. rewrite Qceq_alt. change (x ?= y)%Qc with (Qccompare x y).
  destruct (Qccompare x y); split; congruence.
Qed.

Lemma Qcltb_true x y : Qcltb x y = true -> x < y.
Proof.
  unfold Qcltb. intros H. apply Qclt_alt. change (Qccompare x y = Lt).
  by destruct (Qccompare x y).
Qed.

Lemma mapSet_spec k v m :
  (k, v) ∈ mapSet k v m
  /\ (forall p, p ∈ mapSet k v m -> p = (k, v) \/ p ∈ m)
  /\ (forall k', k' ∈ map fst m -> k' ∈ map fst (mapSet k v m))
  /\ (forall k', k' ∈ map fst (mapSet k v m) -> k' = k \/ k' ∈ map fst m).
Proof.
  induction m as [|[k0 v0] m (IH1 & IH2 & IH3 & IH4)]; cbn [mapSet].
  - repeat split; [apply list_elem_of_here|set_solver|set_solver|set_solver].
  - destruct (Qceqb k0 k) eqn:E.
    + apply Qceqb_eq in E as ->. repeat split.
      * apply list_elem_of_here.
      * intros p [->|H]%elem_of_cons; [by left|right; by apply list_elem_of_further].
      * intros k'. cbn [map fst]. done.
      * intros k'. cbn [map fst]. intros [->|H]%elem_of_cons; [by left|right].
        by apply list_elem_of_further.
    + repeat split.
      * by apply list_elem_of_further.
      * intros p [->|H]%elem_of_cons; [right; apply list_elem_of_here|].
        destruct (IH2 p H) as [?|?]; [by left|right; by apply list_elem_of_further].
      * intros k'. cbn [map fst]. intros [->|H]%elem_of_cons;
          [apply list_elem_of_here|apply list_elem_of_further; by apply IH3].
      * intros k'. cbn [map fst]. intros [->|H]%elem_of_cons;
          [right; apply list_elem_of_here|].
        destruct (IH4 k' H) as [?|?]; [by left|right; by apply list_elem_of_further].
Qed.

Lemma mapSet_NoDup k v m : NoDup (map fst m) -> NoDup (map fst (mapSet k v m)).
Proof.
  induction m as [|[k0 v0] m IH]; cbn [mapSet map fst].
  - intros _. repeat constructor. apply not_elem_of_nil.
  - intros [Hk0 Hm]%NoDup_cons. destruct (Qceqb k0 k) eqn:E; cbn [map fst].
    + by apply NoDup_cons.
    + apply NoDup_cons. split; [|by apply IH].
      intros [->|H]%(proj2 (proj2 (proj2 (mapSet_spec k v m)))); [|done].
      assert (Qceqb k k = true) as Hkk by (by apply Qceqb_eq). congruence.
Qed.

(** One note of the loop, as the time map sees it. *)
Lemma layoutNote_timeMap st n :
  exists x,
    noteTimeMap (layoutNote st n) = mapSet (startTime n) x (noteTimeMap st)
    /\ NoteElement n x ∈ elements (layoutNote st n)
    /\ (forall e, e ∈ elements st -> e ∈ elements (layoutNote st n)).
Proof.
  unfold layoutNote. cbv zeta.
  destruct (lastMeasure st <? _)%Z; [destruct (negb _)|]; cbn [elements noteTimeMap layout_x];
    eexists; (split; [reflexivity|]); split; set_solver.
Qed.

Lemma timeMap_fold l : forall st,
  NoDup (map fst (noteTimeMap st)) ->
  (forall k v, (k, v) ∈ noteTimeMap st ->
     exists n, NoteElement n v ∈ elements st /\ startTime n = k) ->
  NoDup (map fst (noteTimeMap (fold_left layoutNote l st)))
  /\ (forall k v, (k, v) ∈ noteTimeMap (fold_left layoutNote l st) ->
        exists n, NoteElement n v ∈ elements (fold_left layoutNote l st)
                  /\ startTime n = k)
  /\ (forall k, k ∈ map fst (noteTimeMap st) ->
        k ∈ map fst (noteTimeMap (fold_left layoutNote l st)))
  /\ (forall n, n ∈ l ->
        startTime n ∈ map fst (noteTimeMap (fold_left layoutNote l st))).
Proof.
  induction l as [|n l IH]; intros st Hnd Hval; cbn [fold_left].
  - repeat split; try done. by intros n ?%elem_of_nil.
  - destruct (layoutNote_timeMap st n) as (x & Em & Hin & Hsub).
    destruct (mapSet_spec (startTime n) x (noteTimeMap st)) as (S1 & S2 & S3 & S4).
    destruct (IH (layoutNote st n)) as (I1 & I2 & I3 & I4).
    + rewrite Em. by apply mapSet_NoDup.
    + intros k v. rewrite Em. intros [[= -> ->]|H]%S2; [by exists n|].
      destruct (Hval k v H) as (m & Hm & Ht). exists m. split; [by apply Hsub|done].
    + repeat split; try done.
      * intros k Hk. apply I3. rewrite Em. by apply S3.
      * intros m [->|Hm]%elem_of_cons; [|by apply I4].
        apply I3. rewrite Em. apply (list_elem_of_fmap_2 fst _ _ S1).
Qed.

Lemma insertByTime_perm p l : insertByTime p l ≡ₚ p :: l.
Proof.
  induction l as [|q l IH]; cbn [insertByTime]; [done|].
  destruct (Qcltb _ _); [|done]. rewrite IH. apply Permutation_swap.
Qed.

Lemma sortByTime_perm l : sortByTime l ≡ₚ l.
Proof.
  induction l as [|p l IH]; cbn [sortByTime foldr]; [done|].
  rewrite insertByTime_perm. by constructor.
Qed.

Lemma insertByTime_sorted p l :
  StronglySorted (fun a b => fst a <= fst b) l ->
  StronglySorted (fun a b => fst a <= fst b) (insertByTime p l).
Proof.
  induction 1 as [|q l Hs IH Hq]; cbn [insertByTime]; [by repeat constructor|].
  destruct (Qcltb (fst q) (fst p)) eqn:E.
  - constructor; [done|]. rewrite insertByTime_perm. constructor; [|done].
    by apply Qclt_le_weak, Qcltb_true.
  - apply Qcltb_false in E. constructor; [by constructor|].
    constructor; [done|]. eapply Forall_impl; [exact Hq|].
    intros a Ha. cbn in *. by eapply Qcle_trans.
Qed.

Lemma sortByTime_sorted l :
  StronglySorted (fun a b => fst a <= fst b) (sortByTime l).
Proof.
  induction l as [|p l IH]; cbn [sortByTime foldr]; [constructor|].
  by apply insertByTime_sorted.
Qed.

Lemma sorted_strict (l : list (Qc * Qc)) :
  StronglySorted (fun a b => fst a <= fst b) l -> NoDup (map fst l) ->
  StronglySorted (fun a b => fst a < fst b) l.
Proof.
  induction 1 as [|q l Hs IH Hq]; cbn [map]; [constructor|].
  intros [Hnin Hnd]%NoDup_cons. constructor; [by apply IH|].
  apply Forall_forall. intros a Ha. rewrite Forall_forall in Hq.
  destruct (Qcle_lt_or_eq _ _ (Hq a Ha)) as [?|Heq]; [done|].
  exfalso. apply Hnin. rewrite Heq. by apply list_elem_of_fmap_2.
Qed.

Lemma Qcltb_ge x y : y <= x -> Qcltb x y = false.
Proof.
  intros H. destruct (Qcltb x y) eqn:E; [|done].
  apply Qcltb_true in E. by apply Qcle_not_lt in H.
Qed.

Lemma findIndexFrom_app_false {A} (P : A -> bool) l1 l2 : forall i,
  Forall (fun a => P a = false) l1 ->
  findIndexFrom P (l1 ++ l2) i = findIndexFrom P l2 (i + length l1).
Proof.
  induction l1 as [|a l1 IH]; intros i Hl1; cbn [app findIndexFrom length].
  - by rewrite Nat.add_0_r.
  - apply Forall_cons_1 in Hl1 as [-> Hl1]. rewrite IH by done. f_equal. lia.
Qed.

Lemma StronglySorted_middle {A} (R : A -> A -> Prop) l1 a l2 :
  StronglySorted R (l1 ++ a :: l2) -> Forall (fun b => R b a) l1 /\ Forall (R a) l2.
Proof.
  induction l1 as [|b l1 IH]; cbn [app].
  - intros [_ H]%StronglySorted_inv. by split.
  - intros [Hs Hb]%StronglySorted_inv. destruct (IH Hs) as [H1 H2]. split; [|done].
    constructor; [|done]. rewrite Forall_forall in Hb. apply Hb.
    apply elem_of_app. right. apply list_elem_of_here.
Qed.

(** On time points in strictly increasing order of time, a progress equal
    to the time of a point puts the playhead on that point. *)
Lemma playhead_at_timepoint tps t x :
  StronglySorted (fun a b => fst a < fst b) tps -> (t, x) ∈ tps ->
  playheadX PLAYING tps t = At x.
Proof.
  intros Hs Hin. apply list_elem_of_split in Hin as (pre & post & ->).
  destruct (StronglySorted_middle _ _ _ _ Hs) as [Hpre Hpost]. cbn [fst] in Hpre, Hpost.
  unfold playheadX.
  rewrite (bool_decide_eq_false_2 (PLAYING <> PLAYING)) by (by intros H).
  rewrite bool_decide_eq_false_2 by (rewrite length_app; cbn [length]; lia).
  cbn [orb]. cbv zeta. unfold findIndex.
  rewrite findIndexFrom_app_false.
  2:{ eapply Forall_impl; [exact Hpre|]. intros a Ha. cbn.
      by apply Qcltb_ge, Qclt_le_weak. }
  cbn [findIndexFrom fst]. rewrite (Qcltb_ge t t) by apply Qcle_refl.
  assert (exists first, (pre ++ (t, x) :: post) !! 0%nat = Some first /\ fst first <= t)
    as (first & -> & Hfirst).
  { destruct pre as [|a pre]; cbn.
    - eexists. split; [done|]. apply Qcle_refl.
    - eexists. split; [done|]. apply Forall_cons_1 in Hpre as [? _].
      by apply Qclt_le_weak. }
  rewrite (Qcltb_ge _ _ Hfirst).
  destruct post as [|[t2 x2] post]; cbn [findIndexFrom].
  - by rewrite last_snoc.
  - apply Forall_cons_1 in Hpost as [Ht2 _]. cbn [fst] in Ht2.
    cbn [fst]. rewrite (Qcltb_lt _ _ Ht2). cbn [Nat.add].
    rewrite list_lookup_middle by done.
    rewrite (lookup_app_r pre) by lia.
    replace (S (length pre) - length pre)%nat with 1%nat by lia. cbn [lookup list_lookup].
    cbn [fst snd].
    assert (Qcltb 0 (t2 - t) = true) as ->.
    { apply Qcltb_lt. replace 0 with (t - t) by ring. unfold Qcminus.
      unfold Qclt, Qcplus in *. cbn [this Q2Qc] in *. rewrite !Qred_correct.
      by apply Qplus_lt_l. }
    cbn [negb]. f_equal. replace (t - t) with 0 by ring. unfold Qcdiv. ring.
Qed.

(** X27: while Playing, a progress equal to the start time of a note of the
    song puts the playhead on a note drawn for that start time (the last
    one when several notes share it): the time points of the layout are
    in strictly increasing order of time and hold every start time. *)
Theorem playhead_reaches_every_note song n :
  n ∈ song ->
  StronglySorted (fun a b => fst a < fst b) (timepoints (layout song))
  /\ exists x n',
       playheadX PLAYING (timepoints (layout song)) (startTime n) = At x
       /\ NoteElement n' x ∈ layout_elements (layout song)
       /\ startTime n' = startTime n.
Proof.
  intros Hn. unfold layout. cbv zeta. cbn [timepoints layout_elements].
  set (st0 := MkLayoutState [] [] (STAFF_PADDING + qz 60) (-1)).
  destruct (timeMap_fold song st0) as (Hnd & Hval & _ & Hkeys).
  { constructor. }
  { intros k v H. by apply elem_of_nil in H. }
  set (f := fold_left layoutNote song st0) in *.
  assert (StronglySorted (fun a b => fst a < fst b) (sortByTime (noteTimeMap f)))
    as Hsorted.
  { apply sorted_strict; [apply sortByTime_sorted|].
    by rewrite (sortByTime_perm (noteTimeMap f)). }
  split; [exact Hsorted|].
  apply Hkeys in Hn. apply list_elem_of_fmap in Hn as ([k x] & Hk & Hin).
  cbn [fst] in Hk. subst k.
  destruct (Hval _ _ Hin) as (n' & Hel & Ht).
  exists x, n'. split; [|split; [|done]].
  - apply playhead_at_timepoint; [done|]. by rewrite sortByTime_perm.
  - apply elem_of_app. by left.
Qed.

Lemma playhead_reaches_every_note_witness :
  exists x n',
    playheadX PLAYING (timepoints (layout twoNotes)) (qz 500) = At x
    /\ NoteElement n' x ∈ layout_elements (layout twoNotes)
    /\ startTime n' = qz 500.
Proof.
  destruct (playhead_reaches_every_note twoNotes (MkSongNote "D4" (qz 500) (qz 500)))
    as (_ & H); [apply list_elem_of_further, list_elem_of_here|exact H].
Defined.

(** ** The keyboard ([components/Piano.tsx]) and the two note tables *)

Inductive KeyType := white | black.

Definition PIANO_KEYS : list (string * KeyType) :=
  [ ("C3", white); ("C#3", black); ("D3", white); ("D#3", black); ("E3", white);
    ("F3", white); ("F#3", black); ("G3", white); ("G#3", black); ("A3", white);
    ("A#3", black); ("B3", white);
    ("C4", white); ("C#4", black); ("D4", white); ("D#4", black); ("E4", white);
    ("F4", white); ("F#4", black); ("G4", white); ("G#4", black); ("A4", white);
    ("A#4", black); ("B4", white);
    ("C5", white); ("C#5", black); ("D5", white); ("D#5", black); ("E5", white);
    ("F5", white); ("F#5", black); ("G5", white); ("G#5", black); ("A5", white);
    ("A#5", black); ("B5", white) ].

Lemma assoc_keys {A} k (l : list (string * A)) :
  k ∈ map fst l -> is_Some (assoc k l).
Proof.
  induction l as [|[k' v] l IH]; cbn [map fst assoc]; [by intros ?%elem_of_nil|].
  case_bool_decide as Hk; [by eexists|].
  intros [->|Hin]%elem_of_cons; [done|by apply IH].
Qed.

(** X28: the keyboard, the frequency table of the engine and the staff table
    list the same 36 notes in the same order, none of them twice and none
    the rest marker. So every key of the keyboard sounds at a frequency of
    its own from the table, never at the 440 Hz fallback, and has a staff
    step; along the keyboard the frequencies rise strictly. *)
Theorem keyboard_tables_agree :
  map fst PIANO_KEYS = map fst noteFrequencies
  /\ map fst PIANO_KEYS = map fst NOTE_TO_STAFF_STEP
  /\ NoDup (map fst PIANO_KEYS)
  /\ StronglySorted Z.lt (map snd noteFrequencies)
  /\ (forall k, k ∈ map fst PIANO_KEYS ->
        k <> "Rest"
        /\ (exists f, assoc k noteFrequencies = Some f /\ frequencyOf k = qfrac f 100)
        /\ is_Some (assoc k NOTE_TO_STAFF_STEP)).
Proof.
  assert (map fst PIANO_KEYS = map fst noteFrequencies) as H1 by reflexivity.
  assert (map fst PIANO_KEYS = map fst NOTE_TO_STAFF_STEP) as H2 by reflexivity.
  split; [done|]. split; [done|]. split; [|split].
  - apply (bool_decide_unpack _). vm_compute. exact I.
  - cbn [map snd noteFrequencies]. repeat (constructor; [|repeat (constructor; [reflexivity|])]);
      constructor.
  - intros k Hk. split; [|split].
    + intros ->. revert Hk. apply (bool_decide_unpack _). vm_compute. exact I.
    + rewrite H1 in Hk. destruct (assoc_keys _ _ Hk) as [f Hf]. exists f.
      split; [done|]. unfold frequencyOf. by rewrite Hf.
    + rewrite H2 in Hk. by apply assoc_keys.
Qed.


(** * The PCM helpers of the live-feedback hook ([createBlob],
      [decodeAudioData])

    Samples are finite numbers; the byte view and the base-64 text of the
    buffers are left to the platform. *)

(** The integer part of a number, towards zero. *)
Definition truncate (x : Qc) : Z :=
  if Qcltb x 0 then Qceiling (this x) else Qfloor (this x).

(** The store of a number into an [Int16Array]: its integer part modulo
    2^16, read as a signed 16-bit value. *)
Definition toInt16 (x : Qc) : Z :=
  let m := (truncate x mod 65536)%Z in
  if (32768 <=? m)%Z then (m - 65536)%Z else m.

(** The loop of [createBlob]: [int16[i] = data[i] * 32768] *)
Definition createBlobSamples (data : list Qc) : list Z :=
  map (fun x => toInt16 (x * qz 32768)) data.

(** The loops of [decodeAudioData], for one channel of a positive number
    of channels:
    [channelData[i] = dataInt16[i * numChannels + channel] / 32768.0]
    for [i] below [dataInt16.length / numChannels]. The buffer holds the
    whole frames only, so a write past them is lost. *)
Definition channelData (dataInt16 : list Z) (numChannels channel : nat) : list Qc :=
  map (fun i => qz (nth (i * numChannels + channel) dataInt16 0%Z) / qz 32768)
    (seq 0 (length dataInt16 / numChannels)).

Lemma this_qz z : (this (qz z) == inject_Z z)%Q.
Proof. unfold qz. cbn [this Q2Qc]. apply Qred_correct. Qed.

Lemma truncate_qz z : truncate (qz z) = z.
Proof.
  unfold truncate. destruct (Qcltb _ _).
  - rewrite (Qceiling_comp _ _ (this_qz z)). apply Qceiling_Z.
  - rewrite (Qfloor_comp _ _ (this_qz z)). apply Qfloor_Z.
Qed.

Lemma toInt16_in_range v : (-32768 <= v <= 32767)%Z -> toInt16 (qz v) = v.
Proof.
  intros Hv. unfold toInt16. rewrite truncate_qz. cbv zeta.
  pose proof (Z.div_mod v 65536). pose proof (Z.mod_pos_bound v 65536).
  destruct (Z.leb_spec 32768 (v mod 65536)); lia.
Qed.

Lemma map_nth_seq {A B} (f : A -> B) (d : A) l :
  map (fun i => f (nth i l d)) (seq 0 (length l)) = map f l.
Proof.
  induction l as [|a l IH]; [done|]. cbn [length seq map nth].
  f_equal. rewrite <- seq_shift, map_map. exact IH.
Qed.

Lemma qz_32768_nonzero : qz 32768 <> 0.
Proof. intros H. apply (f_equal this) in H. discriminate. Qed.

(** X29: played back through [createBlob], the samples [decodeAudioData]
    makes of a mono buffer of 16-bit values give the same 16-bit values;
    each of them is at least -1 and below 1. *)
Theorem pcm_round_trip ints :
  Forall (fun v => (-32768 <= v <= 32767)%Z) ints ->
  createBlobSamples (channelData ints 1 0) = ints
  /\ Forall (fun x => - (1) <= x /\ x < 1) (channelData ints 1 0).
Proof.
  intros Hr. unfold channelData. rewrite Nat.div_1_r.
  assert (map (fun i => qz (nth (i * 1 + 0) ints 0%Z) / qz 32768) (seq 0 (length ints))
          = map (fun v => qz v / qz 32768) ints) as ->.
  { rewrite <- (map_nth_seq (fun v => qz v / qz 32768) 0%Z ints).
    apply map_ext. intros i. by rewrite Nat.mul_1_r, Nat.add_0_r. }
  pose proof qz_32768_nonzero as Hnz.
  assert (0 < qz 32768) as Hpos by done.
  split.
  - unfold createBlobSamples. rewrite map_map.
    induction Hr as [|v l Hv _ IH]; [done|]. cbn [map]. rewrite IH. f_equal.
    replace (qz v / qz 32768 * qz 32768) with (qz v) by (field; done).
    by apply toInt16_in_range.
  - apply Forall_fmap. eapply Forall_impl; [exact Hr|]. intros v Hv. cbv beta in *. split.
    + apply (Qcmult_lt_0_le_reg_r _ _ (qz 32768) Hpos).
      replace (qz v / qz 32768 * qz 32768) with (qz v) by (field; done).
      assert (- (1) * qz 32768 = qz (-32768)) as -> by (apply Qc_is_canon; reflexivity).
      apply qz_le. lia.
    + apply Qcnot_le_lt. intros Hle.
      apply (Qcmult_le_compat_r _ _ (qz 32768)) in Hle; [|by apply Qclt_le_weak].
      replace (qz v / qz 32768 * qz 32768) with (qz v) in Hle by (field; done).
      assert (1 * qz 32768 = qz 32768) as E by ring. rewrite E in Hle.
      assert (qz v < qz 32768) as Hlt by (apply qz_lt; lia).
      by apply Qclt_not_le in Hlt.
Qed.

Lemma pcm_round_trip_witness :
  createBlobSamples (channelData [0; 16384; -32768]%Z 1 0) = [0; 16384; -32768]%Z.
Proof.
  destruct (pcm_round_trip [0; 16384; -32768]%Z) as [H _];
    [repeat constructor; lia|exact H].
Defined.

Lemma Qc_le_this x z : qz z <= x -> (inject_Z z <= this x)%Q.
Proof. unfold Qcle. by rewrite this_qz. Qed.

Lemma Qc_lt_this x z : x < qz z -> (this x < inject_Z z)%Q.
Proof. unfold Qclt. by rewrite this_qz. Qed.

Lemma truncate_bounds x lo hi :
  (lo <= 0)%Z -> (0 < hi)%Z -> qz lo <= x -> x < qz hi ->
  (lo <= truncate x < hi)%Z.
Proof.
  intros Hlo0 Hhi0 Hlo Hhi. apply Qc_le_this in Hlo. apply Qc_lt_this in Hhi.
  unfold truncate. destruct (Qcltb x 0) eqn:E.
  - apply Qcltb_true in E. change 0 with (qz 0) in E. apply Qc_lt_this in E.
    pose proof (Qle_ceiling (this x)) as H1.
    pose proof (Qceiling_lt (this x)) as H2. split.
    + rewrite Zle_Qle. by eapply Qle_trans.
    + assert (inject_Z (Qceiling (this x) - 1) < inject_Z 0)%Q as H3.
      { eapply Qlt_trans; [exact H2|]. exact E. }
      rewrite <- Zlt_Qlt in H3. lia.
  - apply Qcltb_false in E. change 0 with (qz 0) in E. apply Qc_le_this in E.
    pose proof (Qfloor_le (this x)) as H1. split.
    + apply Qfloor_resp_le in E. rewrite Qfloor_Z in E. lia.
    + rewrite Zlt_Qlt. by eapply Qle_lt_trans.
Qed.

(** X30: the 16-bit value [createBlob] stores for a sample is always in the
    signed 16-bit range. For a sample from -1 up to, but not including, 1
    it is the integer part of the sample times 32768. A sample of 1, or
    just above, is not clipped to 32767: it wraps around to -32768. *)
Theorem createBlob_wraps_at_full_scale x :
  (-32768 <= toInt16 (x * qz 32768) <= 32767)%Z
  /\ (- (1) <= x -> x < 1 ->
      toInt16 (x * qz 32768) = truncate (x * qz 32768))
  /\ (1 <= x -> x < 1 + / qz 32768 -> toInt16 (x * qz 32768) = (-32768)%Z).
Proof.
  pose proof qz_32768_nonzero as Hnz.
  assert (0 < qz 32768) as Hpos by done.
  assert (forall t, (-32768 <= t < 32768)%Z ->
            (if (32768 <=? t mod 65536)%Z then (t mod 65536 - 65536)%Z
             else (t mod 65536)%Z) = t) as Hsmall.
  { intros t Ht. pose proof (Z.div_mod t 65536). pose proof (Z.mod_pos_bound t 65536).
    destruct (Z.leb_spec 32768 (t mod 65536)); lia. }
  split; [|split].
  - unfold toInt16. cbv zeta.
    pose proof (Z.mod_pos_bound (truncate (x * qz 32768)) 65536).
    destruct (Z.leb_spec 32768 (truncate (x * qz 32768) mod 65536)); lia.
  - intros Hlo Hhi. unfold toInt16. cbv zeta. apply Hsmall.
    apply truncate_bounds; [lia|lia| |].
    + assert (qz (-32768) = - (1) * qz 32768) as -> by (apply Qc_is_canon; reflexivity).
      apply Qcmult_le_compat_r; [done|by apply Qclt_le_weak].
    + assert (qz 32768 = 1 * qz 32768) as E by ring. rewrite E at 2.
      by apply Qcmult_lt_compat_r.
  - intros Hlo Hhi. unfold toInt16. cbv zeta.
    assert (truncate (x * qz 32768) = 32768%Z) as ->; [|reflexivity].
    assert (qz 32768 <= x * qz 32768) as H1.
    { assert (qz 32768 = 1 * qz 32768) as E by ring. rewrite E at 1.
      apply Qcmult_le_compat_r; [done|by apply Qclt_le_weak]. }
    assert (x * qz 32768 < qz 32769) as H2.
    { assert (qz 32769 = (1 + / qz 32768) * qz 32768) as ->.
      { assert (qz 32769 = qz 32768 + 1) as -> by (apply Qc_is_canon; reflexivity).
        field. done. }
      by apply Qcmult_lt_compat_r. }
    unfold truncate. rewrite Qcltb_ge.
    2:{ eapply Qcle_trans; [|exact H1]. done. }
    apply Qc_le_this in H1. apply Qc_lt_this in H2.
    pose proof (Qfloor_le (this (x * qz 32768))) as F1.
    pose proof (Qlt_floor (this (x * qz 32768))) as F2.
    assert (inject_Z 32768 < inject_Z (Qfloor (this (x * qz 32768)) + 1))%Q as G1
      by (by eapply Qle_lt_trans).
    assert (inject_Z (Qfloor (this (x * qz 32768))) < inject_Z 32769)%Q as G2
      by (by eapply Qle_lt_trans).
    rewrite <- Zlt_Qlt in G1, G2. lia.
Qed.

(** * What the interface offers

    The controls of [App] as it renders a state: a control that is not
    rendered, or is disabled, fires no event. The listening flag and the
    prompt texts belong to other hooks and are taken at their most
    permissive (not listening, a prompt that is not blank), so that at
    least the events the interface can fire are offered. *)

(** [isInteractionDisabled], not listening:
    [appState === 'LOADING' || appState === 'PLAYING' || isListening] *)
Definition isInteractionDisabled (s : State) : bool :=
  bool_decide (appState s = LOADING) || bool_decide (appState s = PLAYING).

(** Whether the render of [s] lets an event through. The transport
    controls and the piano are inside [{song && (...)}]; each control has
    its own [disabled]; the alert is rendered when [errorInfo] is set. The
    browser's own events (a settled request, a timeout, the end of an
    oscillator, an animation frame) are not guarded. *)
Definition offered (s : State) (ev : Event) : bool :=
  match ev with
  | EvHandleLoad =>
      (* disabled={!promptValue.trim() || isInteractionDisabled} *)
      negb (isInteractionDisabled s)
  | EvPlayPause =>
      (* disabled={appState === 'LOADING' || appState === 'LEARNING'} *)
      bool_decide (is_Some (song s))
      && negb (bool_decide (appState s = LOADING) || bool_decide (appState s = LEARNING))
  | EvResetPlayback =>
      (* disabled={appState !== 'PLAYING' && appState !== 'PAUSED'} *)
      bool_decide (is_Some (song s))
      && negb (bool_decide (appState s <> PLAYING) && bool_decide (appState s <> PAUSED))
  | EvToggleLearning =>
      (* disabled={isInteractionDisabled || appState === 'PAUSED'} *)
      bool_decide (is_Some (song s))
      && negb (isInteractionDisabled s || bool_decide (appState s = PAUSED))
  | EvSetPlaybackSpeed _ =>
      (* disabled={appState === 'PLAYING'} *)
      bool_decide (is_Some (song s)) && negb (bool_decide (appState s = PLAYING))
  | EvNoteDown _ | EvNoteUp _ => bool_decide (is_Some (song s))
  | EvDismissError => bool_decide (is_Some (errorInfo s))
  | EvLoadSettled _ _ | EvTimer _ | EvOscillatorEnded _ | EvAnimationFrame => true
  end.

(** The states the component reaches through the events its interface
    offers. *)
Inductive uiReachable (B : Builtins) : State -> Prop :=
| ui_mount (w : option AudioContext) : uiReachable B (initialState w)
| ui_step (c c' : Clock) (ev : Event) (s : State) :
    uiReachable B s -> admissible B ev -> offered s ev = true ->
    uiReachable B (transition c c' ev s).

Lemma uiReachable_reachable B s : uiReachable B s -> reachable B s.
Proof. induction 1; [apply reach_mount|by apply reach_step]. Qed.

(** A step that starts nothing: it keeps the song, does not go back to
    Idle and does not enter Playing or Paused. *)
Definition passive : relation State :=
  fun s s' =>
    song s' = song s
    /\ (appState s' = IDLE -> appState s = IDLE)
    /\ (appState s' = PLAYING \/ appState s' = PAUSED ->
        appState s = PLAYING \/ appState s = PAUSED).

#[global] Instance passive_preorder : PreOrder passive.
Proof.
  split.
  - intros s. unfold passive. auto.
  - intros s1 s2 s3 (H1 & H2 & H3) (H4 & H5 & H6). unfold passive.
    repeat split; [congruence|auto|auto].
Qed.

(** A step of the transport: it keeps the song and does not go back to
    Idle. *)
Definition grounded : relation State :=
  fun s s' => song s' = song s /\ (appState s' = IDLE -> appState s = IDLE).

#[global] Instance grounded_preorder : PreOrder grounded.
Proof.
  split.
  - intros s. unfold grounded. auto.
  - intros s1 s2 s3 (H1 & H2) (H4 & H5). unfold grounded.
    split; [congruence|auto].
Qed.














(** ** Playing and Paused only with a song *)












(** ** A change of speed *)


(** What no callback and no effect writes: the speed and its ref. *)
Definition speedKept : relation State :=
  fun s s' =>
    playbackSpeed s' = playbackSpeed s /\ playbackSpeedRef s' = playbackSpeedRef s.

#[global] Instance speedKept_preorder : PreOrder speedKept.
Proof.
  split.
  - intros s. by split.
  - intros s1 s2 s3 [H1 H2] [H3 H4]. split; congruence.
Qed.












(** * The learning cursor and rests *)




